(** * A shallow embedding of the ATSVG tracing engine (src/js/imagetrace.js)

    The engine is the [ImageTracer] module of [src/js/imagetrace.js]:
    [trace] runs the preprocessing ([blur], [toGrayscale], [toMonochrome]),
    [quantize]/[medianCut], [createIndexedImage], [layerSeparation] and
    [generateSvg] (which calls [tracePaths], [pathToSvg] and
    [simplifyPath]).

    Modelling conventions.
    - Byte buffers ([imgd.data], a [Uint8ClampedArray]) are [list Z]; a read
      [data[i]] is [nthZ data i], [None] standing for JavaScript's
      [undefined] outside the buffer; a write to a typed array outside its
      bounds is ignored ([list_set]).
    - JavaScript numbers on integer inputs are [Z]; fractional option
      values ([scale], [ltres], [threshold]) and averages are [Q]; the blur
      kernel, computed with [Math.exp], is [R].  Floating-point rounding is
      not modelled: arithmetic is exact.
    - [NaN] (arithmetic on [undefined]) is [None] in an [option].
    - [new Int32Array(n)] and the other typed-array constructors throw for
      a negative [n]; the model allocates nothing instead, so statements
      about whole runs of [trace] assume [width * height >= 0].
    - The markup document is kept as a structured value ([svg_doc]): the
      header attributes and the list of emitted elements.  The path data of
      each element is kept as the list of the values of its coordinates as
      [toFixed] formats them (rounded to [roundcoords] decimals); the
      [RangeError] [toFixed] throws for [roundcoords] outside [0 .. 100] is
      an error result.
    - The effect of [trace] on the caller's [imgd] object is modelled by
      returning the object as it is after the call, next to the result.
    - [simplifyPath] recursion is given fuel; running out of fuel
      ([None]) stands for the unbounded recursion (a stack overflow). *)

From Stdlib Require Import String ZArith QArith Qround List Lia Bool.
From Stdlib Require Import Permutation Reals Lra Sorted Qabs.
Import ListNotations.

Open Scope Z_scope.

(** ** JavaScript array helpers *)

(** [arr[i]]: [undefined] ([None]) outside [0 .. length-1]. *)
Definition nthZ {A} (l : list A) (i : Z) : option A :=
  if i <? 0 then None else nth_error l (Z.to_nat i).

(** [arr[i] = v] on a typed array: out-of-range writes are ignored. *)
Fixpoint list_set_nat {A} (l : list A) (n : nat) (v : A) : list A :=
  match l, n with
  | [], _ => []
  | _ :: t, O => v :: t
  | h :: t, S n' => h :: list_set_nat t n' v
  end.

Definition list_set {A} (l : list A) (i : Z) (v : A) : list A :=
  if i <? 0 then l else list_set_nat l (Z.to_nat i) v.

(** [for (let i = a; i < a + n; i++)]. *)
Definition seqZ (a : Z) (n : Z) : list Z :=
  map (fun k => a + Z.of_nat k) (seq 0 (Z.to_nat n)).

(** [Math.round] (halves round up). *)
Definition js_round (q : Q) : Z := Qfloor (q + (1 # 2)).

(** ** Data model *)

(** Pixel objects [{r, g, b, a}] pushed by [quantize] and palette
    entries returned by [medianCut] have the same shape. *)
Record color := mkColor { r : Z; g : Z; b : Z; a : Z }.

(** An [ImageData]-like object. *)
Record imagedata := mkImageData { width : Z; height : Z; data : list Z }.

(** The options object after [{ ...defaultOptions, ...options }]; only the
    fields the engine reads are kept. *)
Record options := mkOptions {
  numberofcolors : Z;
  pathomit : Z;
  ltres : Q;
  scale : Q;
  roundcoords : Z;
  viewbox : bool;
  desc : bool;
  blurradius : Z;
  colorMode : string;
  threshold : Q
}.

(** [defaultOptions]. *)
Definition defaultOptions : options := {|
  numberofcolors := 16;
  pathomit := 8;
  ltres := 1;
  scale := 1;
  roundcoords := 1;
  viewbox := false;
  desc := false;
  blurradius := 0;
  colorMode := "color"%string;
  threshold := 128
|}.

(** ** Quantizer: [quantize] and [medianCut] *)

Inductive channel := Ch_r | Ch_g | Ch_b.

(** [p[channel]]. *)
Definition chan (ch : channel) (p : color) : Z :=
  match ch with Ch_r => r p | Ch_g => g p | Ch_b => b p end.

(** [{ r: 128, g: 128, b: 128, a: 255 }]. *)
Definition gray_entry : color := mkColor 128 128 128 255.

(** [Math.max(...values) - Math.min(...values)] on a non-empty box. *)
Definition box_range (ch : channel) (box : list color) : Z :=
  match map (chan ch) box with
  | [] => 0
  | v :: vs => fold_left Z.max vs v - fold_left Z.min vs v
  end.

(** One bucket of the scan: the three channels in the order r, g, b, a
    strictly larger range replacing the best one found so far. *)
Definition scan_box (i : Z) (box : list color) (st : Z * Z * channel)
  : Z * Z * channel :=
  if (Z.of_nat (length box) <? 2) then st
  else fold_left
         (fun st ch =>
            let '(maxRange, _, _) := st in
            let range := box_range ch box in
            if maxRange <? range then (range, i, ch) else st)
         [Ch_r; Ch_g; Ch_b] st.

(** The scan over all boxes, returning [(maxRange, maxBox, maxChannel)]. *)
Fixpoint scan_boxes (i : Z) (boxes : list (list color)) (st : Z * Z * channel)
  : Z * Z * channel :=
  match boxes with
  | [] => st
  | box :: rest => scan_boxes (i + 1) rest (scan_box i box st)
  end.

(** [box.sort((a, b) => a[ch] - b[ch])]: the stable ascending sort,
    written as an insertion sort. *)
Fixpoint insert_by (ch : channel) (x : color) (l : list color) : list color :=
  match l with
  | [] => [x]
  | y :: ys => if chan ch x <=? chan ch y then x :: l else y :: insert_by ch x ys
  end.

Fixpoint sort_by (ch : channel) (l : list color) : list color :=
  match l with
  | [] => []
  | x :: xs => insert_by ch x (sort_by ch xs)
  end.

(** [boxes.splice(maxBox, 1, box.slice(0, mid), box.slice(mid))] after the
    sort. *)
Definition split_box (boxes : list (list color)) (maxBox : Z) (ch : channel)
  : list (list color) :=
  let box := sort_by ch (nth (Z.to_nat maxBox) boxes []) in
  let mid := (length box / 2)%nat in
  firstn (Z.to_nat maxBox) boxes
    ++ [firstn mid box; skipn mid box]
    ++ skipn (S (Z.to_nat maxBox)) boxes.

(** The [while] loop of [medianCut].  [fuel] bounds the number of
    iterations; each iteration adds one box and the guard stops at
    [numColors] boxes, so [Z.to_nat numColors] iterations never run out
    (see [medianCut_loop_spec] and [medianCut_loop_fuel]). *)
Fixpoint medianCut_loop (fuel : nat) (numColors npixels : Z)
  (boxes : list (list color)) : list (list color) :=
  match fuel with
  | O => boxes
  | S fuel' =>
      if (Z.of_nat (length boxes) <? numColors)
         && (Z.of_nat (length boxes) <? npixels) then
        let '(maxRange, maxBox, maxChannel) := scan_boxes 0 boxes (0, 0, Ch_r) in
        if maxRange =? 0 then boxes
        else medianCut_loop fuel' numColors npixels
               (split_box boxes maxBox maxChannel)
      else boxes
  end.

Definition sum_chan (f : color -> Z) (box : list color) : Z :=
  fold_left (fun acc p => acc + f p) box 0.

(** The average of a box ([Math.round(sum / length)] per component). *)
Definition box_average (box : list color) : color :=
  match box with
  | [] => gray_entry
  | _ =>
      let n := inject_Z (Z.of_nat (length box)) in
      mkColor (js_round (inject_Z (sum_chan r box) / n))
              (js_round (inject_Z (sum_chan g box) / n))
              (js_round (inject_Z (sum_chan b box) / n))
              (js_round (inject_Z (sum_chan a box) / n))
  end.

Definition medianCut (pixels : list color) (numColors : Z) : list color :=
  if (Nat.eqb (length pixels) 0) || (numColors <? 1) then [gray_entry]
  else map box_average
         (medianCut_loop (Z.to_nat numColors) numColors
            (Z.of_nat (length pixels)) [pixels]).

(** The pixel collection of [quantize]: groups of four bytes, a pixel kept
    when its alpha is [> 0]; a trailing partial group has an [undefined]
    alpha and is skipped. *)
Fixpoint collect_pixels (d : list Z) : list color :=
  match d with
  | r0 :: g0 :: b0 :: a0 :: rest =>
      (if 0 <? a0 then [mkColor r0 g0 b0 a0] else []) ++ collect_pixels rest
  | _ => []
  end.

Definition quantize (imgd : imagedata) (opts : options) : list color :=
  let pixels := collect_pixels (data imgd) in
  match pixels with
  | [] => [mkColor 0 0 0 0]
  | _ => medianCut pixels (numberofcolors opts)
  end.

(** The pixel collection of the sibling implementation
    ([ImageTracer.getPalette] in src/examples/usage.js), which keeps a pixel
    when its alpha is [> 128]. *)
Fixpoint usage_getPalette_pixels (d : list Z) : list color :=
  match d with
  | r0 :: g0 :: b0 :: a0 :: rest =>
      (if 128 <? a0 then [mkColor r0 g0 b0 a0] else [])
        ++ usage_getPalette_pixels rest
  | _ => []
  end.

(** ** Indexer: [createIndexedImage] *)

(** [dr * dr + dg * dg + db * db]; [NaN] ([None]) when a channel is
    [undefined]. *)
Definition sq_dist (rv gv bv : option Z) (p : color) : option Z :=
  match rv, gv, bv with
  | Some r0, Some g0, Some b0 =>
      Some ((r0 - r p) * (r0 - r p) + (g0 - g p) * (g0 - g p)
            + (b0 - b p) * (b0 - b p))
  | _, _, _ => None
  end.

(** [dist < minDist], where [minDist] starts at [Infinity] ([None]) and a
    [NaN] distance compares false. *)
Definition dist_lt (dist minDist : option Z) : bool :=
  match dist, minDist with
  | Some d, Some m => d <? m
  | Some _, None => true
  | None, _ => false
  end.

(** The inner loop over the palette: [(minDist, colorIdx)]. *)
Fixpoint closest (j : Z) (pal : list color) (rv gv bv : option Z)
  (st : option Z * Z) : option Z * Z :=
  match pal with
  | [] => st
  | p :: rest =>
      let dist := sq_dist rv gv bv p in
      let st' := if dist_lt dist (fst st) then (dist, j) else st in
      closest (j + 1) rest rv gv bv st'
  end.

(** [indexed[i]] for pixel [i]: [-1] when [a < 128] ([undefined < 128] is
    false), otherwise the index of the closest palette entry. *)
Definition index_pixel (d : list Z) (palette : list color) (i : Z) : Z :=
  let idx := i * 4 in
  let rv := nthZ d idx in
  let gv := nthZ d (idx + 1) in
  let bv := nthZ d (idx + 2) in
  let av := nthZ d (idx + 3) in
  if match av with Some a0 => a0 <? 128 | None => false end then -1
  else snd (closest 0 palette rv gv bv (None, 0)).

(** The object [{ array, width, height }] returned by [createIndexedImage]. *)
Record indexed_image := mkIndexed {
  ix_array : list Z; ix_width : Z; ix_height : Z }.

Definition createIndexedImage (imgd : imagedata) (palette : list color)
  : indexed_image :=
  mkIndexed (map (index_pixel (data imgd) palette)
                 (seqZ 0 (width imgd * height imgd)))
            (width imgd) (height imgd).

(** ** Layer separation: [layerSeparation] *)

(** The object [{ array, width, height, color }] pushed by
    [layerSeparation]. *)
Record layer := mkLayer {
  l_array : list Z; l_width : Z; l_height : Z; l_color : color }.

(** The body of the loop for one [colorIdx]. *)
Definition layer_for (ix : indexed_image) (palette : list color) (colorIdx : Z)
  : list layer :=
  let arr := map (fun v => if v =? colorIdx then 1 else 0) (ix_array ix) in
  let hasPixels := existsb (fun v => v =? colorIdx) (ix_array ix) in
  if hasPixels then
    [mkLayer arr (ix_width ix) (ix_height ix)
       (nth (Z.to_nat colorIdx) palette gray_entry)]
  else [].

Definition layerSeparation (ix : indexed_image) (palette : list color)
  : list layer :=
  flat_map (layer_for ix palette) (seqZ 0 (Z.of_nat (length palette))).

(** ** Contour tracer: [tracePaths] *)

Definition point := (Z * Z)%type.

Section Tracer.

Variable L : layer.

Let w := l_width L.
Let h := l_height L.

(** [getPixel(x, y)]. *)
Definition getPixel (x y : Z) : Z :=
  if (x <? 0) || (w <=? x) || (y <? 0) || (h <=? y) then 0
  else match nthZ (l_array L) (y * w + x) with Some v => v | None => 0 end.

(** The truth value of [getPixel(x, y)]. *)
Definition is_set (x y : Z) : bool := negb (getPixel x y =? 0).

(** [isEdge(x, y)]. *)
Definition isEdge (x y : Z) : bool :=
  if negb (is_set x y) then false
  else negb (is_set (x - 1) y) || negb (is_set (x + 1) y)
       || negb (is_set x (y - 1)) || negb (is_set x (y + 1)).

(** [dx] and [dy]: right, down, left, up. *)
Definition dx (d : Z) : Z := nth (Z.to_nat d) [1; 0; -1; 0] 0.
Definition dy (d : Z) : Z := nth (Z.to_nat d) [0; 1; 0; -1] 0.

(** One candidate [i] of the [for (let i = 0; i < 4; i++)] search, right
    turn first; [acc] is the move already found ([found]), if any. *)
Definition try_dir (cx cy dir i : Z) (acc : option (Z * Z * Z)) : option (Z * Z * Z) :=
  match acc with
  | Some _ => acc
  | None =>
      let newDir := (dir + 3 + i) mod 4 in
      let nx := cx + dx newDir in
      let ny := cy + dy newDir in
      if is_set nx ny && isEdge nx ny then Some (nx, ny, newDir) else None
  end.

(** The search of one step: the new position and heading, or [None] when
    [found] stays false. *)
Definition next_step (cx cy dir : Z) : option (Z * Z * Z) :=
  fold_left (fun acc i => try_dir cx cy dir i acc) [0; 1; 2; 3] None.

(** The [do { ... } while] walk.  The loop goes on while the walk has not
    come back to [start] and [steps < maxSteps]; [fuel] starts at
    [maxSteps], which the step counter reaches first. *)
Fixpoint walk (fuel : nat) (start : point) (maxSteps : Z) (cx cy dir steps : Z)
  (path : list point) (visited : list bool) : list point * list bool :=
  let path' := path ++ [(cx, cy)] in
  let visited' := list_set visited (cy * w + cx) true in
  match next_step cx cy dir with
  | None => (path', visited')
  | Some (nx, ny, ndir) =>
      let steps' := steps + 1 in
      if (negb (nx =? fst start) || negb (ny =? snd start))
         && (steps' <? maxSteps) then
        match fuel with
        | O => (path', visited')
        | S fuel' => walk fuel' start maxSteps nx ny ndir steps' path' visited'
        end
      else (path', visited')
  end.

(** [!visited[i]] is true on an unset ([0] or [undefined]) flag. *)
Definition visited_at (visited : list bool) (i : Z) : bool :=
  match nthZ visited i with Some v => v | None => false end.

(** The body of the scan at pixel [(x, y)]: state [(paths, visited)]. *)
Definition trace_at (pathomit0 : Z) (st : list (list point) * list bool)
  (xy : point) : list (list point) * list bool :=
  let '(paths, visited) := st in
  let '(x, y) := xy in
  if is_set x y && negb (visited_at visited (y * w + x)) && isEdge x y then
    let maxSteps := w * h * 4 in
    let '(path, visited') :=
      walk (Z.to_nat maxSteps) (x, y) maxSteps x y 0 0 [] visited in
    (if pathomit0 <=? Z.of_nat (length path) then paths ++ [path] else paths,
     visited')
  else st.

End Tracer.

(** Row-major scan order: [for y ... for x ...]. *)
Definition coords (w h : Z) : list point :=
  flat_map (fun y => map (fun x => (x, y)) (seqZ 0 w)) (seqZ 0 h).

Definition tracePaths (L : layer) (opts : options) : list (list point) :=
  fst (fold_left (trace_at L (pathomit opts)) (coords (l_width L) (l_height L))
         ([], repeat false (Z.to_nat (l_width L * l_height L)))).

(** ** Path simplifier: [simplifyPath] and [perpendicularDistance] *)

Definition Qltb (x y : Q) : bool := negb (Qle_bool y x).

(** The square of [perpendicularDistance(point, lineStart, lineEnd)]
    (exact arithmetic). *)
Definition perpendicularDistanceSq (p s e : point) : Q :=
  let ddx := fst e - fst s in
  let ddy := snd e - snd s in
  if (ddx =? 0) && (ddy =? 0) then
    inject_Z ((fst p - fst s) * (fst p - fst s) + (snd p - snd s) * (snd p - snd s))
  else
    let t := (inject_Z ((fst p - fst s) * ddx + (snd p - snd s) * ddy)
             / inject_Z (ddx * ddx + ddy * ddy))%Q in
    let nearestX := (inject_Z (fst s) + t * inject_Z ddx)%Q in
    let nearestY := (inject_Z (snd s) + t * inject_Z ddy)%Q in
    ((inject_Z (fst p) - nearestX) * (inject_Z (fst p) - nearestX)
     + (inject_Z (snd p) - nearestY) * (inject_Z (snd p) - nearestY))%Q.

(** [Math.sqrt(dsq) > tolerance], decided on the square [dsq >= 0]. *)
Definition dist_exceeds (dsq tolerance : Q) : bool :=
  Qltb tolerance 0 || Qltb (tolerance * tolerance) dsq.

(** The [for (let i = 1; i < points.length - 1; i++)] scan:
    [(maxDist², maxIdx)]; [dist > maxDist] compares the squares. *)
Definition farthest (points : list point) (start end_ : point) : Q * Z :=
  fold_left
    (fun st i =>
       let dsq := perpendicularDistanceSq (nth (Z.to_nat i) points (0, 0)) start end_ in
       if Qltb (fst st) dsq then (dsq, i) else st)
    (seqZ 1 (Z.of_nat (length points) - 2)) (0%Q, 0).

(** [simplifyPath(points, tolerance)]; [None] when the recursion does not
    come back within [fuel] nested calls. *)
Fixpoint simplifyPath (fuel : nat) (points : list point) (tolerance : Q)
  : option (list point) :=
  if (length points <=? 2)%nat then Some points
  else
    match fuel with
    | O => None
    | S fuel' =>
        let start := nth 0 points (0, 0) in
        let end_ := nth (length points - 1) points (0, 0) in
        let '(maxDist, maxIdx) := farthest points start end_ in
        if dist_exceeds maxDist tolerance then
          match simplifyPath fuel' (firstn (Z.to_nat maxIdx + 1) points) tolerance with
          | None => None
          | Some left0 =>
              match simplifyPath fuel' (skipn (Z.to_nat maxIdx) points) tolerance with
              | None => None
              | Some right0 => Some (removelast left0 ++ right0)
              end
          end
        else Some [start; end_]
    end.

(** ** Document emitter: [pathToSvg] and [generateSvg] *)

(** An element of the emitted document: the [<desc>] element, or a
    [<path fill="rgba(r,g,b,a/255)" d="M x y L x y ... Z"/>] element with
    its colour and the scaled coordinates of its [d] attribute. *)
Inductive svg_item :=
| SvgDesc
| SvgPath (fill : color) (d : list (Q * Q)).

(** The [<svg>] document: [width], [height], the optional [viewBox]
    ([0 0 w h]) and the elements in order. *)
Record svg_doc := mkDoc {
  doc_width : Z;
  doc_height : Z;
  doc_viewbox : option (Z * Z);
  doc_items : list svg_item
}.

(** [x.toFixed(f)] on a finite number [x] and an integer [f], as the value
    of the decimal string it returns: [None] is the [RangeError] thrown for
    [f] outside [0 .. 100]; for [|x| >= 10^21] the string is [x]'s own
    decimal form; otherwise it is [n / 10^f] with the sign of [x], where
    [n] is the integer closest to [|x| * 10^f], the larger one on a tie. *)
Definition toFixed (f : Z) (x : Q) : option Q :=
  if (f <? 0) || (100 <? f) then None
  else if Qle_bool (inject_Z (10 ^ 21)) (Qabs x) then Some x
  else
    let n := inject_Z (Qfloor (Qabs x * inject_Z (10 ^ f) + (1 # 2))) in
    Some (if Qltb x 0 then - (n / inject_Z (10 ^ f)) else n / inject_Z (10 ^ f))%Q.

(** [r(val)] of [pathToSvg]: [(val * scale).toFixed(round)]. *)
Definition fmt_coord (opts : options) (v : Z) : option Q :=
  toFixed (roundcoords opts) (inject_Z v * scale opts)%Q.

(** The coordinates of the [d] string, [r(x)] then [r(y)] point after
    point; [None] once a call throws. *)
Fixpoint fmt_points (opts : options) (pts : list point) : option (list (Q * Q)) :=
  match pts with
  | [] => Some []
  | (x, y) :: rest =>
      match fmt_coord opts x with
      | None => None
      | Some qx =>
          match fmt_coord opts y with
          | None => None
          | Some qy =>
              match fmt_points opts rest with
              | None => None
              | Some l => Some ((qx, qy) :: l)
              end
          end
      end
  end.

(** [pathToSvg(path, options)]: [Some None] is the empty string, [Some
    (Some d)] a non-empty path command, [None] an exception: a stack
    overflow in [simplifyPath] or a [RangeError] of [toFixed].  The
    recursion depth of a terminating [simplifyPath] call is below the path
    length, which is the fuel given. *)
Definition pathToSvg (path : list point) (opts : options)
  : option (option (list (Q * Q))) :=
  match path with
  | [] => Some None
  | _ =>
      match simplifyPath (length path) path (ltres opts) with
      | None => None
      | Some simplified =>
          if (length simplified <? 2)%nat then Some None
          else
            match fmt_points opts simplified with
            | None => None
            | Some d => Some (Some d)
            end
      end
  end.

(** The inner loop of [generateSvg] over the paths of one layer. *)
Fixpoint emit_paths (fill : color) (paths : list (list point)) (opts : options)
  : option (list svg_item) :=
  match paths with
  | [] => Some []
  | p :: ps =>
      match pathToSvg p opts with
      | None => None
      | Some None => emit_paths fill ps opts
      | Some (Some d) =>
          match emit_paths fill ps opts with
          | None => None
          | Some items => Some (SvgPath fill d :: items)
          end
      end
  end.

(** The outer loop of [generateSvg] over the layers. *)
Fixpoint emit_layers (layers : list layer) (opts : options)
  : option (list svg_item) :=
  match layers with
  | [] => Some []
  | L :: Ls =>
      match emit_paths (l_color L) (tracePaths L opts) opts with
      | None => None
      | Some items =>
          match emit_layers Ls opts with
          | None => None
          | Some rest => Some (items ++ rest)
          end
      end
  end.

Definition generateSvg (layers : list layer) (width0 height0 : Z) (opts : options)
  : option svg_doc :=
  let w := js_round (inject_Z width0 * scale opts) in
  let h := js_round (inject_Z height0 * scale opts) in
  match emit_layers layers opts with
  | None => None
  | Some items =>
      Some (mkDoc w h (if viewbox opts then Some (w, h) else None)
              ((if desc opts then [SvgDesc] else []) ++ items))
  end.

(** ** Preprocessing: [toGrayscale], [toMonochrome], [blur] *)

(** Storing a number in a [Uint8ClampedArray]. *)
Definition clamp_byte (v : Z) : Z := Z.max 0 (Z.min 255 v).

(** [0.299 * R + 0.587 * G + 0.114 * B]. *)
Definition luma (r0 g0 b0 : Z) : Q :=
  inject_Z (299 * r0 + 587 * g0 + 114 * b0) / inject_Z 1000.

(** The in-place loop of [toGrayscale], four bytes at a time; a group cut
    short by the end of the buffer reads [undefined], so its luma is [NaN],
    stored as [0] (writes past the end are ignored). *)
Fixpoint grayscale_bytes (d : list Z) : list Z :=
  match d with
  | r0 :: g0 :: b0 :: rest =>
      let v := clamp_byte (js_round (luma r0 g0 b0)) in
      v :: v :: v :: match rest with
                     | a0 :: rest' => a0 :: grayscale_bytes rest'
                     | [] => []
                     end
  | [_; _] => [0; 0]
  | [_] => [0]
  | [] => []
  end.

Definition toGrayscale (imgd : imagedata) : imagedata :=
  mkImageData (width imgd) (height imgd) (grayscale_bytes (data imgd)).

(** The in-place loop of [toMonochrome]: [gray >= threshold ? 255 : 0]. *)
Fixpoint monochrome_bytes (threshold0 : Q) (d : list Z) : list Z :=
  match d with
  | r0 :: g0 :: b0 :: rest =>
      let v := if Qle_bool threshold0 (luma r0 g0 b0) then 255 else 0 in
      v :: v :: v :: match rest with
                     | a0 :: rest' => a0 :: monochrome_bytes threshold0 rest'
                     | [] => []
                     end
  | [_; _] => [0; 0]
  | [_] => [0]
  | [] => []
  end.

Definition toMonochrome (imgd : imagedata) (threshold0 : Q) : imagedata :=
  mkImageData (width imgd) (height imgd) (monochrome_bytes threshold0 (data imgd)).

Open Scope R_scope.

(** The normalised kernel of [blur]:
    [Math.exp(-(x * x) / (2 * radius * radius)) / sum]. *)
Definition blur_kernel (radius : Z) : list R :=
  let raw := map (fun i => let x := IZR (i - radius) in
                           exp (- (x * x) / (2 * IZR radius * IZR radius)))
                 (seqZ 0 (2 * radius + 1)) in
  let sum := fold_left Rplus raw 0 in
  map (fun v => v / sum) raw.

(** Storing a number in a [Uint8ClampedArray] (ToUint8Clamp: [NaN] and
    values [<= 0] give [0], values [>= 255] give [255], others round to
    the nearest integer, ties to even). *)
Definition to_uint8_clamp (v : option R) : Z :=
  match v with
  | None => 0
  | Some x =>
      if Rle_dec x 0 then 0
      else if Rle_dec 255 x then 255
      else
        let f := Int_part x in
        if Rlt_dec (IZR f + / 2) x then (f + 1)%Z
        else if Rlt_dec x (IZR f + / 2) then f
        else if Z.even f then f else (f + 1)%Z
  end.

(** [acc += src[idx] * kernel[k]]; [undefined] makes the sum [NaN]. *)
Definition blur_acc (acc : option R) (v : option Z) (kk : R) : option R :=
  match acc, v with
  | Some s, Some z => Some (s + IZR z * kk)
  | _, _ => None
  end.

(** One pass of [blur] at pixel [(x, y)], channel [c]: the kernel runs
    along the row ([horizontal]) or the column, clamping at the edges. *)
Definition blur_sum (horizontal : bool) (w h radius : Z) (kern : list R)
  (src : list Z) (x y c : Z) : option R :=
  fold_left
    (fun acc k =>
       let idx := if horizontal
                  then ((y * w + Z.min (w - 1) (Z.max 0 (x + k - radius))) * 4)%Z
                  else ((Z.min (h - 1) (Z.max 0 (y + k - radius)) * w + x) * 4)%Z in
       blur_acc acc (nthZ src (idx + c)) (nth (Z.to_nat k) kern 0))
    (seqZ 0 (2 * radius + 1)) (Some 0).

(** A whole pass: reads [src], writes the four channels of every pixel
    into [dst] ([output] for the horizontal pass, [data] for the vertical
    one). *)
Definition blur_pass (horizontal : bool) (w h radius : Z) (kern : list R)
  (src dst : list Z) : list Z :=
  fold_left
    (fun dst '(x, y) =>
       let idx := ((y * w + x) * 4)%Z in
       fold_left
         (fun dst c =>
            list_set dst (idx + c)
              (to_uint8_clamp (blur_sum horizontal w h radius kern src x y c)))
         [0; 1; 2; 3]%Z dst)
    (coords w h) dst.

(** [blur(imgd, radius)]: the horizontal pass goes into a copy
    ([output = new Uint8ClampedArray(data)]), the vertical pass writes back
    into [imgd.data], which is returned. *)
Definition blur (imgd : imagedata) (radius : Z) : imagedata :=
  if (radius <? 1)%Z then imgd
  else
    let w := width imgd in
    let h := height imgd in
    let kern := blur_kernel radius in
    let output := blur_pass true w h radius kern (data imgd) (data imgd) in
    mkImageData w h (blur_pass false w h radius kern output (data imgd)).

Close Scope R_scope.

(** ** The pipeline: [trace] *)

(** [opts.numberofcolors = 2] on the merged options object. *)
Definition with_numberofcolors (opts : options) (n : Z) : options :=
  mkOptions n (pathomit opts) (ltres opts) (scale opts) (roundcoords opts)
    (viewbox opts) (desc opts) (blurradius opts) (colorMode opts) (threshold opts).

(** The preprocessing steps of [trace], all in place on [imgd]. *)
Definition preprocess (imgd : imagedata) (opts : options) : imagedata * options :=
  let imgd1 := if 0 <? blurradius opts then blur imgd (blurradius opts) else imgd in
  if String.eqb (colorMode opts) "grayscale" then (toGrayscale imgd1, opts)
  else if String.eqb (colorMode opts) "monochrome" then
    (toMonochrome imgd1 (threshold opts), with_numberofcolors opts 2)
  else (imgd1, opts).

(** [trace(imgd, options)]: the document ([None] when an exception is
    thrown: [simplifyPath] overflows the stack or [toFixed] throws), next
    to the caller's [imgd] as left by the call. *)
Definition trace (imgd : imagedata) (opts : options) : option svg_doc * imagedata :=
  let '(imgd1, opts1) := preprocess imgd opts in
  let palette := quantize imgd1 opts1 in
  let indexed := createIndexedImage imgd1 palette in
  let layers := layerSeparation indexed palette in
  (generateSvg layers (width imgd1) (height imgd1) opts1, imgd1).

(** Every component of a colour in [lo .. hi]. *)
Definition color_in (lo hi : Z) (c : color) : Prop :=
  lo <= r c <= hi /\ lo <= g c <= hi /\ lo <= b c <= hi /\ lo <= a c <= hi.

(** [l] is [l'] with some elements left out, the others in order. *)
Inductive subseq {A} : list A -> list A -> Prop :=
| subseq_nil : subseq [] []
| subseq_skip (x : A) (l l' : list A) : subseq l l' -> subseq l (x :: l')
| subseq_take (x : A) (l l' : list A) : subseq l l' -> subseq (x :: l) (x :: l').

(** A gray colour: equal red, green and blue components. *)
Definition is_gray (c : color) : Prop := r c = g c /\ g c = b c.

(** Options of the 2×2 runs in the [grayscale] colour mode, with
    [pathomit = 0]. *)
Definition opts_gray : options := {|
  numberofcolors := 2; pathomit := 0; ltres := 1; scale := 1;
  roundcoords := 0; viewbox := false; desc := false; blurradius := 0;
  colorMode := "grayscale"%string; threshold := 128 |}.

(** ** The sibling implementation: [ImageTracer] of src/examples/usage.js *)

(** A palette entry [{ r, g, b, count }] of [quantizeColors]. *)
Record qentry := mkQEntry { qr : Z; qg : Z; qb : Z; qcount : Z }.

(** The [while (buckets.length < numColors)] loop of [quantizeColors].
    Its scan and its split are the engine's ([scan_boxes], [split_box]):
    same channel order, same strict comparison, same stable sort and
    [splice]; unlike [medianCut_loop] the guard does not compare with the
    number of pixels.  [fuel] bounds the number of iterations. *)
Fixpoint quantizeColors_loop (fuel : nat) (numColors : Z)
  (buckets : list (list color)) : list (list color) :=
  match fuel with
  | O => buckets
  | S fuel' =>
      if Z.of_nat (length buckets) <? numColors then
        let '(maxRange, maxBucketIdx, maxChannel) :=
          scan_boxes 0 buckets (0, 0, Ch_r) in
        if maxRange =? 0 then buckets
        else quantizeColors_loop fuel' numColors
               (split_box buckets maxBucketIdx maxChannel)
      else buckets
  end.

(** The average of a bucket: [{ r: 0, g: 0, b: 0, count: 0 }] for an
    empty one, otherwise the rounded channel averages and the size. *)
Definition qc_average (bucket : list color) : qentry :=
  match bucket with
  | [] => mkQEntry 0 0 0 0
  | _ =>
      let n := inject_Z (Z.of_nat (length bucket)) in
      mkQEntry (js_round (inject_Z (sum_chan r bucket) / n))
               (js_round (inject_Z (sum_chan g bucket) / n))
               (js_round (inject_Z (sum_chan b bucket) / n))
               (Z.of_nat (length bucket))
  end.

Definition quantizeColors (pixels : list color) (numColors : Z) : list qentry :=
  if (Nat.eqb (length pixels) 0) || (numColors <? 1) then [mkQEntry 128 128 128 0]
  else filter (fun c => 0 <? qcount c)
         (map qc_average
            (quantizeColors_loop (Z.to_nat numColors) numColors [pixels])).

(** [getPalette(data, width, height, numColors)]. *)
Definition getPalette (d : list Z) (width0 height0 numColors : Z) : list qentry :=
  quantizeColors (usage_getPalette_pixels d) numColors.

(** Storing a number in an [Int16Array]. *)
Definition to_int16 (v : Z) : Z := (v + 32768) mod 65536 - 32768.

(** A palette entry as the engine's colour record, for the distance loop
    (which reads only [r], [g] and [b]). *)
Definition qentry_color (e : qentry) : color := mkColor (qr e) (qg e) (qb e) 0.

(** [mapToPalette(data, palette)]: [new Int16Array(data.length / 4)] (the
    length truncated), then [i = 0, 4, 8, ...] while [i < data.length];
    the write to [indexed[i / 4]] of a trailing partial group falls
    outside the array.  The inner loop over the palette is [closest]
    ([(r - c.r) ** 2] is [dr * dr]). *)
Definition mapToPalette (d : list Z) (palette : list qentry) : list Z :=
  let pal := map qentry_color palette in
  fold_left
    (fun indexed i =>
       let rv := nthZ d i in
       let gv := nthZ d (i + 1) in
       let bv := nthZ d (i + 2) in
       let av := nthZ d (i + 3) in
       if match av with Some a0 => a0 <? 128 | None => false end
       then list_set indexed (i / 4) (to_int16 (-1))
       else list_set indexed (i / 4)
              (to_int16 (snd (closest 0 pal rv gv bv (None, 0)))))
    (map (fun k => 4 * k) (seqZ 0 ((Z.of_nat (length d) + 3) / 4)))
    (repeat 0 (Z.to_nat (Z.of_nat (length d) / 4))).

(** A rectangle [{ x, y, w, h }]. *)
Record rect := mkRect { rx : Z; ry : Z; rw : Z; rh : Z }.

(** [x < width && indexed[y * width + x] === colorIdx]. *)
Definition is_color (indexed : list Z) (width0 y colorIdx x : Z) : bool :=
  let idx := y * width0 + x in
  (x <? width0) && match nthZ indexed idx with
                   | Some v => v =? colorIdx
                   | None => false
                   end.

(** The body of the inner loop of [createColorRects] at [x]: the state is
    [(rects, runStart)]. *)
Definition run_step (indexed : list Z) (width0 y colorIdx : Z)
  (st : list rect * Z) (x : Z) : list rect * Z :=
  let '(rects, runStart) := st in
  let isColor := is_color indexed width0 y colorIdx x in
  if isColor && (runStart =? -1) then (rects, x)
  else if negb isColor && negb (runStart =? -1) then
    (rects ++ [mkRect runStart y (x - runStart) 1], -1)
  else (rects, runStart).

(** The row scan: [x = 0 .. width] for each [y = 0 .. height - 1]. *)
Definition color_runs (indexed : list Z) (width0 height0 colorIdx : Z) : list rect :=
  fold_left
    (fun rects y =>
       fst (fold_left (run_step indexed width0 y colorIdx) (seqZ 0 (width0 + 1))
              (rects, -1)))
    (seqZ 0 height0) [].

(** [rects.sort((a, b) => a.y - b.y || a.x - b.x)]: the stable sort on
    [(y, x)], written as an insertion sort. *)
Definition rect_cmp (p q : rect) : Z :=
  if negb (ry p - ry q =? 0) then ry p - ry q else rx p - rx q.

Fixpoint insert_rect (p : rect) (l : list rect) : list rect :=
  match l with
  | [] => [p]
  | q :: qs => if rect_cmp p q <=? 0 then p :: l else q :: insert_rect p qs
  end.

Fixpoint sort_rects (l : list rect) : list rect :=
  match l with
  | [] => []
  | p :: ps => insert_rect p (sort_rects ps)
  end.

(** The merge loop: [(merged, current)]. *)
Definition merge_step (st : list rect * rect) (p : rect) : list rect * rect :=
  let '(merged, cur) := st in
  if (rx p =? rx cur) && (rw p =? rw cur) && (ry p =? ry cur + rh cur)
  then (merged, mkRect (rx cur) (ry cur) (rw cur) (rh cur + rh p))
  else (merged ++ [cur], p).

Definition mergeRects (rects : list rect) : list rect :=
  match rects with
  | [] => rects
  | _ =>
      match sort_rects rects with
      | [] => []
      | p :: ps => let '(merged, cur) := fold_left merge_step ps ([], p) in
                   merged ++ [cur]
      end
  end.

Definition createColorRects (indexed : list Z) (width0 height0 colorIdx : Z)
  : list rect :=
  mergeRects (color_runs indexed width0 height0 colorIdx).

(** Cell [(x, y)] lies in the rectangle. *)
Definition covers (p : rect) (x y : Z) : Prop :=
  rx p <= x < rx p + rw p /\ ry p <= y < ry p + rh p.

(** Cell [(x, y)] lies in one of the rectangles. *)
Definition covered (l : list rect) (x y : Z) : Prop :=
  exists p, In p l /\ covers p x y.

(** Storing a value read from an array in a [Uint8ClampedArray]:
    [undefined] gives [NaN], stored as [0]. *)
Definition u8_store (v : option Z) : Z :=
  match v with None => 0 | Some z => clamp_byte z end.

(** [toGrayscale(data)] of the sibling: a new [Uint8ClampedArray] of the
    same length, written four bytes at a time for [i = 0, 4, ...] while
    [i < data.length]; the alpha byte is copied; writes past the end are
    ignored. *)
Definition usage_toGrayscale (d : list Z) : list Z :=
  fold_left
    (fun result i =>
       let gray := match nthZ d i, nthZ d (i + 1), nthZ d (i + 2) with
                   | Some r0, Some g0, Some b0 => Some (js_round (luma r0 g0 b0))
                   | _, _, _ => None
                   end in
       let result := list_set result i (u8_store gray) in
       let result := list_set result (i + 1) (u8_store gray) in
       let result := list_set result (i + 2) (u8_store gray) in
       list_set result (i + 3) (u8_store (nthZ d (i + 3))))
    (map (fun k => 4 * k) (seqZ 0 ((Z.of_nat (length d) + 3) / 4)))
    (repeat 0 (length d)).

(** [toMonochrome(data, threshold)] of the sibling: [gray > threshold ?
    255 : 0] ([NaN > threshold] is false). *)
Definition usage_toMonochrome (d : list Z) (threshold0 : Q) : list Z :=
  fold_left
    (fun result i =>
       let val := match nthZ d i, nthZ d (i + 1), nthZ d (i + 2) with
                  | Some r0, Some g0, Some b0 =>
                      if Qltb threshold0 (luma r0 g0 b0) then 255 else 0
                  | _, _, _ => 0
                  end in
       let result := list_set result i val in
       let result := list_set result (i + 1) val in
       let result := list_set result (i + 2) val in
       list_set result (i + 3) (u8_store (nthZ d (i + 3))))
    (map (fun k => 4 * k) (seqZ 0 ((Z.of_nat (length d) + 3) / 4)))
    (repeat 0 (length d)).

(** The merged options [{ ...this.options, ...options }] as read by the
    sibling's [trace]. *)
Record usage_options := mkUsageOptions {
  colorCount : Z; uthreshold : Q; traceMode : string }.

(** [processedData]: a clamped copy of [data], or the result of the colour
    mode. *)
Definition usage_processed (d : list Z) (o : usage_options) : list Z :=
  if String.eqb (traceMode o) "grayscale" then usage_toGrayscale d
  else if String.eqb (traceMode o) "monochrome" then usage_toMonochrome d (uthreshold o)
  else map clamp_byte d.

(** [numColors]. *)
Definition usage_numColors (o : usage_options) : Z :=
  if String.eqb (traceMode o) "monochrome" then 2 else colorCount o.

(** A [<g fill="rgb(r,g,b)">] group: one [<path>] whose data draws every
    rectangle ([M x y h w v h h -w z]) when there are more than [100] of
    them, otherwise one [<rect>] per rectangle. *)
Inductive group_body := GroupPath (l : list rect) | GroupRects (l : list rect).

Record svg_group := mkGroup { grp_fill : Z * Z * Z; grp_body : group_body }.

Definition group_rects (grp : svg_group) : list rect :=
  match grp_body grp with GroupPath l => l | GroupRects l => l end.

(** The markup of the sibling's [trace], kept as a structured value: the
    [width] and [height] of the [<svg>] element and its groups. *)
Record usage_svg := mkUsageSvg {
  us_width : Z; us_height : Z; us_groups : list svg_group }.

(** The body of the loop over the palette for index [i]. *)
Definition usage_group (palette : list qentry) (indexed : list Z) (w h i : Z)
  : list svg_group :=
  let color := nth (Z.to_nat i) palette (mkQEntry 0 0 0 0) in
  let rects := createColorRects indexed w h i in
  if 0 <? Z.of_nat (length rects) then
    [mkGroup (qr color, qg color, qb color)
       (if 100 <? Z.of_nat (length rects) then GroupPath rects else GroupRects rects)]
  else [].

(** [trace(data, width, height, options)] of the sibling. *)
Definition usage_trace (d : list Z) (w h : Z) (o : usage_options) : usage_svg :=
  let processedData := usage_processed d o in
  let palette := getPalette processedData w h (usage_numColors o) in
  let indexed := mapToPalette processedData palette in
  mkUsageSvg w h
    (flat_map (usage_group palette indexed w h) (seqZ 0 (Z.of_nat (length palette)))).

(** [getSqSegDist(p, p1, p2)] of the sibling's [simplifyPath]: the squared
    distance from [p] to the segment [p1 p2] (exact arithmetic). *)
Definition getSqSegDist (p p1 p2 : point) : Q :=
  let dx := fst p2 - fst p1 in
  let dy := snd p2 - snd p1 in
  let '(x, y) :=
    if negb (dx =? 0) || negb (dy =? 0) then
      let t := (inject_Z ((fst p - fst p1) * dx + (snd p - snd p1) * dy)
                / inject_Z (dx * dx + dy * dy))%Q in
      if Qltb 1 t then (inject_Z (fst p2), inject_Z (snd p2))
      else if Qltb 0 t then (inject_Z (fst p1) + inject_Z dx * t,
                             inject_Z (snd p1) + inject_Z dy * t)%Q
      else (inject_Z (fst p1), inject_Z (snd p1))
    else (inject_Z (fst p1), inject_Z (snd p1)) in
  ((inject_Z (fst p) - x) * (inject_Z (fst p) - x)
   + (inject_Z (snd p) - y) * (inject_Z (snd p) - y))%Q.

(** The scan of [simplifyDPStep] over [i = first + 1 .. last - 1]:
    [(maxSqDist, index)], from [(sqTolerance, 0)]. *)
Definition dp_scan (points : list point) (first last : Z) (sqTolerance : Q) : Q * Z :=
  fold_left
    (fun st i =>
       let sqDist := getSqSegDist (nth (Z.to_nat i) points (0, 0))
                       (nth (Z.to_nat first) points (0, 0))
                       (nth (Z.to_nat last) points (0, 0)) in
       if Qltb (fst st) sqDist then (sqDist, i) else st)
    (seqZ (first + 1) (last - first - 1)) (sqTolerance, 0).

(** [simplifyDPStep(points, first, last, sqTolerance, simplified)]: the
    shared array [simplified] is threaded through the calls, which only
    push to it.  [fuel] bounds the nesting of the calls ([None] when it
    runs out). *)
Fixpoint simplifyDPStep (fuel : nat) (points : list point) (first last : Z)
  (sqTolerance : Q) (simplified : list point) : option (list point) :=
  match fuel with
  | O => None
  | S fuel' =>
      let '(maxSqDist, index) := dp_scan points first last sqTolerance in
      if Qltb sqTolerance maxSqDist then
        match (if 1 <? index - first
               then simplifyDPStep fuel' points first index sqTolerance simplified
               else Some simplified) with
        | None => None
        | Some s1 =>
            let s2 := s1 ++ [nth (Z.to_nat index) points (0, 0)] in
            if 1 <? last - index
            then simplifyDPStep fuel' points index last sqTolerance s2
            else Some s2
        end
      else Some simplified
  end.

(** [simplifyPath(path, tolerance)] of the sibling, with [path.length]
    as the bound on the nesting. *)
Definition usage_simplifyPath (path : list point) (tolerance : Q) : option (list point) :=
  if (length path <=? 2)%nat then Some path
  else
    let sqTolerance := (tolerance * tolerance)%Q in
    let last := Z.of_nat (length path) - 1 in
    match simplifyDPStep (length path) path 0 last sqTolerance [nth 0 path (0, 0)] with
    | None => None
    | Some simplified => Some (simplified ++ [nth (Z.to_nat last) path (0, 0)])
    end.

(** ** Concrete inputs *)

Definition red : color := mkColor 255 0 0 255.
Definition blue : color := mkColor 0 0 255 255.

(** The 2×2 buffer: left column opaque red, right column opaque blue. *)
Definition img_2x2 : imagedata :=
  mkImageData 2 2 [255;0;0;255; 0;0;255;255; 255;0;0;255; 0;0;255;255].

(** [colorCount = 2], [scale = 1], precision [0], other options at their
    defaults. *)
Definition opts_2x2 : options := {|
  numberofcolors := 2; pathomit := 8; ltres := 1; scale := 1;
  roundcoords := 0; viewbox := false; desc := false; blurradius := 0;
  colorMode := "color"%string; threshold := 128 |}.

Definition with_pathomit (opts : options) (n : Z) : options :=
  mkOptions (numberofcolors opts) n (ltres opts) (scale opts) (roundcoords opts)
    (viewbox opts) (desc opts) (blurradius opts) (colorMode opts) (threshold opts).

Definition with_blurradius (opts : options) (n : Z) : options :=
  mkOptions (numberofcolors opts) (pathomit opts) (ltres opts) (scale opts)
    (roundcoords opts) (viewbox opts) (desc opts) n (colorMode opts) (threshold opts).

Definition count_paths (doc : svg_doc) : nat :=
  length (filter (fun it => match it with SvgPath _ _ => true | SvgDesc => false end)
                 (doc_items doc)).

(** The pipeline stages of [trace] on a buffer, without preprocessing. *)
Definition palette_of (imgd : imagedata) (opts : options) : list color :=
  quantize imgd opts.

Definition layers_of (imgd : imagedata) (opts : options) : list layer :=
  let pal := quantize imgd opts in
  layerSeparation (createIndexedImage imgd pal) pal.

(** A 1×1 image whose buffer holds two pixels (8 bytes instead of 4). *)
Definition img_mismatch : imagedata :=
  mkImageData 1 1 [255;0;0;255; 0;0;255;255].

(** A fully transparent 1×1 image, and an opaque red one. *)
Definition img_transparent : imagedata := mkImageData 1 1 [0;0;0;0].
Definition img_red : imagedata := mkImageData 1 1 [255;0;0;255].

(** An opaque red pixel next to a blue pixel of alpha 50. *)
Definition img_semi : imagedata := mkImageData 2 1 [255;0;0;255; 0;0;255;50].

(** Three red pixels and one blue pixel in a row. *)
Definition img_rrrb : imagedata :=
  mkImageData 4 1 [255;0;0;255; 255;0;0;255; 255;0;0;255; 0;0;255;255].





(** Three opaque red pixels in a row, and options with a negative
    tolerance [ltres = -1] and [pathomit = 0]. *)
Definition img_row3 : imagedata :=
  mkImageData 3 1 [255;0;0;255; 255;0;0;255; 255;0;0;255].

Definition opts_neg_ltres : options := {|
  numberofcolors := 16; pathomit := 0; ltres := -1; scale := 1;
  roundcoords := 1; viewbox := false; desc := false; blurradius := 0;
  colorMode := "color"%string; threshold := 128 |}.

(** A black and a white opaque pixel in a row. *)
Definition img_bw : imagedata := mkImageData 2 1 [0;0;0;255; 255;255;255;255].

(** A 3×1 mask [1 0 1]: pixel [(0, 0)] is isolated. *)
Definition layer_101 : layer := mkLayer [1; 0; 1] 3 1 red.

(** ** Tracer predicates *)

(** Two 4-neighbours. *)
Definition adjacent (p q : point) : Prop :=
  (fst q = fst p + 1 /\ snd q = snd p) \/ (fst q = fst p - 1 /\ snd q = snd p)
  \/ (fst q = fst p /\ snd q = snd p + 1) \/ (fst q = fst p /\ snd q = snd p - 1).

(** A pixel of the mask none of whose four neighbours is set. *)
Definition isolated (L : layer) (x y : Z) : Prop :=
  is_set L (x - 1) y = false /\ is_set L (x + 1) y = false
  /\ is_set L x (y - 1) = false /\ is_set L x (y + 1) = false.

(** A walk of set pixels, each step to a 4-neighbour. *)
Inductive chain (L : layer) : list point -> Prop :=
| chain_nil : chain L []
| chain_one (p : point) : is_set L (fst p) (snd p) = true -> chain L [p]
| chain_cons (p q : point) (rest : list point) :
    is_set L (fst p) (snd p) = true -> adjacent p q -> chain L (q :: rest) ->
    chain L (p :: q :: rest).

(** The [maxRange] and [maxBox] components of the scan state. *)
Definition mr_of (st : Z * Z * channel) : Z := fst (fst st).
Definition mb_of (st : Z * Z * channel) : Z := snd (fst st).

(** ** Examples *)

Example quantize_test :
  quantize (mkImageData 2 2 [255;0;0;255; 0;0;255;255; 255;0;0;255; 0;0;255;255])
    {| numberofcolors := 2; pathomit := 8; ltres := 1; scale := 1;
       roundcoords := 0; viewbox := false; desc := false; blurradius := 0;
       colorMode := "color"%string; threshold := 128 |}
  = [mkColor 0 0 255 255; mkColor 255 0 0 255].
Proof. vm_compute. reflexivity. Qed.

Example tracePaths_test :
  let img := mkImageData 2 2 [255;0;0;255; 0;0;255;255; 255;0;0;255; 0;0;255;255] in
  let opts := {| numberofcolors := 2; pathomit := 1; ltres := 1; scale := 1;
       roundcoords := 0; viewbox := false; desc := false; blurradius := 0;
       colorMode := "color"%string; threshold := 128 |} in
  let pal := quantize img opts in
  map (fun L => tracePaths L opts) (layerSeparation (createIndexedImage img pal) pal)
  = [[[(1,0);(1,1)]]; [[(0,0);(0,1)]]].
Proof. vm_compute. reflexivity. Qed.

Example trace_test :
  fst (trace (mkImageData 2 2 [255;0;0;255; 0;0;255;255; 255;0;0;255; 0;0;255;255])
    {| numberofcolors := 2; pathomit := 1; ltres := 1; scale := 1;
       roundcoords := 0; viewbox := false; desc := false; blurradius := 0;
       colorMode := "color"%string; threshold := 128 |})
  = Some (mkDoc 2 2 None [SvgPath (mkColor 0 0 255 255) [(1,0);(1,1)]%Q;
                          SvgPath (mkColor 255 0 0 255) [(0,0);(0,1)]%Q]).
Proof. vm_compute. reflexivity. Qed.

(** ** Concrete runs *)

(** C2 (amended): on the 2×2 red|blue buffer the palette is
    [[blue; red]] (the sort by [r] puts blue first, entries carry no
    counts); there are two layers, blue on the right column and red on the
    left; each layer's boundary walk gives a single 2-point path along the
    column of pixel positions, which [pathomit = 8] discards, so the
    document has no path element. *)
Theorem trace_2x2_red_blue :
  palette_of img_2x2 opts_2x2 = [blue; red]
  /\ map (fun L => (l_array L, l_color L)) (layers_of img_2x2 opts_2x2)
     = [([0;1;0;1], blue); ([1;0;1;0], red)]
  /\ map (fun L => tracePaths L (with_pathomit opts_2x2 1)) (layers_of img_2x2 opts_2x2)
     = [[[(1,0);(1,1)]]; [[(0,0);(0,1)]]]
  /\ map (fun L => tracePaths L opts_2x2) (layers_of img_2x2 opts_2x2) = [[]; []]
  /\ trace img_2x2 opts_2x2 = (Some (mkDoc 2 2 None []), img_2x2).
Proof. vm_compute. repeat split. Qed.

(** C2 (counterexample): the palette is not [[red; blue]] and the
    document has no filled region, not two. *)
Lemma trace_2x2_not_two_regions :
  palette_of img_2x2 opts_2x2 <> [red; blue]
  /\ ~ (exists doc, fst (trace img_2x2 opts_2x2) = Some doc /\ count_paths doc = 2%nat).
Proof.
  split.
  - vm_compute. discriminate.
  - intros [doc [Hd Hc]]. vm_compute in Hd. injection Hd as <-.
    vm_compute in Hc. discriminate.
Qed.

(** C1 (counterexample): a 1×1 image with an 8-byte buffer is traced
    without any error: [trace] returns a document. *)
Lemma trace_mismatch_returns_document :
  (Z.of_nat (length (data img_mismatch)) <> width img_mismatch * height img_mismatch * 4)
  /\ trace img_mismatch defaultOptions = (Some (mkDoc 1 1 None []), img_mismatch).
Proof. split; [discriminate | vm_compute; reflexivity]. Qed.

(** C4 (counterexample): a fully transparent input gives the transparent
    black entry, not neutral gray; with [numberofcolors = 0] an opaque red
    input gives the gray entry, while [numberofcolors = 1] gives red. *)
Lemma quantize_fallbacks_differ :
  quantize img_transparent defaultOptions = [mkColor 0 0 0 0]
  /\ quantize img_transparent defaultOptions <> [gray_entry]
  /\ quantize img_red (with_numberofcolors defaultOptions 0) = [gray_entry]
  /\ quantize img_red (with_numberofcolors defaultOptions 1) = [red]
  /\ quantize img_red (with_numberofcolors defaultOptions 0)
     <> quantize img_red (with_numberofcolors defaultOptions 1).
Proof. vm_compute. repeat split; discriminate. Qed.

(** C5: the pixel of alpha 50 is clustered by [quantize] (it pulls the
    single palette entry to purple with alpha 153) while the indexer marks
    it transparent; the sibling [getPalette] of src/examples/usage.js
    leaves it out. *)
Theorem quantize_clusters_semitransparent :
  collect_pixels (data img_semi) = [red; mkColor 0 0 255 50]
  /\ quantize img_semi (with_numberofcolors defaultOptions 1) = [mkColor 128 0 128 153]
  /\ ix_array (createIndexedImage img_semi
                 (quantize img_semi (with_numberofcolors defaultOptions 1))) = [0; -1]
  /\ usage_getPalette_pixels (data img_semi) = [red].
Proof. vm_compute. repeat split. Qed.


(** ** Simplifier lemmas *)

Lemma in_seqZ (a n k : Z) : In k (seqZ a n) <-> a <= k < a + n.
Proof.
  unfold seqZ. rewrite in_map_iff. split.
  - intros [m [<- Hm]]. apply in_seq in Hm. lia.
  - intros H. exists (Z.to_nat (k - a)). split; [lia|]. apply in_seq. lia.
Qed.

Lemma Qltb_true (x y : Q) : Qltb x y = true <-> (x < y)%Q.
Proof.
  unfold Qltb. rewrite negb_true_iff. split.
  - intros H. apply Qnot_le_lt. intros H'. apply Qle_bool_iff in H'. congruence.
  - intros H. destruct (Qle_bool y x) eqn:E; [|reflexivity].
    apply Qle_bool_iff in E. exfalso. apply (Qlt_not_le _ _ H E).
Qed.

Lemma farthest_fold (f : Z -> Q) (l : list Z) (st : Q * Z) :
  let st' := fold_left (fun st i => let dsq := f i in
                          if Qltb (fst st) dsq then (dsq, i) else st) l st in
  st' = st \/ (In (snd st') l /\ (fst st < fst st')%Q).
Proof.
  revert st. induction l as [|i l IH]; intros st; simpl; [now left|].
  destruct (Qltb (fst st) (f i)) eqn:E.
  - apply Qltb_true in E.
    destruct (IH (f i, i)) as [H|[Hin Hlt]]; simpl in *; rewrite ?H; simpl.
    + right. split; [now left | exact E].
    + right. split; [now right | eapply Qlt_trans; eauto].
  - destruct (IH st) as [H|[Hin Hlt]]; [now left | right; split; [now right|exact Hlt]].
Qed.

(** [maxIdx] is [0] with [maxDist = 0] when no point is farther than [0],
    otherwise an interior index with a positive distance. *)
Lemma farthest_spec (points : list point) (s e : point) :
  farthest points s e = (0%Q, 0)
  \/ (1 <= snd (farthest points s e) <= Z.of_nat (length points) - 2
      /\ (0 < fst (farthest points s e))%Q).
Proof.
  unfold farthest.
  match goal with |- context [fold_left ?F ?L ?S] =>
    change (fold_left F L S) with
      (fold_left (fun st i => let dsq := (fun i => perpendicularDistanceSq
          (nth (Z.to_nat i) points (0, 0)) s e) i in
          if Qltb (fst st) dsq then (dsq, i) else st) L S) end.
  destruct (farthest_fold (fun i => perpendicularDistanceSq
      (nth (Z.to_nat i) points (0, 0)) s e)
      (seqZ 1 (Z.of_nat (length points) - 2)) (0%Q, 0)) as [H|[Hin Hlt]].
  - left. exact H.
  - right. apply in_seqZ in Hin. split; [lia | exact Hlt].
Qed.

Lemma simplifyPath_short (fuel : nat) (pts : list point) (tol : Q) :
  (length pts <= 2)%nat -> simplifyPath fuel pts tol = Some pts.
Proof.
  intros H. destruct fuel; simpl; apply Nat.leb_le in H; rewrite H; reflexivity.
Qed.

(** One unfolding of [simplifyPath] on a path of three points or more. *)
Lemma simplifyPath_long (fuel : nat) (pts : list point) (tol : Q) :
  (2 < length pts)%nat ->
  simplifyPath (S fuel) pts tol =
    let start := nth 0 pts (0, 0) in
    let end_ := nth (length pts - 1) pts (0, 0) in
    let '(maxDist, maxIdx) := farthest pts start end_ in
    if dist_exceeds maxDist tol then
      match simplifyPath fuel (firstn (Z.to_nat maxIdx + 1) pts) tol with
      | None => None
      | Some left0 =>
          match simplifyPath fuel (skipn (Z.to_nat maxIdx) pts) tol with
          | None => None
          | Some right0 => Some (removelast left0 ++ right0)
          end
      end
    else Some [start; end_].
Proof.
  intros H. simpl. destruct (Nat.leb_spec (length pts) 2); [lia|]. reflexivity.
Qed.

Lemma hd_error_firstn {A} (m : nat) (l : list A) :
  hd_error (firstn (S m) l) = hd_error l.
Proof. destruct l; reflexivity. Qed.

Lemma hd_error_skipn {A} (m : nat) (l : list A) :
  hd_error (skipn m l) = nth_error l m.
Proof. revert l; induction m; intros [|x l]; simpl; auto. Qed.

Lemma hd_error_app_l {A} (l1 l2 : list A) :
  l1 <> [] -> hd_error (l1 ++ l2) = hd_error l1.
Proof. destruct l1; [congruence | reflexivity]. Qed.

Lemma hd_error_rev_firstn {A} (m : nat) (l : list A) :
  (m < length l)%nat -> hd_error (rev (firstn (S m) l)) = nth_error l m.
Proof.
  revert l. induction m as [|m IH]; intros [|x l] H; simpl in *; try lia; auto.
  rewrite hd_error_app_l.
  - apply IH. lia.
  - destruct l; simpl in *; [lia|]. intros E.
    apply (f_equal (@length A)) in E. rewrite length_app in E. simpl in E. lia.
Qed.

Lemma hd_error_rev_skipn {A} (m : nat) (l : list A) :
  (m < length l)%nat -> hd_error (rev (skipn m l)) = hd_error (rev l).
Proof.
  intros H. rewrite <- (firstn_skipn m l) at 2. rewrite rev_app_distr.
  destruct (rev (skipn m l)) eqn:E; [|reflexivity].
  apply (f_equal (@length A)) in E. rewrite length_rev, length_skipn in E. simpl in E. lia.
Qed.

Lemma hd_error_nth0 {A} (l : list A) (d : A) :
  l <> [] -> hd_error l = Some (nth 0 l d).
Proof. destruct l; [congruence | reflexivity]. Qed.

Lemma hd_error_rev_last {A} (l : list A) (d : A) :
  l <> [] -> hd_error (rev l) = Some (nth (length l - 1) l d).
Proof.
  intros H. destruct (exists_last H) as [l' [z ->]].
  rewrite rev_app_distr, length_app. simpl.
  rewrite app_nth2 by lia. replace (length l' + 1 - 1 - length l')%nat with 0%nat by lia.
  reflexivity.
Qed.

Lemma nonempty_of_length {A} (l : list A) : (0 < length l)%nat -> l <> [].
Proof. destruct l; simpl; [lia | discriminate]. Qed.

(** The recombination [left.slice(0, -1).concat(right)] of two results
    that keep the endpoints of [firstn (k+1) pts] and [skipn k pts]. *)
Lemma recombine_shape (pts left0 right0 : list point) (kn : nat) :
  (kn + 2 <= length pts)%nat ->
  (length left0 <= kn + 1)%nat ->
  hd_error left0 = hd_error pts ->
  hd_error (rev left0) = nth_error pts kn ->
  (length right0 <= length pts - kn)%nat ->
  hd_error right0 = nth_error pts kn ->
  hd_error (rev right0) = hd_error (rev pts) ->
  (length (removelast left0 ++ right0) <= length pts)%nat
  /\ hd_error (removelast left0 ++ right0) = hd_error pts
  /\ hd_error (rev (removelast left0 ++ right0)) = hd_error (rev pts).
Proof.
  intros Hkn HL1 HL2 HL3 HR1 HR2 HR3.
  assert (Hl : left0 <> []).
  { intros ->. destruct pts; simpl in *; [lia | discriminate]. }
  assert (Hr : right0 <> []).
  { intros ->. simpl in HR2. symmetry in HR2. apply nth_error_None in HR2. lia. }
  destruct (exists_last Hl) as [l' [z ->]]. rewrite removelast_last.
  rewrite length_app in HL1. simpl in HL1.
  split; [|split].
  - rewrite length_app. lia.
  - destruct l' as [|x l'].
    + simpl in HL2, HL3 |- *. rewrite HR2, <- HL3, HL2. reflexivity.
    + simpl in HL2 |- *. exact HL2.
  - rewrite rev_app_distr. rewrite hd_error_app_l; [exact HR3|].
    intros E. apply Hr. rewrite <- (rev_involutive right0), E. reflexivity.
Qed.

(** Whatever the tolerance, a path returned by [simplifyPath] is no longer
    than its input and keeps its first and last points; a path of at most
    two points comes back unchanged. *)
Lemma simplifyPath_shape (fuel : nat) (pts : list point) (tol : Q) (res : list point) :
  simplifyPath fuel pts tol = Some res ->
  (length res <= length pts)%nat
  /\ hd_error res = hd_error pts
  /\ hd_error (rev res) = hd_error (rev pts)
  /\ ((length pts <= 2)%nat -> res = pts).
Proof.
  revert pts res. induction fuel as [|fuel IH]; intros pts res Hs.
  - destruct (Nat.le_gt_cases (length pts) 2) as [Hle|Hgt].
    + rewrite simplifyPath_short in Hs by exact Hle. injection Hs as <-. auto.
    + simpl in Hs. destruct (Nat.leb_spec (length pts) 2); [lia|discriminate].
  - destruct (Nat.le_gt_cases (length pts) 2) as [Hle|Hgt].
    { rewrite simplifyPath_short in Hs by exact Hle. injection Hs as <-. auto. }
    assert (Hne : pts <> []) by (apply nonempty_of_length; lia).
    rewrite simplifyPath_long in Hs by exact Hgt. cbv zeta in Hs.
    assert (Hk : 0 <= snd (farthest pts (nth 0 pts (0, 0)) (nth (length pts - 1) pts (0, 0)))
                 <= Z.of_nat (length pts) - 2).
    { destruct (farthest_spec pts (nth 0 pts (0, 0)) (nth (length pts - 1) pts (0, 0)))
        as [E|[E _]]; [rewrite E; simpl; lia | lia]. }
    destruct (farthest pts _ _) as [maxDist maxIdx]. simpl in Hk.
    cut ((length res <= length pts)%nat /\ hd_error res = hd_error pts
         /\ hd_error (rev res) = hd_error (rev pts)).
    { intros [H1 [H2 H3]]. repeat split; auto. intros; lia. }
    destruct (dist_exceeds maxDist tol).
    + set (kn := Z.to_nat maxIdx) in *.
      assert (Hkn : (kn + 2 <= length pts)%nat) by lia.
      destruct (simplifyPath fuel (firstn (kn + 1) pts) tol) as [left0|] eqn:HL;
        [|discriminate].
      destruct (simplifyPath fuel (skipn kn pts) tol) as [right0|] eqn:HR;
        [|discriminate].
      injection Hs as <-.
      apply IH in HL. apply IH in HR.
      destruct HL as [HL1 [HL2 [HL3 _]]]. destruct HR as [HR1 [HR2 [HR3 _]]].
      rewrite Nat.add_1_r in HL1, HL2, HL3.
      rewrite hd_error_firstn in HL2. rewrite hd_error_rev_firstn in HL3 by lia.
      rewrite hd_error_skipn in HR2. rewrite hd_error_rev_skipn in HR3 by lia.
      rewrite length_firstn in HL1. rewrite length_skipn in HR1.
      apply (recombine_shape pts left0 right0 kn); auto; lia.
    + injection Hs as <-. simpl. split; [lia|split].
      * symmetry. apply hd_error_nth0. exact Hne.
      * symmetry. apply hd_error_rev_last. exact Hne.
Qed.

Lemma Qltb_false (x y : Q) : (y <= x)%Q -> Qltb x y = false.
Proof.
  intros H. destruct (Qltb x y) eqn:E; [|reflexivity].
  apply Qltb_true in E. exfalso. apply (Qlt_not_le _ _ E H).
Qed.

Lemma dist_exceeds_zero (tol : Q) : (0 <= tol)%Q -> dist_exceeds 0 tol = false.
Proof.
  intros H. unfold dist_exceeds. rewrite !Qltb_false; [reflexivity| |exact H].
  apply Qmult_le_0_compat; exact H.
Qed.

(** With a non-negative tolerance, [simplifyPath] returns within as many
    nested calls as the path has points. *)
Lemma simplifyPath_terminates (n : nat) (pts : list point) (tol : Q) :
  (0 <= tol)%Q -> (length pts <= n)%nat ->
  exists res, simplifyPath n pts tol = Some res.
Proof.
  intros Htol. revert pts. induction n as [|n IH]; intros pts Hn.
  - exists pts. apply simplifyPath_short. lia.
  - destruct (Nat.le_gt_cases (length pts) 2) as [Hle|Hgt].
    { exists pts. apply simplifyPath_short. exact Hle. }
    rewrite simplifyPath_long by exact Hgt. cbv zeta.
    destruct (farthest_spec pts (nth 0 pts (0, 0)) (nth (length pts - 1) pts (0, 0)))
      as [E|[Hk _]].
    + rewrite E. rewrite dist_exceeds_zero by exact Htol. eauto.
    + destruct (farthest pts _ _) as [maxDist maxIdx]. simpl in Hk.
      destruct (dist_exceeds maxDist tol); [|eauto].
      destruct (IH (firstn (Z.to_nat maxIdx + 1) pts)) as [l0 ->].
      { rewrite length_firstn. lia. }
      destruct (IH (skipn (Z.to_nat maxIdx) pts)) as [r0 ->].
      { rewrite length_skipn. lia. }
      eauto.
Qed.

(** The path the walk gives for [img_row3], with tolerance [-1]: the two
    inner points are on the line through the end points, [maxIdx] stays
    [0], and the right-hand call is the same call again. *)
Lemma simplifyPath_row3_negative (fuel : nat) :
  simplifyPath fuel [(0,0); (1,0); (2,0); (1,0)] (-1) = None.
Proof.
  induction fuel as [|fuel IH]; [reflexivity|].
  rewrite simplifyPath_long by (simpl; lia).
  vm_compute (farthest _ _ _). vm_compute (dist_exceeds _ _). cbv iota zeta beta.
  rewrite simplifyPath_short by (simpl; lia).
  change (skipn (Z.to_nat 0) ?l) with l. rewrite IH. reflexivity.
Qed.

(** C8 (code bug): a negative tolerance reaches [simplifyPath] through
    [ltres].  On the 3×1 opaque red row, with [ltres = -1] and
    [pathomit = 0], the walk gives the path [(0,0) (1,0) (2,0) (1,0)];
    [simplifyPath] on it returns at no recursion depth, and [trace]
    throws (stack overflow) instead of returning a document. *)
Theorem trace_negative_ltres_overflows :
  map (fun L => tracePaths L opts_neg_ltres) (layers_of img_row3 opts_neg_ltres)
    = [[[(0,0); (1,0); (2,0); (1,0)]]]
  /\ (forall fuel, simplifyPath fuel [(0,0); (1,0); (2,0); (1,0)] (ltres opts_neg_ltres) = None)
  /\ fst (trace img_row3 opts_neg_ltres) = None.
Proof.
  split; [vm_compute; reflexivity|]. split.
  - intros fuel. exact (simplifyPath_row3_negative fuel).
  - vm_compute. reflexivity.
Qed.

(** For every path and every tolerance [>= 0], the simplifier returns
    a path with no more points than the input, the same first point and
    the same last point; a path of at most two points is returned
    unchanged. *)
Theorem simplifyPath_endpoints (tol : Q) (pts : list point) :
  (0 <= tol)%Q ->
  exists res, simplifyPath (length pts) pts tol = Some res
    /\ (length res <= length pts)%nat
    /\ hd_error res = hd_error pts
    /\ hd_error (rev res) = hd_error (rev pts)
    /\ ((length pts <= 2)%nat -> res = pts).
Proof.
  intros Htol. destruct (simplifyPath_terminates (length pts) pts tol Htol (le_n _))
    as [res Hres].
  exists res. split; [exact Hres|]. exact (simplifyPath_shape _ _ _ _ Hres).
Qed.

Lemma simplifyPath_endpoints_witness :
  (0 <= 1)%Q /\
  exists res, simplifyPath 3 [(0,0); (1,1); (2,0)] 1 = Some res
    /\ (length res <= 3)%nat
    /\ hd_error res = Some (0,0)
    /\ hd_error (rev res) = Some (2,0)
    /\ ((3 <= 2)%nat -> res = [(0,0); (1,1); (2,0)]).
Proof.
  split; [discriminate|].
  exact (simplifyPath_endpoints 1 [(0,0); (1,1); (2,0)] ltac:(discriminate)).
Defined.

(** ** Tracer lemmas *)

Lemma dir_adjacent (cx cy d : Z) :
  0 <= d < 4 -> adjacent (cx, cy) (cx + dx d, cy + dy d).
Proof.
  intros H. unfold adjacent, dx, dy; simpl.
  assert (d = 0 \/ d = 1 \/ d = 2 \/ d = 3) as [->|[->|[->| ->]]] by lia; simpl; lia.
Qed.

Lemma fold_try_dir (L : layer) (cx cy dir : Z) (l : list Z) (acc : option (Z * Z * Z))
  (res : Z * Z * Z) :
  fold_left (fun acc i => try_dir L cx cy dir i acc) l acc = Some res ->
  acc = Some res \/ exists i, try_dir L cx cy dir i None = Some res.
Proof.
  revert acc. induction l as [|i l IH]; intros acc H; simpl in H; [now left|].
  destruct acc as [res0|].
  - apply IH in H. simpl in H. destruct H as [H|H]; [now left | now right].
  - apply IH in H as [H|H]; right; eauto.
Qed.

Lemma next_step_spec (L : layer) (cx cy dir nx ny nd : Z) :
  next_step L cx cy dir = Some (nx, ny, nd) ->
  is_set L nx ny = true /\ adjacent (cx, cy) (nx, ny).
Proof.
  unfold next_step. intros H. apply fold_try_dir in H as [H|[i H]]; [discriminate|].
  unfold try_dir in H.
  destruct (is_set L _ _ && isEdge L _ _)%bool eqn:E; [|discriminate].
  injection H as <- <- <-. apply andb_prop in E as [E _].
  split; [exact E|]. apply dir_adjacent. apply Z.mod_pos_bound. lia.
Qed.

Lemma next_step_isolated (L : layer) (x y dir : Z) :
  isolated L x y -> next_step L x y dir = None.
Proof.
  intros [H1 [H2 [H3 H4]]]. destruct (next_step L x y dir) as [[[nx ny] nd]|] eqn:E;
    [|reflexivity].
  apply next_step_spec in E as [Hs Ha]. unfold adjacent in Ha; simpl in Ha.
  destruct Ha as [[-> ->]|[[-> ->]|[[-> ->]|[-> ->]]]]; congruence.
Qed.

Lemma chain_snoc (L : layer) (l : list point) (p q : point) :
  chain L (l ++ [p]) -> adjacent p q -> is_set L (fst q) (snd q) = true ->
  chain L (l ++ [p; q]).
Proof.
  induction l as [|x l IH]; intros Hc Ha Hq; simpl in *.
  - inversion Hc; subst. constructor; auto. constructor; auto.
  - destruct l as [|y l]; simpl in *.
    + inversion Hc; subst. constructor; auto.
    + inversion Hc; subst. constructor; auto.
Qed.

Lemma walk_chain (L : layer) (fuel : nat) (start : point) (ms cx cy dir steps : Z)
  (path : list point) (vis : list bool) :
  chain L (path ++ [(cx, cy)]) ->
  chain L (fst (walk L fuel start ms cx cy dir steps path vis)).
Proof.
  revert cx cy dir steps path vis.
  induction fuel as [|fuel IH]; intros cx cy dir steps path vis Hc;
    simpl; destruct (next_step L cx cy dir) as [[[nx ny] nd]|] eqn:E; simpl; auto;
    destruct (_ && _)%bool; simpl; auto.
  apply IH. apply next_step_spec in E as [Hs Ha].
  rewrite <- app_assoc. apply chain_snoc; auto.
Qed.

Lemma walk_isolated (L : layer) (fuel : nat) (ms x y dir steps : Z) (vis : list bool) :
  isolated L x y -> fst (walk L fuel (x, y) ms x y dir steps [] vis) = [(x, y)].
Proof.
  intros H. destruct fuel; simpl; rewrite next_step_isolated by exact H; reflexivity.
Qed.

Lemma chain_head_set (L : layer) (q : point) (rest : list point) :
  chain L (q :: rest) -> is_set L (fst q) (snd q) = true.
Proof. intros H. inversion H; subst; assumption. Qed.

(** No set pixel is a 4-neighbour of an isolated pixel. *)
Lemma adjacent_isolated (L : layer) (x y : Z) (q : point) :
  isolated L x y -> is_set L (fst q) (snd q) = true ->
  adjacent (x, y) q \/ adjacent q (x, y) -> False.
Proof.
  intros [H1 [H2 [H3 H4]]] Hq Ha. destruct q as [qx qy]. unfold adjacent in Ha.
  simpl in Ha, Hq.
  assert (E : (qx = x - 1 /\ qy = y) \/ (qx = x + 1 /\ qy = y)
              \/ (qx = x /\ qy = y - 1) \/ (qx = x /\ qy = y + 1)) by lia.
  destruct E as [[-> ->]|[[-> ->]|[[-> ->]|[-> ->]]]]; congruence.
Qed.

Lemma chain_isolated (L : layer) (P : list point) (x y : Z) :
  chain L P -> isolated L x y -> In (x, y) P -> P = [(x, y)].
Proof.
  intros Hc Hiso. induction Hc as [|p Hp|p q rest Hp Ha Hc IH]; intros Hin.
  - destruct Hin.
  - destruct Hin as [<-|[]]. reflexivity.
  - destruct Hin as [Hpe|Hin].
    + exfalso. subst p. apply (adjacent_isolated L x y q Hiso (chain_head_set L q rest Hc)).
      left. exact Ha.
    + specialize (IH Hin). injection IH as -> ->. exfalso.
      apply (adjacent_isolated L x y p Hiso Hp). right. exact Ha.
Qed.

Lemma tracePaths_chain (L : layer) (opts : options) :
  forall P, In P (tracePaths L opts) -> chain L P.
Proof.
  unfold tracePaths.
  assert (Hgen : forall l st, (forall P, In P (fst st) -> chain L P) ->
            forall P, In P (fst (fold_left (trace_at L (pathomit opts)) l st)) -> chain L P).
  { induction l as [|[x y] l IH]; intros [paths vis] Hst; simpl; auto.
    apply IH. unfold trace_at.
    destruct (is_set L x y && negb _ && isEdge L x y)%bool eqn:E; [|exact Hst].
    apply andb_prop in E as [E _]. apply andb_prop in E as [Hs _].
    pose proof (walk_chain L (Z.to_nat (l_width L * l_height L * 4)) (x, y)
                  (l_width L * l_height L * 4) x y 0 0 [] vis (chain_one L (x, y) Hs)) as Hw.
    destruct (walk L _ _ _ x y 0 0 [] vis) as [path vis'].
    simpl in Hw |- *. intros P HP.
    destruct (pathomit opts <=? Z.of_nat (length path)).
    - apply in_app_or in HP as [HP|[<-|[]]]; auto.
    - auto. }
  apply Hgen. intros P [].
Qed.

(** [pathToSvg] returns the empty string for a non-empty path whose
    simplified form has fewer than two points. *)
Lemma pathToSvg_short (path : list point) (opts : options) (s : list point) :
  path <> [] -> simplifyPath (length path) path (ltres opts) = Some s ->
  (length s < 2)%nat -> pathToSvg path opts = Some None.
Proof.
  intros Hne Hs Hlen. unfold pathToSvg. destruct path as [|p ps]; [congruence|].
  rewrite Hs. apply Nat.ltb_lt in Hlen. rewrite Hlen. reflexivity.
Qed.

(** C10: a set pixel none of whose four neighbours is set is walked as a
    one-point path; every traced path through it is that one-point path,
    whatever [pathomit] is; [pathToSvg] turns it into the empty string
    (as any non-empty path whose simplified form has fewer than two
    points), so it adds no element to the document. *)
Theorem isolated_pixel_no_element (L : layer) (opts : options) (x y : Z) :
  is_set L x y = true -> isolated L x y ->
  (forall fuel ms dir steps vis,
     fst (walk L fuel (x, y) ms x y dir steps [] vis) = [(x, y)])
  /\ (forall P, In P (tracePaths L opts) -> In (x, y) P -> P = [(x, y)])
  /\ (forall path s, path <> [] -> simplifyPath (length path) path (ltres opts) = Some s ->
        (length s < 2)%nat -> pathToSvg path opts = Some None)
  /\ pathToSvg [(x, y)] opts = Some None
  /\ (forall fill ps, emit_paths fill ([(x, y)] :: ps) opts = emit_paths fill ps opts).
Proof.
  intros Hset Hiso. split; [|split; [|split; [|split]]].
  - intros. apply walk_isolated. exact Hiso.
  - intros P HP Hin. apply (chain_isolated L P x y); auto.
    apply (tracePaths_chain L opts P HP).
  - intros path s. apply pathToSvg_short.
  - reflexivity.
  - intros fill ps. reflexivity.
Qed.

Lemma isolated_pixel_no_element_witness :
  is_set layer_101 0 0 = true /\ isolated layer_101 0 0
  /\ tracePaths layer_101 (with_pathomit defaultOptions 1) = [[(0, 0)]; [(2, 0)]]
  /\ pathToSvg [(0, 0)] (with_pathomit defaultOptions 1) = Some None.
Proof.
  assert (Hi : isolated layer_101 0 0) by (repeat split).
  split; [reflexivity|split; [exact Hi|split; [vm_compute; reflexivity|]]].
  exact (proj1 (proj2 (proj2 (proj2
    (isolated_pixel_no_element layer_101 (with_pathomit defaultOptions 1) 0 0
       eq_refl Hi))))).
Defined.

(** ** Quantizer lemmas *)

Lemma scan_box_spec (i : Z) (box : list color) (st : Z * Z * channel) :
  (scan_box i box st = st \/ (mb_of (scan_box i box st) = i
                              /\ mr_of st < mr_of (scan_box i box st)))
  /\ mr_of st <= mr_of (scan_box i box st)
  /\ ((2 <= length box)%nat ->
      forall ch, box_range ch box <= mr_of (scan_box i box st)).
Proof.
  destruct st as [[mr mb] ch0]. unfold scan_box.
  destruct (Z.ltb_spec (Z.of_nat (length box)) 2) as [Hl|Hl].
  { split; [now left|split; [lia|intros; lia]]. }
  simpl.
  repeat match goal with |- context [?x <? ?y] => destruct (Z.ltb_spec x y) end;
  unfold mr_of, mb_of; simpl;
  (split; [first [left; reflexivity | right; split; [reflexivity|lia]]
          | split; [lia | intros _ [| |]; lia]]).
Qed.

Lemma scan_boxes_spec (boxes : list (list color)) (i : Z) (st : Z * Z * channel) :
  (scan_boxes i boxes st = st
   \/ (i <= mb_of (scan_boxes i boxes st) < i + Z.of_nat (length boxes)
       /\ mr_of st < mr_of (scan_boxes i boxes st)))
  /\ mr_of st <= mr_of (scan_boxes i boxes st)
  /\ (forall box, In box boxes -> (2 <= length box)%nat ->
      forall ch, box_range ch box <= mr_of (scan_boxes i boxes st)).
Proof.
  revert i st. induction boxes as [|box boxes IH]; intros i st; simpl.
  { split; [now left|split; [lia|intros _ []]]. }
  destruct (scan_box_spec i box st) as [H1 [H2 H3]].
  destruct (IH (i + 1) (scan_box i box st)) as [H4 [H5 H6]].
  split; [|split].
  - destruct H4 as [E|[Hb Hlt]].
    + rewrite E. destruct H1 as [E'|[Hb Hlt]]; [now left|right; split; lia].
    + right. split; lia.
  - lia.
  - intros bx [<-|Hin] Hl ch; [specialize (H3 Hl ch); lia | apply H6; auto].
Qed.

Lemma insert_by_perm (ch : channel) (x : color) (l : list color) :
  Permutation (insert_by ch x l) (x :: l).
Proof.
  induction l as [|y l IH]; simpl; [reflexivity|].
  destruct (chan ch x <=? chan ch y); [reflexivity|].
  rewrite IH. apply perm_swap.
Qed.

Lemma sort_by_perm (ch : channel) (l : list color) : Permutation (sort_by ch l) l.
Proof.
  induction l as [|x l IH]; simpl; [reflexivity|].
  rewrite insert_by_perm. apply perm_skip. exact IH.
Qed.

Lemma split_box_length (boxes : list (list color)) (mb : Z) (ch : channel) :
  0 <= mb < Z.of_nat (length boxes) ->
  length (split_box boxes mb ch) = S (length boxes).
Proof.
  intros H. unfold split_box. rewrite !length_app, length_firstn, length_skipn.
  simpl. lia.
Qed.

Lemma skipn_nth_cons {A} (l : list A) (k : nat) (d : A) :
  (k < length l)%nat -> skipn k l = nth k l d :: skipn (S k) l.
Proof.
  revert l. induction k as [|k IH]; intros [|x l] H; simpl in *; try lia; auto.
  apply IH. lia.
Qed.

Lemma split_box_perm (boxes : list (list color)) (mb : Z) (ch : channel) :
  0 <= mb < Z.of_nat (length boxes) ->
  Permutation (concat (split_box boxes mb ch)) (concat boxes).
Proof.
  intros H. unfold split_box.
  set (k := Z.to_nat mb).
  assert (Hk : (k < length boxes)%nat) by lia.
  set (sorted := sort_by ch (nth k boxes [])).
  set (mid := (length sorted / 2)%nat).
  transitivity (concat (firstn k boxes ++ nth k boxes [] :: skipn (S k) boxes)).
  - rewrite !concat_app. simpl. rewrite app_nil_r.
    apply Permutation_app_head. rewrite firstn_skipn.
    apply Permutation_app_tail. apply sort_by_perm.
  - rewrite <- (skipn_nth_cons boxes k [] Hk), firstn_skipn. reflexivity.
Qed.

(** The [while] loop of [medianCut]: it only adds boxes, never past
    [numColors], keeps the pixels, and when the fuel covers the missing
    boxes it stops where the JavaScript loop stops: its guard is false or
    the scan found no positive range ([break]). *)
Lemma medianCut_loop_spec (fuel : nat) (N npix : Z) (boxes : list (list color)) :
  let res := medianCut_loop fuel N npix boxes in
  (length boxes <= length res)%nat
  /\ (Z.of_nat (length boxes) <= N -> Z.of_nat (length res) <= N)
  /\ Permutation (concat res) (concat boxes)
  /\ (N <= Z.of_nat (length boxes) + Z.of_nat fuel ->
      N <= Z.of_nat (length res) \/ npix <= Z.of_nat (length res)
      \/ mr_of (scan_boxes 0 res (0, 0, Ch_r)) = 0).
Proof.
  revert boxes. induction fuel as [|fuel IH]; intros boxes; simpl.
  { split; [lia|split; [lia|split; [reflexivity|intros; left; lia]]]. }
  destruct ((Z.of_nat (length boxes) <? N) && (Z.of_nat (length boxes) <? npix))%bool
    eqn:Eg.
  2:{ split; [lia|split; [lia|split; [reflexivity|]]]. intros _.
      apply andb_false_iff in Eg as [E|E]; apply Z.ltb_ge in E; [left|right; left]; lia. }
  apply andb_prop in Eg as [Eg1 Eg2]. apply Z.ltb_lt in Eg1, Eg2.
  destruct (scan_boxes 0 boxes (0, 0, Ch_r)) as [[mr mb] ch] eqn:Es.
  destruct (Z.eqb_spec mr 0) as [Hz|Hz].
  { split; [lia|split; [lia|split; [reflexivity|]]]. intros _. right; right.
    rewrite Es. exact Hz. }
  assert (Hmb : 0 <= mb < Z.of_nat (length boxes)).
  { destruct (scan_boxes_spec boxes 0 (0, 0, Ch_r)) as [[E|[Hb _]] _];
      rewrite Es in *; [injection E as E1 _ _; congruence | exact Hb]. }
  destruct (IH (split_box boxes mb ch)) as [H1 [H2 [H3 H4]]].
  rewrite split_box_length in H1, H2, H4 by exact Hmb.
  split; [lia|split; [intros; apply H2; lia|split]].
  - rewrite H3. apply split_box_perm. exact Hmb.
  - intros Hf. apply H4. lia.
Qed.

(** The palette of [quantize] always has at least one entry, and at most
    [numberofcolors] when that is at least [1]. *)
Lemma quantize_length (imgd : imagedata) (opts : options) :
  (1 <= length (quantize imgd opts))%nat
  /\ (1 <= numberofcolors opts ->
      Z.of_nat (length (quantize imgd opts)) <= numberofcolors opts).
Proof.
  unfold quantize. destruct (collect_pixels (data imgd)) as [|p ps] eqn:Ep.
  { simpl. split; [lia|intros; lia]. }
  unfold medianCut. simpl length at 1.
  destruct (Z.ltb_spec (numberofcolors opts) 1) as [Hn|Hn]; simpl.
  { split; [lia|intros; lia]. }
  rewrite length_map.
  destruct (medianCut_loop_spec (Z.to_nat (numberofcolors opts)) (numberofcolors opts)
              (Z.of_nat (S (length ps))) [p :: ps]) as [H1 [H2 _]].
  simpl in H1, H2. split; [exact H1|]. intros _. apply H2. lia.
Qed.

(** C3: for every buffer and every requested colour count [N >= 1], the
    palette of the quantizer has between [1] and [N] entries. *)
Theorem quantize_palette_size (imgd : imagedata) (opts : options) :
  1 <= numberofcolors opts ->
  1 <= Z.of_nat (length (quantize imgd opts)) <= numberofcolors opts.
Proof.
  intros HN. destruct (quantize_length imgd opts) as [H1 H2].
  split; [lia | exact (H2 HN)].
Qed.

Lemma quantize_palette_size_witness :
  1 <= numberofcolors (with_numberofcolors defaultOptions 3)
  /\ 1 <= Z.of_nat (length (quantize img_rrrb (with_numberofcolors defaultOptions 3)))
        <= numberofcolors (with_numberofcolors defaultOptions 3).
Proof.
  split; [vm_compute; discriminate|].
  apply quantize_palette_size. vm_compute. discriminate.
Defined.













(** ** Indexer and layer lemmas *)

Lemma closest_index (j : Z) (pal : list color) (rv gv bv : option Z)
  (st : option Z * Z) :
  snd (closest j pal rv gv bv st) = snd st
  \/ j <= snd (closest j pal rv gv bv st) < j + Z.of_nat (length pal).
Proof.
  revert j st. induction pal as [|p pal IH]; intros j st; simpl; [now left|].
  destruct (dist_lt (sq_dist rv gv bv p) (fst st)).
  - destruct (IH (j + 1) (sq_dist rv gv bv p, j)) as [E|E]; simpl in E; right; lia.
  - destruct (IH (j + 1) st) as [E|E]; [now left|right; lia].
Qed.

Lemma index_pixel_range (d : list Z) (palette : list color) (i : Z) :
  palette <> [] ->
  (index_pixel d palette i = -1 <->
     exists a0, nthZ d (i * 4 + 3) = Some a0 /\ a0 < 128)
  /\ (index_pixel d palette i = -1
      \/ 0 <= index_pixel d palette i < Z.of_nat (length palette)).
Proof.
  intros Hp. unfold index_pixel. cbv zeta.
  assert (Hl : (0 < length palette)%nat) by (destruct palette; simpl; [congruence|lia]).
  set (k := snd (closest 0 palette (nthZ d (i * 4)) (nthZ d (i * 4 + 1))
                   (nthZ d (i * 4 + 2)) (None, 0))).
  assert (Hk : 0 <= k < Z.of_nat (length palette)).
  { destruct (closest_index 0 palette (nthZ d (i * 4)) (nthZ d (i * 4 + 1))
                (nthZ d (i * 4 + 2)) (None, 0)) as [E|E]; simpl in E; fold k in E; lia. }
  destruct (nthZ d (i * 4 + 3)) as [a0|] eqn:Ea; cbv iota;
    [destruct (Z.ltb_spec a0 128) as [Hlt|Hge]|].
  - split; [split; [intros _; exists a0; auto | intros _; reflexivity] | left; reflexivity].
  - split; [split; [intros E; lia | intros [a1 [Ha1 Hlt]]; injection Ha1 as <-; lia]
           | right; exact Hk].
  - split; [split; [intros E; lia | intros [a1 [Ha1 _]]; discriminate] | right; exact Hk].
Qed.

Lemma nth_map_seqZ (f : Z -> Z) (n : Z) (k : nat) (d : Z) :
  (k < Z.to_nat n)%nat -> nth k (map f (seqZ 0 n)) d = f (Z.of_nat k).
Proof.
  intros Hk. unfold seqZ. rewrite map_map.
  rewrite nth_indep with (d' := f (0 + Z.of_nat 0))
    by (rewrite length_map, length_seq; exact Hk).
  rewrite (map_nth (fun k0 => f (0 + Z.of_nat k0))), seq_nth by exact Hk.
  reflexivity.
Qed.

Lemma seqZ_NoDup (a n : Z) : NoDup (seqZ a n).
Proof.
  unfold seqZ. apply NoDup_map_NoDup_ForallPairs; [|apply seq_NoDup].
  intros x y _ _ H. lia.
Qed.

Lemma filter_eqb_notin (v : Z) (l : list Z) :
  ~ In v l -> filter (fun c => v =? c) l = [].
Proof.
  induction l as [|x l IH]; intros H; simpl; [reflexivity|].
  destruct (Z.eqb_spec v x) as [->|_]; [exfalso; apply H; now left|].
  apply IH. intros Hin. apply H. now right.
Qed.

Lemma filter_eqb_once (v : Z) (l : list Z) :
  NoDup l -> In v l -> length (filter (fun c => v =? c) l) = 1%nat.
Proof.
  induction l as [|x l IH]; intros Hn Hin; [destruct Hin|].
  inversion Hn as [|x0 l0 Hx Hl]; subst. simpl.
  destruct (Z.eqb_spec v x) as [->|Hne].
  - rewrite filter_eqb_notin by exact Hx. reflexivity.
  - apply IH; [exact Hl|]. destruct Hin as [->|Hin]; [congruence|exact Hin].
Qed.

(** The number of layers whose mask has pixel [i] set is the number of
    colour indices scanned that equal the pixel's index. *)
Lemma count_layers (ix : indexed_image) (palette : list color) (cs : list Z) (i : nat) :
  (i < length (ix_array ix))%nat ->
  length (filter (fun L => nth i (l_array L) 0 =? 1)
                 (flat_map (layer_for ix palette) cs))
  = length (filter (fun c => nth i (ix_array ix) 0 =? c) cs).
Proof.
  intros Hi. induction cs as [|c cs IH]; simpl; [reflexivity|].
  rewrite filter_app, length_app, IH. unfold layer_for.
  destruct (existsb (fun v => v =? c) (ix_array ix)) eqn:Ex; simpl.
  - rewrite nth_indep with (d' := if 0 =? c then 1 else 0)
      by (rewrite length_map; exact Hi).
    rewrite (map_nth (fun v => if v =? c then 1 else 0)).
    destruct (nth i (ix_array ix) 0 =? c); reflexivity.
  - destruct (Z.eqb_spec (nth i (ix_array ix) 0) c) as [Hc|_]; [|reflexivity].
    exfalso. assert (Hin := nth_In (ix_array ix) 0 Hi).
    assert (existsb (fun v => v =? c) (ix_array ix) = true).
    { apply existsb_exists. exists (nth i (ix_array ix) 0). split; [exact Hin|].
      apply Z.eqb_eq. exact Hc. }
    congruence.
Qed.

Lemma layer_for_nonempty (ix : indexed_image) (palette : list color) (c : Z) (L : layer) :
  In L (layer_for ix palette c) -> In 1 (l_array L).
Proof.
  unfold layer_for. destruct (existsb (fun v => v =? c) (ix_array ix)) eqn:Ex;
    [|intros []].
  intros [<-|[]]. simpl. apply existsb_exists in Ex as [v [Hv Hc]].
  apply in_map_iff. exists v. split; [rewrite Hc; reflexivity|exact Hv].
Qed.

(** C7: for every buffer and every palette [trace] can pass, that is a
    non-empty one (the quantizer's palette is never empty, see
    [quantize_length], and [createIndexedImage] is private to the
    module), the index of pixel [i < width * height] is [-1] exactly when
    its alpha byte is defined and [< 128]; every index is [-1] or a valid
    palette index; a pixel of index [-1] is in no layer mask and any other
    pixel is in exactly one; and every emitted layer has a set pixel. *)
Theorem indexed_layers_partition (imgd : imagedata) (palette : list color) :
  palette <> [] ->
  let ix := createIndexedImage imgd palette in
  let layers := layerSeparation ix palette in
  (forall i, 0 <= i < width imgd * height imgd ->
     (nth (Z.to_nat i) (ix_array ix) 0 = -1 <->
        exists a0, nthZ (data imgd) (i * 4 + 3) = Some a0 /\ a0 < 128))
  /\ (forall v, In v (ix_array ix) -> v = -1 \/ 0 <= v < Z.of_nat (length palette))
  /\ (forall i, (i < length (ix_array ix))%nat ->
       length (filter (fun L => nth i (l_array L) 0 =? 1) layers)
       = if nth i (ix_array ix) 0 =? -1 then O else 1%nat)
  /\ (forall L, In L layers -> In 1 (l_array L)).
Proof.
  intros Hp ix layers.
  assert (Hlen : length (ix_array ix) = Z.to_nat (width imgd * height imgd)).
  { simpl. unfold seqZ. rewrite !length_map, length_seq. reflexivity. }
  assert (Hnth : forall k, (k < length (ix_array ix))%nat ->
            nth k (ix_array ix) 0 = index_pixel (data imgd) palette (Z.of_nat k)).
  { intros k Hk. rewrite Hlen in Hk. apply nth_map_seqZ. exact Hk. }
  assert (Hrange : forall v, In v (ix_array ix) ->
            v = -1 \/ 0 <= v < Z.of_nat (length palette)).
  { intros v Hv. simpl in Hv. apply in_map_iff in Hv as [i [<- _]].
    apply index_pixel_range. exact Hp. }
  split; [|split; [exact Hrange|split]].
  - intros i Hi. rewrite Hnth by lia. rewrite Z2Nat.id by lia.
    apply index_pixel_range. exact Hp.
  - intros i Hi. unfold layers, layerSeparation. rewrite count_layers by exact Hi.
    destruct (Hrange (nth i (ix_array ix) 0) (nth_In _ _ Hi)) as [E|E].
    + rewrite E, filter_eqb_notin; [reflexivity|].
      rewrite in_seqZ. lia.
    + destruct (Z.eqb_spec (nth i (ix_array ix) 0) (-1)); [lia|].
      apply filter_eqb_once; [apply seqZ_NoDup|]. apply in_seqZ. lia.
  - intros L HL. unfold layers, layerSeparation in HL.
    apply in_flat_map in HL as [c [_ HL]]. exact (layer_for_nonempty _ _ _ _ HL).
Qed.

Lemma indexed_layers_partition_witness :
  [red; blue] <> []
  /\ (let ix := createIndexedImage img_semi [red; blue] in
      let layers := layerSeparation ix [red; blue] in
      (forall i, 0 <= i < width img_semi * height img_semi ->
         (nth (Z.to_nat i) (ix_array ix) 0 = -1 <->
            exists a0, nthZ (data img_semi) (i * 4 + 3) = Some a0 /\ a0 < 128))
      /\ (forall v, In v (ix_array ix) -> v = -1 \/ 0 <= v < Z.of_nat (length [red; blue]))
      /\ (forall i, (i < length (ix_array ix))%nat ->
           length (filter (fun L => nth i (l_array L) 0 =? 1) layers)
           = if nth i (ix_array ix) 0 =? -1 then O else 1%nat)
      /\ (forall L, In L layers -> In 1 (l_array L))).
Proof.
  split; [discriminate|].
  apply (indexed_layers_partition img_semi [red; blue]). discriminate.
Defined.

(** C4 (amended): the quantizer never fails; when no pixel has a positive
    alpha it returns the single transparent black entry [(0,0,0,0)], and
    when pixels remain but [numberofcolors < 1] it returns the single
    neutral gray entry [(128,128,128,255)] (not the one-box average that
    [numberofcolors = 1] gives). *)
Theorem quantize_fallbacks (imgd : imagedata) (opts : options) :
  (collect_pixels (data imgd) = [] -> quantize imgd opts = [mkColor 0 0 0 0])
  /\ (collect_pixels (data imgd) <> [] -> numberofcolors opts < 1 ->
      quantize imgd opts = [gray_entry]).
Proof.
  unfold quantize. split.
  - intros ->. reflexivity.
  - intros Hne HN. destruct (collect_pixels (data imgd)) as [|p ps]; [congruence|].
    unfold medianCut. destruct (Z.ltb_spec (numberofcolors opts) 1); [|lia].
    rewrite orb_true_r. reflexivity.
Qed.

Lemma quantize_fallbacks_witness :
  quantize img_transparent defaultOptions = [mkColor 0 0 0 0]
  /\ quantize img_red (with_numberofcolors defaultOptions 0) = [gray_entry].
Proof.
  split.
  - apply (proj1 (quantize_fallbacks img_transparent defaultOptions)).
    vm_compute. reflexivity.
  - apply (proj2 (quantize_fallbacks img_red (with_numberofcolors defaultOptions 0)));
      vm_compute; [discriminate | reflexivity].
Defined.

(** ** Coordinate formatting *)

Lemma toFixed_some (f : Z) (x : Q) : 0 <= f <= 100 -> exists q, toFixed f x = Some q.
Proof.
  intros Hf. unfold toFixed.
  replace ((f <? 0) || (100 <? f)) with false
    by (symmetry; apply orb_false_intro; apply Z.ltb_ge; lia).
  destruct (Qle_bool _ _); eauto.
Qed.

Lemma toFixed_none (f : Z) (x : Q) : f < 0 \/ 100 < f -> toFixed f x = None.
Proof.
  intros Hf. unfold toFixed.
  replace ((f <? 0) || (100 <? f)) with true; [reflexivity|].
  symmetry. apply orb_true_intro.
  destruct Hf; [left|right]; apply Z.ltb_lt; lia.
Qed.

Lemma fmt_points_some (opts : options) (pts : list point) :
  0 <= roundcoords opts <= 100 ->
  exists d, fmt_points opts pts = Some d /\ length d = length pts.
Proof.
  intros Hf. induction pts as [|[x y] rest IH]; [exists []; split; reflexivity|].
  cbn [fmt_points].
  destruct (toFixed_some (roundcoords opts) (inject_Z x * scale opts)%Q Hf) as [qx Ex].
  destruct (toFixed_some (roundcoords opts) (inject_Z y * scale opts)%Q Hf) as [qy Ey].
  unfold fmt_coord. rewrite Ex, Ey. destruct IH as [l [-> Hl]].
  exists ((qx, qy) :: l). split; [reflexivity|simpl; congruence].
Qed.

Lemma fmt_points_none (opts : options) (pts : list point) :
  roundcoords opts < 0 \/ 100 < roundcoords opts -> pts <> [] ->
  fmt_points opts pts = None.
Proof.
  intros Hf Hne. destruct pts as [|[x y] rest]; [congruence|].
  cbn [fmt_points]. unfold fmt_coord. rewrite toFixed_none by exact Hf. reflexivity.
Qed.

(** ** Totality of the emitter *)

Lemma pathToSvg_total (path : list point) (opts : options) :
  (0 <= ltres opts)%Q -> 0 <= roundcoords opts <= 100 ->
  exists r, pathToSvg path opts = Some r.
Proof.
  intros Hl Hf. unfold pathToSvg. destruct path as [|p ps]; [eauto|].
  destruct (simplifyPath_terminates (length (p :: ps)) (p :: ps) (ltres opts) Hl
              (Nat.le_refl _)) as [res ->].
  destruct (length res <? 2)%nat; [eauto|].
  destruct (fmt_points_some opts res Hf) as [d [-> _]]. eauto.
Qed.

Lemma emit_paths_total (fill : color) (paths : list (list point)) (opts : options) :
  (0 <= ltres opts)%Q -> 0 <= roundcoords opts <= 100 ->
  exists items, emit_paths fill paths opts = Some items.
Proof.
  intros Hl Hf. induction paths as [|p ps IH]; simpl; [eauto|].
  destruct (pathToSvg_total p opts Hl Hf) as [[d|] ->]; [|exact IH].
  destruct IH as [items ->]. eauto.
Qed.

Lemma emit_layers_total (layers : list layer) (opts : options) :
  (0 <= ltres opts)%Q -> 0 <= roundcoords opts <= 100 ->
  exists items, emit_layers layers opts = Some items.
Proof.
  intros Hl Hf. induction layers as [|L Ls IH]; simpl; [eauto|].
  destruct (emit_paths_total (l_color L) (tracePaths L opts) opts Hl Hf) as [items ->].
  destruct IH as [rest ->]. eauto.
Qed.

Lemma preprocess_dims (imgd : imagedata) (opts : options) :
  width (fst (preprocess imgd opts)) = width imgd
  /\ height (fst (preprocess imgd opts)) = height imgd
  /\ ltres (snd (preprocess imgd opts)) = ltres opts
  /\ scale (snd (preprocess imgd opts)) = scale opts
  /\ roundcoords (snd (preprocess imgd opts)) = roundcoords opts.
Proof.
  assert (Hb : forall k, width (blur imgd k) = width imgd /\ height (blur imgd k) = height imgd).
  { intros k. unfold blur. destruct (k <? 1); split; reflexivity. }
  unfold preprocess.
  destruct (0 <? blurradius opts); [destruct (Hb (blurradius opts)) as [Hw Hh]|];
  destruct (String.eqb (colorMode opts) "grayscale");
  try destruct (String.eqb (colorMode opts) "monochrome"); simpl;
  repeat split; assumption || reflexivity.
Qed.

(** C1 (amended): [trace] does not compare the buffer length with
    [width * height * 4]; for every buffer (with [width * height >= 0], so
    that the typed arrays can be allocated), a tolerance [ltres >= 0] and
    [roundcoords] in [0 .. 100] (the digits [toFixed] accepts), it returns
    a document, whose size is the scaled [width] and [height]. *)
Theorem trace_returns_document (imgd : imagedata) (opts : options) :
  0 <= width imgd * height imgd -> (0 <= ltres opts)%Q ->
  0 <= roundcoords opts <= 100 ->
  exists doc, fst (trace imgd opts) = Some doc
    /\ doc_width doc = js_round (inject_Z (width imgd) * scale opts)
    /\ doc_height doc = js_round (inject_Z (height imgd) * scale opts).
Proof.
  intros _ Hl Hf. unfold trace.
  destruct (preprocess_dims imgd opts) as [Hw [Hh [Hlt [Hs Hr]]]].
  destruct (preprocess imgd opts) as [imgd1 opts1]. simpl in Hw, Hh, Hlt, Hs, Hr |- *.
  unfold generateSvg.
  assert (Hl1 : (0 <= ltres opts1)%Q) by (rewrite Hlt; exact Hl).
  assert (Hf1 : 0 <= roundcoords opts1 <= 100) by (rewrite Hr; exact Hf).
  destruct (emit_layers_total
              (layerSeparation (createIndexedImage imgd1 (quantize imgd1 opts1))
                 (quantize imgd1 opts1)) opts1 Hl1 Hf1)
    as [items ->].
  eexists. split; [reflexivity|]. simpl. rewrite Hw, Hh, Hs. split; reflexivity.
Qed.

Lemma trace_returns_document_witness :
  (0 <= width img_mismatch * height img_mismatch /\ (0 <= ltres defaultOptions)%Q
   /\ 0 <= roundcoords defaultOptions <= 100)
  /\ exists doc, fst (trace img_mismatch defaultOptions) = Some doc
    /\ doc_width doc = js_round (inject_Z (width img_mismatch) * scale defaultOptions)
    /\ doc_height doc = js_round (inject_Z (height img_mismatch) * scale defaultOptions).
Proof.
  assert (H1 : 0 <= width img_mismatch * height img_mismatch) by (vm_compute; discriminate).
  assert (H2 : (0 <= ltres defaultOptions)%Q) by (apply Qle_bool_iff; reflexivity).
  assert (H3 : 0 <= roundcoords defaultOptions <= 100) by (vm_compute; split; discriminate).
  split; [split; [exact H1|split; [exact H2|exact H3]]|].
  exact (trace_returns_document img_mismatch defaultOptions H1 H2 H3).
Defined.

(** ** Blur lemmas *)

Open Scope R_scope.

(** The kernel of radius [1]: three weights summing to [1], the outer
    ones [exp(-1/2) / (1 + 2 exp(-1/2))], at least [1/255]. *)
Lemma blur_kernel_1 :
  exists k0 k1 k2, blur_kernel 1 = [k0; k1; k2]
    /\ 0 + k0 + k1 + k2 = 1 /\ 1 <= 255 * k2.
Proof.
  unfold blur_kernel, seqZ. simpl.
  set (e0 := exp (- (-1 * -1) / (2 * 1 * 1))).
  set (e1 := exp (- (0 * 0) / (2 * 1 * 1))).
  set (e2 := exp (- (1 * 1) / (2 * 1 * 1))).
  assert (E0 : e0 = e2) by (unfold e0, e2; f_equal; field).
  assert (E1 : e1 = 1)
    by (unfold e1; replace (- (0 * 0) / (2 * 1 * 1)) with 0 by field; apply exp_0).
  assert (E2 : / 2 <= e2).
  { unfold e2. replace (- (1 * 1) / (2 * 1 * 1)) with (- / 2) by field.
    pose proof (exp_ineq1_le (- / 2)). lra. }
  rewrite E0, E1.
  eexists _, _, _. split; [reflexivity|]. split.
  - field. lra.
  - apply (Rmult_le_reg_r (0 + e2 + 1 + e2)); [lra|].
    unfold Rdiv. rewrite Rmult_assoc, Rmult_assoc, Rinv_l by lra. lra.
Qed.

Lemma to_uint8_clamp_ge1 (x : R) : 1 <= x -> (1 <= to_uint8_clamp (Some x))%Z.
Proof.
  intros Hx. unfold to_uint8_clamp.
  destruct (Rle_dec x 0); [lra|]. destruct (Rle_dec 255 x); [lia|].
  destruct (base_Int_part x) as [H1 H2].
  assert (Hf : (1 <= Int_part x)%Z).
  { assert (Hf0 : (0 <= Int_part x)%Z) by (apply le_IZR; lra).
    destruct (Z.eq_dec (Int_part x) 0) as [E|E]; [rewrite E in *; simpl in *; lra|].
    lia. }
  destruct (Rlt_dec _ x); [lia|]. destruct (Rlt_dec x _); [lia|].
  destruct (Z.even _); lia.
Qed.

Close Scope R_scope.

(** C9: [blur] writes its vertical pass back into [imgd.data], the
    caller's buffer: tracing the black/white row [img_bw] with
    [blurradius = 1] leaves a non-zero first byte in the caller's object,
    whose first byte was [0]. *)
Theorem trace_blur_mutates_input :
  nth 0 (data img_bw) 0 = 0
  /\ nth 0 (data (snd (trace img_bw (with_blurradius defaultOptions 1)))) 0 <> 0.
Proof.
  split; [reflexivity|].
  change (snd (trace img_bw (with_blurradius defaultOptions 1))) with (blur img_bw 1).
  unfold blur. simpl (1 <? 1). cbv iota zeta.
  destruct blur_kernel_1 as [k0 [k1 [k2 [-> [Hsum Hk2]]]]].
  pose proof to_uint8_clamp_ge1 as Hf.
  unfold blur_pass. set (f := to_uint8_clamp) in *. clearbody f.
  set (v := f (blur_sum true 2 1 1 [k0; k1; k2] [0; 0; 0; 255; 255; 255; 255; 255] 0 0 0)).
  assert (Hv : 1 <= v).
  { unfold v. apply Hf. unfold blur_sum. simpl. lra. }
  simpl. unfold blur_sum at 1. simpl.
  match goal with |- ?t <> 0 => assert (H1 : 1 <= t); [|lia] end.
  apply Hf. apply IZR_le in Hv. fold v.
  replace (0 + IZR v * k0 + IZR v * k1 + IZR v * k2)%R
    with (IZR v * (0 + k0 + k1 + k2))%R by ring.
  rewrite Hsum. lra.
Qed.

(** ** Further tracer lemmas *)

(** Every path kept by [tracePaths] is a walk started at an unvisited
    edge pixel and long enough for [pathomit]. *)
Lemma tracePaths_from_walks (L : layer) (opts : options) (P : list point) :
  In P (tracePaths L opts) ->
  exists x y vis,
    is_set L x y = true /\ isEdge L x y = true
    /\ pathomit opts <= Z.of_nat (length P)
    /\ P = fst (walk L (Z.to_nat (l_width L * l_height L * 4)) (x, y)
                  (l_width L * l_height L * 4) x y 0 0 [] vis).
Proof.
  revert P. unfold tracePaths.
  assert (Hgen : forall l st,
    (forall P, In P (fst st) -> exists x y vis,
       is_set L x y = true /\ isEdge L x y = true
       /\ pathomit opts <= Z.of_nat (length P)
       /\ P = fst (walk L (Z.to_nat (l_width L * l_height L * 4)) (x, y)
                     (l_width L * l_height L * 4) x y 0 0 [] vis)) ->
    forall P, In P (fst (fold_left (trace_at L (pathomit opts)) l st)) ->
      exists x y vis,
       is_set L x y = true /\ isEdge L x y = true
       /\ pathomit opts <= Z.of_nat (length P)
       /\ P = fst (walk L (Z.to_nat (l_width L * l_height L * 4)) (x, y)
                     (l_width L * l_height L * 4) x y 0 0 [] vis)).
  { induction l as [|[x y] l IH]; intros [paths vis] Hst; simpl; auto.
    apply IH. unfold trace_at.
    destruct (is_set L x y && negb _ && isEdge L x y)%bool eqn:E; [|exact Hst].
    apply andb_prop in E as [E He]. apply andb_prop in E as [Hs _].
    destruct (walk L _ _ _ x y 0 0 [] vis) as [path vis'] eqn:Ew.
    simpl. intros P HP.
    destruct (Z.leb_spec (pathomit opts) (Z.of_nat (length path))) as [Hp|Hp].
    - apply in_app_or in HP as [HP|[<-|[]]]; [auto|].
      exists x, y, vis. rewrite Ew. auto.
    - auto. }
  apply Hgen. intros P0 [].
Qed.

Lemma next_step_edge (L : layer) (cx cy dir nx ny nd : Z) :
  next_step L cx cy dir = Some (nx, ny, nd) -> isEdge L nx ny = true.
Proof.
  unfold next_step. intros H. apply fold_try_dir in H as [H|[i H]]; [discriminate|].
  unfold try_dir in H.
  destruct (is_set L _ _ && isEdge L _ _)%bool eqn:E; [|discriminate].
  injection H as <- <- <-. apply andb_prop in E as [_ E]. exact E.
Qed.

Lemma walk_edges (L : layer) (fuel : nat) (start : point) (ms cx cy dir steps : Z)
  (path : list point) (vis : list bool) :
  Forall (fun p => isEdge L (fst p) (snd p) = true) (path ++ [(cx, cy)]) ->
  Forall (fun p => isEdge L (fst p) (snd p) = true)
    (fst (walk L fuel start ms cx cy dir steps path vis)).
Proof.
  revert cx cy dir steps path vis.
  induction fuel as [|fuel IH]; intros cx cy dir steps path vis Hc;
    simpl; destruct (next_step L cx cy dir) as [[[nx ny] nd]|] eqn:E; simpl; auto;
    destruct (_ && _)%bool; simpl; auto.
  apply IH. apply next_step_edge in E.
  apply Forall_app. split; [exact Hc|]. constructor; auto.
Qed.

Lemma walk_length (L : layer) (fuel : nat) (start : point) (ms cx cy dir steps : Z)
  (path : list point) (vis : list bool) :
  (S (length path) <= length (fst (walk L fuel start ms cx cy dir steps path vis))
   <= length path + S fuel)%nat.
Proof.
  revert cx cy dir steps path vis.
  induction fuel as [|fuel IH]; intros cx cy dir steps path vis; cbn [walk].
  - destruct (next_step L cx cy dir) as [[[nx ny] nd]|];
      [destruct (_ && _)%bool|]; cbn [fst]; rewrite length_app; simpl; lia.
  - destruct (next_step L cx cy dir) as [[[nx ny] nd]|];
      [destruct (_ && _)%bool|]; cbn [fst]; try (rewrite length_app; simpl; lia).
    specialize (IH nx ny nd (steps + 1) (path ++ [(cx, cy)])
                  (list_set vis (cy * l_width L + cx) true)).
    rewrite length_app in IH. simpl in IH. lia.
Qed.

Lemma trace_at_count (L : layer) (po : Z) (l : list point) (st : list (list point) * list bool) :
  (length (fst (fold_left (trace_at L po) l st)) <= length (fst st) + length l)%nat.
Proof.
  revert st. induction l as [|[x y] l IH]; intros [paths vis]; cbn [fold_left]; [simpl; lia|].
  specialize (IH (trace_at L po (paths, vis) (x, y))).
  enough (length (fst (trace_at L po (paths, vis) (x, y))) <= S (length paths))%nat
    by (cbn [length fst] in *; lia).
  unfold trace_at. destruct (_ && _ && _)%bool; [|cbn [fst]; lia].
  destruct (walk L _ _ _ x y 0 0 [] vis) as [path vis'].
  destruct (po <=? _); cbn [fst]; rewrite ?length_app; cbn [length]; lia.
Qed.
Lemma length_seqZ (a n : Z) : length (seqZ a n) = Z.to_nat n.
Proof. unfold seqZ. rewrite length_map, length_seq. reflexivity. Qed.
Lemma length_coords (w h : Z) : length (coords w h) = (Z.to_nat h * Z.to_nat w)%nat.
Proof.
  unfold coords. rewrite <- (length_seqZ 0 h) at 1.
  induction (seqZ 0 h) as [|y ys IH]; [reflexivity|].
  change (flat_map ?f (y :: ys)) with (f y ++ flat_map f ys).
  unfold point in IH. rewrite length_app, length_map, length_seqZ, IH. cbn [length]. lia.
Qed.
(** [tracePaths]: every kept path is a chain of set pixels, each a
    4-neighbour of the previous one; every point is an edge pixel; the
    path has at least [pathomit] points and between [1] and
    [w * h * 4 + 1] points; and there are at most [w * h] paths. *)
Theorem tracePaths_shape (L : layer) (opts : options) :
  (forall P, In P (tracePaths L opts) ->
     chain L P
     /\ Forall (fun p => isEdge L (fst p) (snd p) = true) P
     /\ pathomit opts <= Z.of_nat (length P)
     /\ (1 <= length P <= Z.to_nat (l_width L * l_height L * 4) + 1)%nat)
  /\ (length (tracePaths L opts) <= Z.to_nat (l_width L) * Z.to_nat (l_height L))%nat.
Proof.
  split.
  - intros P HP. pose proof (tracePaths_chain L opts P HP) as Hc.
    apply tracePaths_from_walks in HP as [x [y [vis [Hs [He [Hp ->]]]]]].
    split; [exact Hc|split; [|split; [exact Hp|]]].
    + apply walk_edges. simpl. constructor; auto.
    + pose proof (walk_length L (Z.to_nat (l_width L * l_height L * 4)) (x, y)
                    (l_width L * l_height L * 4) x y 0 0 [] vis). simpl in H. lia.
  - unfold tracePaths. pose proof (trace_at_count L (pathomit opts)
      (coords (l_width L) (l_height L))
      ([], repeat false (Z.to_nat (l_width L * l_height L)))) as H.
    rewrite length_coords in H. simpl in H. lia.
Qed.

(** ** Further indexer lemmas *)

Lemma closest_min (r0 g0 b0 : Z) (pal : list color) (j m k : Z) :
  k < j ->
  let D := fun p => (r0 - r p) * (r0 - r p) + (g0 - g p) * (g0 - g p)
                    + (b0 - b p) * (b0 - b p) in
  exists m' k',
    closest j pal (Some r0) (Some g0) (Some b0) (Some m, k) = (Some m', k')
    /\ m' <= m
    /\ ((m' = m /\ k' = k)
        \/ (m' < m /\ exists i p, nth_error pal i = Some p
                                  /\ k' = j + Z.of_nat i /\ m' = D p))
    /\ forall i p, nth_error pal i = Some p ->
         m' <= D p /\ (j + Z.of_nat i < k' -> m' < D p).
Proof.
  intros Hk D. revert j m k Hk.
  induction pal as [|p pal IH]; intros j m k Hk; cbn [closest].
  - exists m, k. split; [reflexivity|]. split; [lia|]. split; [now left|].
    intros [|i] p' H; discriminate.
  - cbn [fst]. unfold dist_lt, sq_dist.
    fold (D p).
    destruct (Z.ltb_spec (D p) m) as [Hlt|Hge].
    + destruct (IH (j + 1) (D p) j ltac:(lia))
        as [m' [k' [E [Hm [Hor Hall]]]]].
      exists m', k'. split; [exact E|]. split; [lia|]. split.
      * right. split; [lia|].
        destruct Hor as [[-> ->]|[Hlt' [i [p' [Hi [-> ->]]]]]].
        -- exists O, p. repeat split; simpl; lia.
        -- exists (S i), p'. repeat split; [exact Hi|lia].
      * intros [|i] p' Hi.
        -- injection Hi as <-. split; [lia|].
           destruct Hor as [[_ ->]|[Hlt' [i [p' [_ [-> _]]]]]]; lia.
        -- destruct (Hall i p' Hi) as [H1 H2]. split; [exact H1|].
           intros Hlt'. apply H2. lia.
    + destruct (IH (j + 1) m k ltac:(lia))
        as [m' [k' [E [Hm [Hor Hall]]]]].
      exists m', k'. split; [exact E|]. split; [lia|]. split.
      * destruct Hor as [[-> ->]|[Hlt' [i [p' [Hi [-> ->]]]]]]; [now left|].
        right. split; [lia|]. exists (S i), p'. repeat split; [exact Hi|lia].
      * intros [|i] p' Hi.
        -- injection Hi as <-. split; [lia|].
           destruct Hor as [[_ ->]|[Hlt' _]]; lia.
        -- destruct (Hall i p' Hi) as [H1 H2]. split; [exact H1|].
           intros Hlt'. apply H2. lia.
Qed.

(** [createIndexedImage]: an opaque pixel (alpha [>= 128] or
    [undefined]) whose three colour bytes are defined is given the index
    of a nearest palette entry in squared RGB distance, and of the first
    one among equally near entries. *)
Theorem index_pixel_nearest (d : list Z) (pal : list color) (i r0 g0 b0 : Z) :
  nthZ d (i * 4) = Some r0 -> nthZ d (i * 4 + 1) = Some g0 ->
  nthZ d (i * 4 + 2) = Some b0 ->
  (forall a0, nthZ d (i * 4 + 3) = Some a0 -> 128 <= a0) ->
  pal <> [] ->
  let D := fun p => (r0 - r p) * (r0 - r p) + (g0 - g p) * (g0 - g p)
                    + (b0 - b p) * (b0 - b p) in
  0 <= index_pixel d pal i
  /\ exists pk, nth_error pal (Z.to_nat (index_pixel d pal i)) = Some pk
  /\ forall j p, nth_error pal j = Some p ->
       D pk <= D p /\ (Z.of_nat j < index_pixel d pal i -> D pk < D p).
Proof.
  intros Hr Hg Hb Ha Hp D. unfold index_pixel. cbv zeta.
  rewrite Hr, Hg, Hb.
  replace (match nthZ d (i * 4 + 3) with Some a0 => a0 <? 128 | None => false end)
    with false by (destruct (nthZ d (i * 4 + 3)) as [a0|] eqn:E;
                   [specialize (Ha a0 eq_refl); symmetry; apply Z.ltb_ge; lia|reflexivity]).
  destruct pal as [|p0 pal]; [congruence|]. cbn [closest fst]. unfold dist_lt, sq_dist.
  fold (D p0).
  destruct (closest_min r0 g0 b0 pal 1 (D p0) 0 ltac:(lia))
    as [m' [k' [E [Hm [Hor Hall]]]]].
  fold D in E, Hor, Hall. replace (0 + 1) with 1 by lia. rewrite E. cbn [snd].
  assert (Hk : 0 <= k') by (destruct Hor as [[_ ->]|[_ [i' [p' [_ [-> _]]]]]]; lia).
  split; [exact Hk|].
  assert (Hpk : exists pk, nth_error (p0 :: pal) (Z.to_nat k') = Some pk /\ D pk = m').
  { destruct Hor as [[-> ->]|[_ [i' [p' [Hi [-> ->]]]]]].
    - exists p0. split; reflexivity.
    - exists p'. split; [|reflexivity].
      replace (Z.to_nat (1 + Z.of_nat i')) with (S i') by lia. exact Hi. }
  destruct Hpk as [pk [Hpk HD]]. exists pk. split; [exact Hpk|].
  rewrite HD. intros [|j] p Hj.
  - injection Hj as <-. split; [lia|].
    destruct Hor as [[_ ->]|[Hlt _]]; cbn [Z.of_nat]; lia.
  - destruct (Hall j p Hj) as [H1 H2]. split; [exact H1|].
    intros Hlt. apply H2. lia.
Qed.

Lemma index_pixel_nearest_witness :
  (nthZ [10; 20; 30; 255] 0 = Some 10 /\ nthZ [10; 20; 30; 255] 1 = Some 20
   /\ nthZ [10; 20; 30; 255] 2 = Some 30
   /\ (forall a0, nthZ [10; 20; 30; 255] 3 = Some a0 -> 128 <= a0)
   /\ [mkColor 0 0 0 255; mkColor 12 18 30 255] <> [])
  /\ (let D := fun p => (10 - r p) * (10 - r p) + (20 - g p) * (20 - g p)
                    + (30 - b p) * (30 - b p) in
  0 <= index_pixel [10; 20; 30; 255] [mkColor 0 0 0 255; mkColor 12 18 30 255] 0
  /\ exists pk, nth_error [mkColor 0 0 0 255; mkColor 12 18 30 255]
        (Z.to_nat (index_pixel [10; 20; 30; 255] [mkColor 0 0 0 255; mkColor 12 18 30 255] 0)) = Some pk
  /\ forall j p, nth_error [mkColor 0 0 0 255; mkColor 12 18 30 255] j = Some p ->
       D pk <= D p /\ (Z.of_nat j < index_pixel [10; 20; 30; 255] [mkColor 0 0 0 255; mkColor 12 18 30 255] 0 -> D pk < D p)).
Proof.
  assert (Ha : forall a0, nthZ [10; 20; 30; 255] 3 = Some a0 -> 128 <= a0)
    by (intros a0 H; injection H as <-; lia).
  split.
  - repeat split; try reflexivity; [exact Ha|discriminate].
  - apply (index_pixel_nearest [10; 20; 30; 255] [mkColor 0 0 0 255; mkColor 12 18 30 255]
             0 10 20 30); try reflexivity; [exact Ha|discriminate].
Defined.

(** ** Further quantizer lemmas *)

Lemma sum_chan_bounds (f : color -> Z) (box : list color) (lo hi : Z) :
  (forall p, In p box -> lo <= f p <= hi) ->
  Z.of_nat (length box) * lo <= sum_chan f box <= Z.of_nat (length box) * hi.
Proof.
  unfold sum_chan. intros H.
  enough (forall acc, acc + Z.of_nat (length box) * lo
                      <= fold_left (fun acc p => acc + f p) box acc
                      <= acc + Z.of_nat (length box) * hi) by (specialize (H0 0); lia).
  induction box as [|p box IH]; intros acc; cbn [fold_left length]; [lia|].
  assert (Hp : lo <= f p <= hi) by (apply H; left; reflexivity).
  specialize (IH (fun q Hq => H q (or_intror Hq)) (acc + f p)). lia.
Qed.

Lemma js_round_avg_bounds (s n lo hi : Z) :
  0 < n -> n * lo <= s <= n * hi ->
  lo <= js_round (inject_Z s / inject_Z n) <= hi.
Proof.
  intros Hn [Hl Hh]. unfold js_round.
  assert (Hn' : (0 < inject_Z n)%Q) by (change 0%Q with (inject_Z 0); rewrite <- Zlt_Qlt; exact Hn).
  assert (Hq1 : (inject_Z lo <= inject_Z s / inject_Z n)%Q).
  { apply Qle_shift_div_l; [exact Hn'|]. rewrite <- inject_Z_mult, <- Zle_Qle. lia. }
  assert (Hq2 : (inject_Z s / inject_Z n <= inject_Z hi)%Q).
  { apply Qle_shift_div_r; [exact Hn'|]. rewrite <- inject_Z_mult, <- Zle_Qle. lia. }
  split.
  - rewrite <- (Qfloor_Z lo). apply Qfloor_resp_le.
    apply Qle_trans with (inject_Z s / inject_Z n)%Q; [exact Hq1|].
    rewrite <- (Qplus_0_r (inject_Z s / inject_Z n)%Q) at 1.
    apply Qplus_le_r. discriminate.
  - set (q := (inject_Z s / inject_Z n + (1 # 2))%Q).
    assert (H1 : (inject_Z (Qfloor q) <= q)%Q) by apply Qfloor_le.
    assert (H2 : (q < inject_Z (hi + 1))%Q).
    { unfold q. rewrite inject_Z_plus.
      apply Qle_lt_trans with (inject_Z hi + (1 # 2))%Q.
      - apply Qplus_le_l. exact Hq2.
      - apply Qplus_lt_r. reflexivity. }
    assert (H3 : Qfloor q < hi + 1).
    { rewrite Zlt_Qlt. apply Qle_lt_trans with q; assumption. }
    lia.
Qed.

Lemma box_average_in (lo hi : Z) (box : list color) :
  box <> [] -> (forall p, In p box -> color_in lo hi p) ->
  color_in lo hi (box_average box).
Proof.
  intros Hne H. destruct box as [|p0 ps]; [congruence|].
  unfold box_average. cbv zeta.
  assert (Hn : 0 < Z.of_nat (length (p0 :: ps))) by (cbn [length]; lia).
  set (bx := p0 :: ps) in *. clearbody bx.
  unfold color_in; cbn [r g b a].
  split; [|split; [|split]]; apply js_round_avg_bounds; try exact Hn;
    apply sum_chan_bounds; intros p Hp; specialize (H p Hp); unfold color_in in H; lia.
Qed.

Lemma collect_pixels_in (lo hi : Z) (d : list Z) :
  Forall (fun v => lo <= v <= hi) d ->
  forall c, In c (collect_pixels d) -> color_in lo hi c.
Proof.
  remember (length d) as n eqn:En. revert d En.
  induction n as [n IH] using lt_wf_ind. intros d En Hd c Hc.
  destruct d as [|r0 [|g0 [|b0 [|a0 rest]]]]; cbn [collect_pixels] in Hc;
    try contradiction.
  apply Forall_cons_iff in Hd as [Hr Hd]. apply Forall_cons_iff in Hd as [Hg Hd].
  apply Forall_cons_iff in Hd as [Hb Hd]. apply Forall_cons_iff in Hd as [Ha Hd].
  apply in_app_or in Hc as [Hc|Hc].
  - destruct (0 <? a0); [|contradiction].
    destruct Hc as [<-|[]]. unfold color_in; cbn [r g b a]. auto.
  - apply (IH (length rest)) with rest; auto. subst n. cbn [length]. lia.
Qed.

Lemma medianCut_in (lo hi : Z) (pixels : list color) (N : Z) :
  lo <= 128 <= hi -> 255 <= hi ->
  (forall p, In p pixels -> color_in lo hi p) ->
  forall c, In c (medianCut pixels N) -> color_in lo hi c.
Proof.
  intros Hg Hh H c Hc. unfold medianCut in Hc.
  destruct (Nat.eqb (length pixels) 0 || (N <? 1))%bool.
  { destruct Hc as [<-|[]]. unfold color_in, gray_entry; cbn [r g b a]. lia. }
  apply in_map_iff in Hc as [box [<- Hbox]].
  destruct (medianCut_loop_spec (Z.to_nat N) N (Z.of_nat (length pixels)) [pixels])
    as [_ [_ [Hperm _]]].
  destruct box as [|p0 ps].
  { (* an empty box averages to the gray entry *)
    unfold box_average, color_in, gray_entry; cbn [r g b a]. lia. }
  apply box_average_in; [discriminate|]. intros p Hp. apply H.
  cbn [concat] in Hperm. rewrite app_nil_r in Hperm.
  apply (Permutation_in _ Hperm). apply in_concat. exists (p0 :: ps). auto.
Qed.

(** [quantize]: when every byte of the buffer is in [0 .. 255], every
    component [r], [g], [b], [a] of every palette entry is in
    [0 .. 255]. *)
Theorem quantize_entries_bytes (imgd : imagedata) (opts : options) :
  Forall (fun v => 0 <= v <= 255) (data imgd) ->
  Forall (color_in 0 255) (quantize imgd opts).
Proof.
  intros Hd. apply Forall_forall. intros c Hc. unfold quantize in Hc.
  destruct (collect_pixels (data imgd)) as [|p ps] eqn:Ep.
  - destruct Hc as [<-|[]]. unfold color_in; cbn [r g b a]. lia.
  - rewrite <- Ep in Hc. revert c Hc. apply medianCut_in; try lia.
    apply collect_pixels_in. exact Hd.
Qed.

Lemma quantize_entries_bytes_witness :
  Forall (fun v => 0 <= v <= 255) (data img_rrrb)
  /\ Forall (color_in 0 255) (quantize img_rrrb opts_2x2).
Proof.
  assert (H : Forall (fun v => 0 <= v <= 255) (data img_rrrb))
    by (repeat constructor; lia).
  split; [exact H|]. apply quantize_entries_bytes. exact H.
Defined.

(** ** Preprocessing lemmas *)

(** Induction over a buffer four bytes at a time. *)
Lemma list4_ind {A} (P : list A -> Prop) :
  P [] -> (forall x, P [x]) -> (forall x y, P [x; y]) -> (forall x y z, P [x; y; z]) ->
  (forall x y z w l, P l -> P (x :: y :: z :: w :: l)) -> forall l, P l.
Proof.
  intros H0 H1 H2 H3 H4. fix IH 1.
  intros [|x [|y [|z [|w l]]]];
    [exact H0|exact (H1 x)|exact (H2 x y)|exact (H3 x y z)|exact (H4 x y z w l (IH l))].
Qed.

Lemma nth_error_4 {A} (x y z w : A) (l : list A) (k j : nat) :
  nth_error (x :: y :: z :: w :: l) (4 * S k + j) = nth_error l (4 * k + j).
Proof. replace (4 * S k + j)%nat with (S (S (S (S (4 * k + j))))) by lia. reflexivity. Qed.

Lemma luma_gray (v : Z) : luma v v v == inject_Z v.
Proof.
  unfold luma. rewrite <- Qmake_Qdiv. unfold Qeq, inject_Z. cbn [Qnum Qden]. lia.
Qed.

Lemma js_round_Z (v : Z) : js_round (inject_Z v) = v.
Proof.
  unfold js_round. rewrite <- (Qfloor_Z v) at 2.
  apply Z.le_antisymm.
  - assert (H : Qfloor (inject_Z v + (1 # 2)) < v + 1).
    { rewrite Zlt_Qlt. apply Qle_lt_trans with (inject_Z v + (1 # 2))%Q; [apply Qfloor_le|].
      rewrite inject_Z_plus. apply Qplus_lt_r. reflexivity. }
    rewrite Qfloor_Z. lia.
  - apply Qfloor_resp_le. rewrite <- (Qplus_0_r (inject_Z v)) at 1.
    apply Qplus_le_r. discriminate.
Qed.

Lemma clamp_byte_range (v : Z) : 0 <= clamp_byte v <= 255.
Proof. unfold clamp_byte. lia. Qed.

Lemma grayscale_bytes_shape (d : list Z) :
  length (grayscale_bytes d) = length d
  /\ forall k, (4 * k + 3 < length d)%nat ->
       nth_error (grayscale_bytes d) (4 * k + 3) = nth_error d (4 * k + 3)
       /\ exists v, 0 <= v <= 255
          /\ nth_error (grayscale_bytes d) (4 * k) = Some v
          /\ nth_error (grayscale_bytes d) (4 * k + 1) = Some v
          /\ nth_error (grayscale_bytes d) (4 * k + 2) = Some v.
Proof.
  induction d as [| x | x y | x y z | x y z w l [IHl IHk]] using list4_ind;
    try (split; [reflexivity|intros k Hk; cbn [length] in Hk; lia]).
  cbn [grayscale_bytes length]. split; [rewrite IHl; reflexivity|].
  intros [|k] Hk.
  - cbn. split; [reflexivity|]. eexists. split; [apply clamp_byte_range|auto].
  - replace (4 * S k)%nat with (S (S (S (S (4 * k)))))%nat by lia.
    cbn [Nat.add nth_error]. apply IHk. lia.
Qed.

Lemma js_round_comp (q q' : Q) : q == q' -> js_round q = js_round q'.
Proof. intros H. unfold js_round. apply Qfloor_comp. rewrite H. reflexivity. Qed.

Lemma gray_fix (v : Z) : 0 <= v <= 255 -> clamp_byte (js_round (luma v v v)) = v.
Proof.
  intros Hv. rewrite (js_round_comp _ _ (luma_gray v)), js_round_Z.
  unfold clamp_byte. lia.
Qed.

(** [toGrayscale] is idempotent: converting a converted buffer again
    leaves it unchanged. *)
Theorem toGrayscale_idempotent (imgd : imagedata) :
  toGrayscale (toGrayscale imgd) = toGrayscale imgd.
Proof.
  unfold toGrayscale. cbn [width height data]. f_equal.
  induction (data imgd) as [| x | x y | x y z | x y z w l IH] using list4_ind;
    try reflexivity.
  - cbn [grayscale_bytes]. rewrite gray_fix by apply clamp_byte_range. reflexivity.
  - cbn [grayscale_bytes]. rewrite gray_fix by apply clamp_byte_range.
    rewrite IH. reflexivity.
Qed.

Lemma grayscale_bytes_range (d : list Z) :
  Forall (fun v => 0 <= v <= 255) d -> Forall (fun v => 0 <= v <= 255) (grayscale_bytes d).
Proof.
  induction d as [| x | x y | x y z | x y z w l IH] using list4_ind; intros Hd;
    cbn [grayscale_bytes]; repeat constructor; try apply clamp_byte_range; try lia.
  all: apply Forall_cons_iff in Hd as [_ Hd]; apply Forall_cons_iff in Hd as [_ Hd];
       apply Forall_cons_iff in Hd as [_ Hd]; apply Forall_cons_iff in Hd as [Hw Hl].
  - lia.
  - lia.
  - exact (IH Hl).
Qed.

(** [toGrayscale] keeps the dimensions and the buffer length; in every
    complete pixel the alpha byte is unchanged and the three colour bytes
    hold one value in [0 .. 255]; a buffer of bytes stays a buffer of
    bytes. *)
Theorem toGrayscale_pixels (imgd : imagedata) :
  let d := data imgd in
  let d' := data (toGrayscale imgd) in
  width (toGrayscale imgd) = width imgd /\ height (toGrayscale imgd) = height imgd
  /\ length d' = length d
  /\ (forall k, (4 * k + 3 < length d)%nat ->
        nth_error d' (4 * k + 3) = nth_error d (4 * k + 3)
        /\ exists v, 0 <= v <= 255
           /\ nth_error d' (4 * k) = Some v
           /\ nth_error d' (4 * k + 1) = Some v
           /\ nth_error d' (4 * k + 2) = Some v)
  /\ (Forall (fun v => 0 <= v <= 255) d -> Forall (fun v => 0 <= v <= 255) d').
Proof.
  cbv zeta. unfold toGrayscale; cbn [width height data].
  destruct (grayscale_bytes_shape (data imgd)) as [H1 H2].
  split; [reflexivity|]. split; [reflexivity|]. split; [exact H1|].
  split; [exact H2|]. apply grayscale_bytes_range.
Qed.

Lemma monochrome_bytes_shape (t : Q) (d : list Z) :
  length (monochrome_bytes t d) = length d
  /\ forall k, (4 * k + 3 < length d)%nat ->
       nth_error (monochrome_bytes t d) (4 * k + 3) = nth_error d (4 * k + 3)
       /\ exists v, (v = 0 \/ v = 255)
          /\ nth_error (monochrome_bytes t d) (4 * k) = Some v
          /\ nth_error (monochrome_bytes t d) (4 * k + 1) = Some v
          /\ nth_error (monochrome_bytes t d) (4 * k + 2) = Some v.
Proof.
  induction d as [| x | x y | x y z | x y z w l [IHl IHk]] using list4_ind;
    try (split; [reflexivity|intros k Hk; cbn [length] in Hk; lia]).
  cbn [monochrome_bytes length]. split; [rewrite IHl; reflexivity|].
  intros [|k] Hk.
  - cbn. split; [reflexivity|]. eexists. split; [|auto].
    destruct (Qle_bool t (luma x y z)); auto.
  - replace (4 * S k)%nat with (S (S (S (S (4 * k)))))%nat by lia.
    cbn [Nat.add nth_error]. apply IHk. lia.
Qed.

(** [toMonochrome] keeps the dimensions and the buffer length; in every
    complete pixel the alpha byte is unchanged and the three colour bytes
    are all [0] or all [255]. *)
Theorem toMonochrome_pixels (imgd : imagedata) (t : Q) :
  let d := data imgd in
  let d' := data (toMonochrome imgd t) in
  width (toMonochrome imgd t) = width imgd /\ height (toMonochrome imgd t) = height imgd
  /\ length d' = length d
  /\ forall k, (4 * k + 3 < length d)%nat ->
       nth_error d' (4 * k + 3) = nth_error d (4 * k + 3)
       /\ exists v, (v = 0 \/ v = 255)
          /\ nth_error d' (4 * k) = Some v
          /\ nth_error d' (4 * k + 1) = Some v
          /\ nth_error d' (4 * k + 2) = Some v.
Proof.
  cbv zeta. unfold toMonochrome; cbn [width height data].
  split; [reflexivity|]. split; [reflexivity|]. apply monochrome_bytes_shape.
Qed.

Lemma luma_comp_le (t : Q) (v : Z) : Qle_bool t (luma v v v) = Qle_bool t (inject_Z v).
Proof.
  destruct (Qle_bool t (inject_Z v)) eqn:E.
  - apply Qle_bool_iff. rewrite luma_gray. apply Qle_bool_iff. exact E.
  - apply not_true_iff_false. intros H. apply Qle_bool_iff in H. rewrite luma_gray in H.
    apply Qle_bool_iff in H. congruence.
Qed.

Lemma mono_fix (t : Q) (v : Z) : (0 < t <= 255)%Q -> (v = 0 \/ v = 255) ->
  (if Qle_bool t (luma v v v) then 255 else 0) = v.
Proof.
  intros [H0 H255] [-> | ->]; rewrite luma_comp_le.
  - destruct (Qle_bool t (inject_Z 0)) eqn:E; [|reflexivity].
    apply Qle_bool_iff in E. exfalso. apply (Qlt_not_le _ _ H0). exact E.
  - destruct (Qle_bool t (inject_Z 255)) eqn:E; [reflexivity|].
    exfalso. apply not_true_iff_false in E. apply E. apply Qle_bool_iff. exact H255.
Qed.

(** [toMonochrome] with a threshold in [(0, 255]] is idempotent:
    thresholding a thresholded buffer again leaves it unchanged. *)
Theorem toMonochrome_idempotent (imgd : imagedata) (t : Q) :
  (0 < t <= 255)%Q ->
  toMonochrome (toMonochrome imgd t) t = toMonochrome imgd t.
Proof.
  intros Ht. unfold toMonochrome. cbn [width height data]. f_equal.
  induction (data imgd) as [| x | x y | x y z | x y z w l IH] using list4_ind;
    try reflexivity.
  - cbn [monochrome_bytes]. rewrite mono_fix; [reflexivity|exact Ht|].
    destruct (Qle_bool t (luma x y z)); auto.
  - cbn [monochrome_bytes]. rewrite mono_fix; [|exact Ht|].
    + rewrite IH. reflexivity.
    + destruct (Qle_bool t (luma x y z)); auto.
Qed.

Lemma toMonochrome_idempotent_witness :
  (0 < 128 <= 255)%Q
  /\ toMonochrome (toMonochrome img_2x2 128) 128 = toMonochrome img_2x2 128.
Proof.
  assert (H : (0 < 128 <= 255)%Q) by (split; vm_compute; [reflexivity|discriminate]).
  split; [exact H|]. apply toMonochrome_idempotent. exact H.
Defined.

(** ** Simplifier and emitter lemmas *)

Lemma subseq_nil_l {A} (l : list A) : subseq [] l.
Proof. induction l; [apply subseq_nil | apply subseq_skip; assumption]. Qed.

Lemma subseq_refl {A} (l : list A) : subseq l l.
Proof. induction l; [apply subseq_nil | apply subseq_take; assumption]. Qed.

Lemma subseq_app {A} (a b c d : list A) :
  subseq a c -> subseq b d -> subseq (a ++ b) (c ++ d).
Proof.
  intros H1 H2. induction H1; simpl; [exact H2|apply subseq_skip|apply subseq_take]; assumption.
Qed.

Lemma subseq_nil_r {A} (l : list A) : subseq l [] -> l = [].
Proof. intros H. inversion H. reflexivity. Qed.

Lemma subseq_removelast_snoc {A} (l c : list A) (x : A) :
  subseq l (c ++ [x]) -> subseq (removelast l) c.
Proof.
  revert l. induction c as [|y c IH]; intros l H; simpl in H.
  - inversion H as [| x' l1 l1' Hs | x' l1 l1' Hs]; subst;
      apply subseq_nil_r in Hs; subst; apply subseq_nil.
  - inversion H as [| x' l1 l1' Hs | x' l1 l1' Hs]; subst.
    + apply subseq_skip. apply IH. exact Hs.
    + destruct l1 as [|z l1].
      * apply subseq_nil_l.
      * change (removelast (y :: z :: l1)) with (y :: removelast (z :: l1)).
        apply subseq_take. apply IH. exact Hs.
Qed.

Lemma subseq_removelast {A} (l c : list A) :
  subseq l c -> subseq (removelast l) (removelast c).
Proof.
  intros H. destruct c as [|y c].
  - apply subseq_nil_r in H. subst. apply subseq_nil.
  - assert (Hc : y :: c <> []) by discriminate.
    rewrite (app_removelast_last y Hc) in H.
    exact (subseq_removelast_snoc _ _ _ H).
Qed.

Lemma subseq_ends {A} (l : list A) (d : A) :
  (2 <= length l)%nat -> subseq [nth 0 l d; nth (length l - 1) l d] l.
Proof.
  destruct l as [|x l]; simpl; [lia|]. intros H.
  rewrite Nat.sub_0_r. apply subseq_take.
  destruct l as [|y l]; simpl in H; [lia|].
  clear H. revert y. induction l as [|z l IH]; intros y.
  - simpl. apply subseq_take. apply subseq_nil.
  - apply subseq_skip. specialize (IH z). simpl in IH |- *. exact IH.
Qed.

Lemma simplifyPath_subseq_gen (fuel : nat) (pts : list point) (tol : Q) (res : list point) :
  simplifyPath fuel pts tol = Some res -> subseq res pts.
Proof.
  revert pts res. induction fuel as [|fuel IH]; intros pts res Hs.
  - destruct (Nat.le_gt_cases (length pts) 2) as [Hle|Hgt].
    + rewrite simplifyPath_short in Hs by exact Hle. injection Hs as <-. apply subseq_refl.
    + simpl in Hs. destruct (Nat.leb_spec (length pts) 2); [lia|discriminate].
  - destruct (Nat.le_gt_cases (length pts) 2) as [Hle|Hgt].
    { rewrite simplifyPath_short in Hs by exact Hle. injection Hs as <-. apply subseq_refl. }
    rewrite simplifyPath_long in Hs by exact Hgt. cbv zeta in Hs.
    assert (Hk : 0 <= snd (farthest pts (nth 0 pts (0, 0)) (nth (length pts - 1) pts (0, 0)))
                 <= Z.of_nat (length pts) - 2).
    { destruct (farthest_spec pts (nth 0 pts (0, 0)) (nth (length pts - 1) pts (0, 0)))
        as [E|[E _]]; [rewrite E; simpl; lia | lia]. }
    destruct (farthest pts _ _) as [maxDist maxIdx]. simpl in Hk.
    destruct (dist_exceeds maxDist tol).
    + set (kn := Z.to_nat maxIdx) in *.
      destruct (simplifyPath fuel (firstn (kn + 1) pts) tol) as [left0|] eqn:HL;
        [|discriminate].
      destruct (simplifyPath fuel (skipn kn pts) tol) as [right0|] eqn:HR;
        [|discriminate].
      injection Hs as <-.
      apply IH in HL. apply IH in HR.
      rewrite <- (firstn_skipn kn pts). apply subseq_app; [|exact HR].
      apply subseq_removelast in HL. rewrite Nat.add_1_r, removelast_firstn in HL by lia.
      exact HL.
    + injection Hs as <-. apply subseq_ends. lia.
Qed.

(** [simplifyPath] only drops points: every path it returns is the input
    path with some points left out and the others in their order. *)
Theorem simplifyPath_subseq (fuel : nat) (pts : list point) (tol : Q) (res : list point) :
  simplifyPath fuel pts tol = Some res -> subseq res pts.
Proof. apply simplifyPath_subseq_gen. Qed.

Lemma simplifyPath_subseq_witness :
  simplifyPath 3 [(0,0); (1,1); (2,0)] 1 = Some [(0,0); (2,0)]
  /\ subseq [(0,0); (2,0)] [(0,0); (1,1); (2,0)].
Proof.
  assert (H : simplifyPath 3 [(0,0); (1,1); (2,0)] 1 = Some [(0,0); (2,0)])
    by (vm_compute; reflexivity).
  split; [exact H|]. exact (simplifyPath_subseq 3 _ 1 _ H).
Defined.

Lemma length_removelast_pred {A} (l : list A) : length (removelast l) = (length l - 1)%nat.
Proof.
  induction l as [|x [|y l] IH]; [reflexivity|reflexivity|].
  change (removelast (x :: y :: l)) with (x :: removelast (y :: l)).
  cbn [length] in *. rewrite IH. lia.
Qed.

Lemma simplifyPath_two (fuel : nat) (pts : list point) (tol : Q) (res : list point) :
  simplifyPath fuel pts tol = Some res ->
  (2 <= length pts)%nat -> (2 <= length res)%nat.
Proof.
  revert pts res. induction fuel as [|fuel IH]; intros pts res Hs H2.
  - destruct (Nat.le_gt_cases (length pts) 2) as [Hle|Hgt].
    + rewrite simplifyPath_short in Hs by exact Hle. injection Hs as <-. exact H2.
    + simpl in Hs. destruct (Nat.leb_spec (length pts) 2); [lia|discriminate].
  - destruct (Nat.le_gt_cases (length pts) 2) as [Hle|Hgt].
    { rewrite simplifyPath_short in Hs by exact Hle. injection Hs as <-. exact H2. }
    rewrite simplifyPath_long in Hs by exact Hgt. cbv zeta in Hs.
    assert (Hk : farthest pts (nth 0 pts (0, 0)) (nth (length pts - 1) pts (0, 0)) = (0%Q, 0)
                 \/ 1 <= snd (farthest pts (nth 0 pts (0, 0)) (nth (length pts - 1) pts (0, 0)))
                      <= Z.of_nat (length pts) - 2).
    { destruct (farthest_spec pts (nth 0 pts (0, 0)) (nth (length pts - 1) pts (0, 0)))
        as [E|[E _]]; [left; exact E | right; exact E]. }
    destruct (farthest pts _ _) as [maxDist maxIdx]. simpl in Hk.
    destruct (dist_exceeds maxDist tol); [|injection Hs as <-; simpl; lia].
    set (kn := Z.to_nat maxIdx) in *.
    destruct (simplifyPath fuel (firstn (kn + 1) pts) tol) as [left0|] eqn:HL;
      [|discriminate].
    destruct (simplifyPath fuel (skipn kn pts) tol) as [right0|] eqn:HR;
      [|discriminate].
    injection Hs as <-.
    destruct Hk as [Hk|Hk].
    + (* [maxIdx = 0]: the right-hand call is on the whole path *)
      injection Hk as _ Hk. subst kn. rewrite Hk in HR. simpl in HR.
      apply IH in HR; [|exact H2]. rewrite length_app. lia.
    + apply IH in HR; [|rewrite length_skipn; lia].
      apply IH in HL; [|rewrite length_firstn; lia].
      rewrite length_app, length_removelast_pred. lia.
Qed.

(** [pathToSvg] with a tolerance [ltres >= 0]: a path gives the empty
    string exactly when it has at most one point; a longer path is
    simplified to a subsequence of its points with at least two points,
    whose scaled coordinates, formatted by [toFixed], make the path
    command when [roundcoords] is in [0 .. 100]; any other [roundcoords]
    makes [toFixed] throw a [RangeError]. *)
Theorem pathToSvg_element (path : list point) (opts : options) :
  (0 <= ltres opts)%Q ->
  (pathToSvg path opts = Some None <-> (length path <= 1)%nat)
  /\ ((2 <= length path)%nat ->
      exists s, subseq s path /\ (2 <= length s)%nat
        /\ (0 <= roundcoords opts <= 100 ->
            exists d, fmt_points opts s = Some d /\ length d = length s
              /\ pathToSvg path opts = Some (Some d))
        /\ (roundcoords opts < 0 \/ 100 < roundcoords opts ->
            pathToSvg path opts = None)).
Proof.
  intros Hl.
  assert (Hlong : (2 <= length path)%nat ->
      exists s, subseq s path /\ (2 <= length s)%nat
        /\ (0 <= roundcoords opts <= 100 ->
            exists d, fmt_points opts s = Some d /\ length d = length s
              /\ pathToSvg path opts = Some (Some d))
        /\ (roundcoords opts < 0 \/ 100 < roundcoords opts ->
            pathToSvg path opts = None)).
  { intros H2.
    destruct (simplifyPath_terminates (length path) path (ltres opts) Hl (le_n _))
      as [s Hs].
    exists s. split; [exact (simplifyPath_subseq_gen _ _ _ _ Hs)|].
    pose proof (simplifyPath_two _ _ _ _ Hs H2) as Hs2. split; [exact Hs2|].
    unfold pathToSvg. destruct path as [|p ps]; [simpl in H2; lia|].
    rewrite Hs. destruct (Nat.ltb_spec (length s) 2); [lia|]. split.
    - intros Hf. destruct (fmt_points_some opts s Hf) as [d [Ed Hd]].
      exists d. rewrite Ed. split; [reflexivity|]. split; [exact Hd|reflexivity].
    - intros Hf. rewrite fmt_points_none; [reflexivity|exact Hf|].
      intros E. rewrite E in Hs2. simpl in Hs2. lia. }
  split; [|exact Hlong]. split.
  - intros E. destruct (Nat.le_gt_cases (length path) 1) as [H|H]; [exact H|].
    destruct (Hlong ltac:(lia)) as [s [_ [_ [Hin Hout]]]].
    destruct (Z.le_gt_cases 0 (roundcoords opts)) as [H0|H0];
      [destruct (Z.le_gt_cases (roundcoords opts) 100) as [H1|H1]|].
    + destruct (Hin (conj H0 H1)) as [d [_ [_ E']]]. congruence.
    + rewrite Hout in E by lia. discriminate.
    + rewrite Hout in E by lia. discriminate.
  - intros H. destruct path as [|p [|q ps]]; simpl in H; [reflexivity| |lia].
    unfold pathToSvg. rewrite simplifyPath_short by (simpl; lia). reflexivity.
Qed.

Lemma pathToSvg_element_witness :
  (0 <= ltres defaultOptions)%Q
  /\ (pathToSvg [(0,0); (1,0)] defaultOptions = Some None
       <-> (length [(0,0); (1,0)] <= 1)%nat)
  /\ ((2 <= length [(0,0); (1,0)])%nat ->
      exists s, subseq s [(0,0); (1,0)] /\ (2 <= length s)%nat
        /\ (0 <= roundcoords defaultOptions <= 100 ->
            exists d, fmt_points defaultOptions s = Some d /\ length d = length s
              /\ pathToSvg [(0,0); (1,0)] defaultOptions = Some (Some d))
        /\ (roundcoords defaultOptions < 0 \/ 100 < roundcoords defaultOptions ->
            pathToSvg [(0,0); (1,0)] defaultOptions = None)).
Proof.
  assert (H : (0 <= ltres defaultOptions)%Q) by (vm_compute; discriminate).
  split; [exact H|]. exact (pathToSvg_element [(0,0); (1,0)] defaultOptions H).
Defined.

Lemma pathToSvg_some (path : list point) (opts : options) (d : list (Q * Q)) :
  pathToSvg path opts = Some (Some d) ->
  exists s, subseq s path /\ (2 <= length s)%nat /\ fmt_points opts s = Some d.
Proof.
  unfold pathToSvg. destruct path as [|p ps]; [discriminate|].
  destruct (simplifyPath _ _ _) as [s|] eqn:Hs; [|discriminate].
  destruct (Nat.ltb_spec (length s) 2); [discriminate|].
  destruct (fmt_points opts s) as [d'|] eqn:Ed; [|discriminate].
  intros E. injection E as <-.
  exists s. split; [exact (simplifyPath_subseq_gen _ _ _ _ Hs)|]. split; [lia|exact Ed].
Qed.

Lemma emit_paths_items (fill : color) (paths : list (list point)) (opts : options)
  (items : list svg_item) :
  emit_paths fill paths opts = Some items ->
  forall it, In it items ->
    exists P d, it = SvgPath fill d /\ In P paths /\ pathToSvg P opts = Some (Some d).
Proof.
  revert items. induction paths as [|P ps IH]; intros items E it Hit; cbn [emit_paths] in E.
  - injection E as <-. destruct Hit.
  - destruct (pathToSvg P opts) as [[d|]|] eqn:EP; [| |discriminate].
    + destruct (emit_paths fill ps opts) as [items'|] eqn:E'; [|discriminate].
      injection E as <-. destruct Hit as [<-|Hit].
      * exists P, d. split; [reflexivity|]. split; [left; reflexivity|exact EP].
      * destruct (IH items' eq_refl it Hit) as [P' [d' [H1 [H2 H3]]]].
        exists P', d'. split; [exact H1|]. split; [right; exact H2|exact H3].
    + destruct (IH items E it Hit) as [P' [d' [H1 [H2 H3]]]].
      exists P', d'. split; [exact H1|]. split; [right; exact H2|exact H3].
Qed.

Lemma emit_layers_items (layers : list layer) (opts : options) (items : list svg_item) :
  emit_layers layers opts = Some items ->
  forall it, In it items ->
    exists L P d, it = SvgPath (l_color L) d /\ In L layers /\ In P (tracePaths L opts)
                  /\ pathToSvg P opts = Some (Some d).
Proof.
  revert items. induction layers as [|L Ls IH]; intros items E it Hit;
    cbn [emit_layers] in E.
  - injection E as <-. destruct Hit.
  - destruct (emit_paths (l_color L) (tracePaths L opts) opts) as [its|] eqn:E1;
      [|discriminate].
    destruct (emit_layers Ls opts) as [rest|] eqn:E2; [|discriminate].
    injection E as <-. apply in_app_or in Hit as [Hit|Hit].
    + destruct (emit_paths_items _ _ _ _ E1 it Hit) as [P [d [H1 [H2 H3]]]].
      exists L, P, d. split; [exact H1|]. split; [left; reflexivity|]. auto.
    + destruct (IH rest eq_refl it Hit) as [L' [P [d [H1 [H2 H3]]]]].
      exists L', P, d. split; [exact H1|]. split; [right; exact H2|exact H3].
Qed.

(** [generateSvg]: the document holds a [<desc>] element exactly when the
    [desc] option is set, and every [<path>] element has the colour of one
    of the layers and, as its coordinates, the scaled points, formatted by
    [toFixed], of a subsequence, of at least two points, of a path traced
    in that layer. *)
Theorem generateSvg_items (layers : list layer) (w h : Z) (opts : options) (doc : svg_doc) :
  generateSvg layers w h opts = Some doc ->
  (In SvgDesc (doc_items doc) <-> desc opts = true)
  /\ forall fill d, In (SvgPath fill d) (doc_items doc) ->
       exists L P s, In L layers /\ fill = l_color L /\ In P (tracePaths L opts)
         /\ subseq s P /\ (2 <= length s)%nat
         /\ fmt_points opts s = Some d.
Proof.
  unfold generateSvg. destruct (emit_layers layers opts) as [items|] eqn:E; [|discriminate].
  cbv zeta. intros Hd. injection Hd as <-. cbn [doc_items].
  split.
  - split.
    + intros Hin. destruct (desc opts); [reflexivity|].
      destruct (emit_layers_items _ _ _ E SvgDesc Hin) as [L [P [d [H _]]]]. discriminate.
    + intros ->. left. reflexivity.
  - intros fill d Hin. apply in_app_or in Hin as [Hin|Hin].
    + destruct (desc opts); simpl in Hin; [destruct Hin as [Hin|[]]; discriminate|contradiction].
    + destruct (emit_layers_items _ _ _ E _ Hin) as [L [P [d' [H1 [H2 [H3 H4]]]]]].
      injection H1 as -> <-.
      destruct (pathToSvg_some _ _ _ H4) as [s [Hs1 [Hs2 Hs3]]].
      exists L, P, s. repeat split; assumption.
Qed.

Lemma generateSvg_items_witness :
  exists doc,
    generateSvg (layers_of img_2x2 (with_pathomit opts_2x2 0)) 2 2 (with_pathomit opts_2x2 0)
      = Some doc
    /\ (In SvgDesc (doc_items doc) <-> desc (with_pathomit opts_2x2 0) = true)
    /\ forall fill d, In (SvgPath fill d) (doc_items doc) ->
       exists L P s, In L (layers_of img_2x2 (with_pathomit opts_2x2 0)) /\ fill = l_color L
         /\ In P (tracePaths L (with_pathomit opts_2x2 0))
         /\ subseq s P /\ (2 <= length s)%nat
         /\ fmt_points (with_pathomit opts_2x2 0) s = Some d.
Proof.
  eexists. split; [vm_compute; reflexivity|].
  apply (generateSvg_items _ 2 2). vm_compute. reflexivity.
Defined.

(** ** Blur lemmas *)

Lemma length_list_set {A} (l : list A) (i : Z) (v : A) : length (list_set l i v) = length l.
Proof.
  unfold list_set. destruct (i <? 0); [reflexivity|].
  generalize (Z.to_nat i). induction l as [|x l IH]; intros [|n]; simpl; auto.
Qed.

Lemma Forall_list_set {A} (P : A -> Prop) (l : list A) (i : Z) (v : A) :
  Forall P l -> P v -> Forall P (list_set l i v).
Proof.
  unfold list_set. intros Hl Hv. destruct (i <? 0); [exact Hl|].
  generalize (Z.to_nat i). induction Hl as [|x l Hx Hl IH]; intros [|n]; simpl;
    constructor; auto.
Qed.

Lemma to_uint8_clamp_range (v : option R) : 0 <= to_uint8_clamp v <= 255.
Proof.
  unfold to_uint8_clamp. destruct v as [x|]; [|lia].
  destruct (Rle_dec x 0); [lia|]. destruct (Rle_dec 255 x); [lia|].
  destruct (base_Int_part x) as [H1 H2].
  assert (Hf0 : 0 <= Int_part x).
  { assert (H : (IZR (-1) < IZR (Int_part x))%R) by lra.
    apply lt_IZR in H. lia. }
  assert (Hf1 : Int_part x <= 254).
  { assert (H : (IZR (Int_part x) < 255)%R) by lra.
    apply lt_IZR in H. lia. }
  destruct (Rlt_dec _ x); [lia|]. destruct (Rlt_dec x _); [lia|].
  destruct (Z.even _); lia.
Qed.

Lemma fold_left_invariant {A B} (P : B -> Prop) (f : B -> A -> B) (l : list A) (b0 : B) :
  (forall b x, P b -> P (f b x)) -> P b0 -> P (fold_left f l b0).
Proof. intros Hf. revert b0. induction l as [|x l IH]; intros b0 H; simpl; auto. Qed.

Lemma blur_pass_shape (hz : bool) (w h radius : Z) (kern : list R) (src dst : list Z) :
  length (blur_pass hz w h radius kern src dst) = length dst
  /\ (Forall (fun v => 0 <= v <= 255) dst ->
      Forall (fun v => 0 <= v <= 255) (blur_pass hz w h radius kern src dst)).
Proof.
  unfold blur_pass. split.
  - apply (fold_left_invariant (fun d => length d = length dst)); [|reflexivity].
    intros d [x y] Hd. apply (fold_left_invariant (fun d' => length d' = length dst));
      [|exact Hd].
    intros d' c Hd'. rewrite length_list_set. exact Hd'.
  - intros Hdst. apply (fold_left_invariant (Forall (fun v => 0 <= v <= 255)));
      [|exact Hdst].
    intros d [x y] Hd. apply fold_left_invariant; [|exact Hd].
    intros d' c Hd'. apply Forall_list_set; [exact Hd'|apply to_uint8_clamp_range].
Qed.

(** [blur] keeps the dimensions and the buffer length, and a buffer of
    bytes stays a buffer of bytes. *)
Theorem blur_shape (imgd : imagedata) (radius : Z) :
  width (blur imgd radius) = width imgd /\ height (blur imgd radius) = height imgd
  /\ length (data (blur imgd radius)) = length (data imgd)
  /\ (Forall (fun v => 0 <= v <= 255) (data imgd) ->
      Forall (fun v => 0 <= v <= 255) (data (blur imgd radius))).
Proof.
  unfold blur. destruct (radius <? 1); [auto|]. cbv zeta. cbn [width height data].
  destruct (blur_pass_shape false (width imgd) (height imgd) radius (blur_kernel radius)
              (blur_pass true (width imgd) (height imgd) radius (blur_kernel radius)
                 (data imgd) (data imgd)) (data imgd)) as [H1 H2].
  split; [reflexivity|]. split; [reflexivity|]. split; [exact H1|exact H2].
Qed.

Open Scope R_scope.

Lemma fold_Rplus_shift (l : list R) (s : R) : fold_left Rplus l s = s + fold_left Rplus l 0.
Proof.
  revert s. induction l as [|x l IH]; intros s; simpl; [ring|].
  rewrite IH, (IH (0 + x)). ring.
Qed.

Lemma fold_Rplus_div (l : list R) (d : R) :
  d <> 0 -> fold_left Rplus (map (fun v => v / d) l) 0 = fold_left Rplus l 0 / d.
Proof.
  intros Hd. induction l as [|x l IH]; simpl; [unfold Rdiv; ring|].
  rewrite (fold_Rplus_shift _ (0 + x / d)), IH, (fold_Rplus_shift l (0 + x)).
  unfold Rdiv; ring.
Qed.

Lemma fold_Rplus_pos (l : list R) :
  l <> [] -> Forall (fun v => 0 < v) l -> 0 < fold_left Rplus l 0.
Proof.
  intros Hne Hl. destruct l as [|x l]; [congruence|]. simpl.
  rewrite fold_Rplus_shift. apply Forall_cons_iff in Hl as [Hx Hl].
  assert (H : 0 <= fold_left Rplus l 0).
  { clear Hne. induction Hl as [|y l Hy Hl IH]; simpl; [lra|].
    rewrite fold_Rplus_shift. lra. }
  lra.
Qed.

Lemma blur_kernel_sum (radius : Z) :
  (length (blur_kernel radius) = Z.to_nat (2 * radius + 1))%nat
  /\ ((1 <= radius)%Z -> fold_left Rplus (blur_kernel radius) 0 = 1).
Proof.
  unfold blur_kernel. cbv zeta.
  set (raw := map _ (seqZ 0 (2 * radius + 1))).
  split; [unfold raw; rewrite !length_map, length_seqZ; reflexivity|].
  intros Hr.
  assert (Hpos : 0 < fold_left Rplus raw 0).
  { apply fold_Rplus_pos.
    - unfold raw, seqZ. replace (Z.to_nat (2 * radius + 1)) with (S (Z.to_nat (2 * radius)))
        by lia. discriminate.
    - unfold raw. apply Forall_forall. intros v Hv. apply in_map_iff in Hv as [i [<- _]].
      apply exp_pos. }
  rewrite fold_Rplus_div by lra. unfold Rdiv. apply Rinv_r. lra.
Qed.

Lemma fold_blur_acc (l : list Z) (rd : Z -> option Z) (kk : Z -> R) (v : Z) (s0 : R) :
  (forall k, In k l -> rd k = Some v) ->
  fold_left (fun acc k => blur_acc acc (rd k) (kk k)) l (Some s0)
  = Some (fold_left (fun s k => s + IZR v * kk k) l s0).
Proof.
  revert s0. induction l as [|k l IH]; intros s0 Hl; simpl; [reflexivity|].
  rewrite (Hl k (or_introl eq_refl)). simpl. apply IH. intros k' Hk'. apply Hl. right. exact Hk'.
Qed.

Lemma sum_nth_seq (a : R) (pre L : list R) (s : R) :
  fold_left (fun s k => s + a * nth k (pre ++ L) 0) (seq (length pre) (length L)) s
  = s + a * fold_left Rplus L 0.
Proof.
  revert pre s. induction L as [|x L IH]; intros pre s; simpl; [ring|].
  rewrite app_nth2 by lia. rewrite Nat.sub_diag. simpl.
  replace (pre ++ x :: L) with ((pre ++ [x]) ++ L) by (rewrite <- app_assoc; reflexivity).
  replace (S (length pre)) with (length (pre ++ [x])) by (rewrite length_app; simpl; lia).
  rewrite IH. rewrite (fold_Rplus_shift L (0 + x)). ring.
Qed.

Lemma sum_kernel (kern : list R) (a : R) (n : Z) :
  length kern = Z.to_nat n ->
  fold_left (fun s k => s + a * nth (Z.to_nat k) kern 0) (seqZ 0 n) 0
  = a * fold_left Rplus kern 0.
Proof.
  intros Hl. unfold seqZ. rewrite <- Hl.
  assert (E : forall (l : list nat) s,
    fold_left (fun s k => s + a * nth (Z.to_nat k) kern 0) (map (fun k => (0 + Z.of_nat k)%Z) l) s
    = fold_left (fun s k => s + a * nth k kern 0) l s).
  { induction l as [|k l IH]; intros s; simpl; [reflexivity|].
    rewrite IH. f_equal. f_equal. f_equal. f_equal. lia. }
  rewrite E. pose proof (sum_nth_seq a [] kern 0) as H. simpl in H. rewrite H. ring.
Qed.

Lemma to_uint8_clamp_IZR (v : Z) : (0 <= v <= 255)%Z -> to_uint8_clamp (Some (IZR v)) = v.
Proof.
  intros Hv. unfold to_uint8_clamp.
  destruct (Rle_dec (IZR v) 0) as [H0|H0].
  { apply le_IZR in H0. lia. }
  destruct (Rle_dec 255 (IZR v)) as [H1|H1].
  { apply le_IZR in H1. lia. }
  assert (Hf : Int_part (IZR v) = v).
  { destruct (base_Int_part (IZR v)) as [H2 H3].
    apply le_IZR in H2.
    assert (H4 : (IZR (v - 1) < IZR (Int_part (IZR v))))
      by (rewrite minus_IZR; lra).
    apply lt_IZR in H4. lia. }
  rewrite Hf.
  destruct (Rlt_dec (IZR v + / 2) (IZR v)); [lra|].
  destruct (Rlt_dec (IZR v) (IZR v + / 2)); [reflexivity|lra].
Qed.

Lemma list_set_same {A} (l : list A) (i : Z) (v : A) : nthZ l i = Some v -> list_set l i v = l.
Proof.
  unfold nthZ, list_set. destruct (i <? 0)%Z; [discriminate|].
  generalize (Z.to_nat i). induction l as [|x l IH]; intros [|n] H; simpl in *;
    try discriminate; [injection H as ->; reflexivity|]. rewrite IH by exact H. reflexivity.
Qed.

Lemma nthZ_uniform (px : list Z) (n : nat) (i c : Z) :
  length px = 4%nat -> (0 <= i < Z.of_nat n)%Z -> (0 <= c < 4)%Z ->
  nthZ (concat (repeat px n)) (i * 4 + c) = nth_error px (Z.to_nat c).
Proof.
  intros Hpx Hi Hc. unfold nthZ. destruct (Z.ltb_spec (i * 4 + c) 0); [lia|].
  replace (Z.to_nat (i * 4 + c)) with (Z.to_nat i * 4 + Z.to_nat c)%nat by lia.
  assert (Hi' : (Z.to_nat i < n)%nat) by lia. clear Hi H.
  revert Hi'. generalize (Z.to_nat i) as k. intros k Hk. revert k Hk.
  induction n as [|n IH]; intros k Hk; [lia|]. cbn [repeat concat].
  destruct k as [|k].
  - rewrite nth_error_app1 by lia. reflexivity.
  - rewrite nth_error_app2 by lia. rewrite Hpx.
    replace (S k * 4 + Z.to_nat c - 4)%nat with (k * 4 + Z.to_nat c)%nat by lia.
    apply IH. lia.
Qed.

Lemma in_coords (w h x y : Z) : In (x, y) (coords w h) -> (0 <= x < w /\ 0 <= y < h)%Z.
Proof.
  unfold coords. intros H. apply in_flat_map in H as [y' [Hy H]].
  apply in_map_iff in H as [x' [E Hx]]. injection E as <- <-.
  apply in_seqZ in Hx, Hy. lia.
Qed.

Lemma fold_left_invariant_in {A B} (P : B -> Prop) (f : B -> A -> B) (l : list A) (b0 : B) :
  (forall b x, In x l -> P b -> P (f b x)) -> P b0 -> P (fold_left f l b0).
Proof.
  revert b0. induction l as [|x l IH]; intros b0 Hf H; simpl; [exact H|].
  apply IH; [intros b x' Hx'; apply Hf; right; exact Hx'|]. apply Hf; [left; reflexivity|exact H].
Qed.

Lemma blur_sum_uniform (hz : bool) (w h radius : Z) (kern : list R) (px : list Z)
  (x y c v : Z) :
  length px = 4%nat -> length kern = Z.to_nat (2 * radius + 1) ->
  fold_left Rplus kern 0 = 1 ->
  (0 <= x < w)%Z -> (0 <= y < h)%Z -> (0 <= c < 4)%Z ->
  nth_error px (Z.to_nat c) = Some v ->
  blur_sum hz w h radius kern (concat (repeat px (Z.to_nat (w * h)))) x y c = Some (IZR v).
Proof.
  intros Hpx Hk Hs Hx Hy Hc Hv. unfold blur_sum.
  rewrite (fold_blur_acc _ _ (fun k => nth (Z.to_nat k) kern 0) v 0).
  - f_equal. rewrite sum_kernel by exact Hk. rewrite Hs. ring.
  - intros k _. destruct hz.
    + rewrite nthZ_uniform; [exact Hv|exact Hpx| |exact Hc]. nia.
    + rewrite nthZ_uniform; [exact Hv|exact Hpx| |exact Hc]. nia.
Qed.

Lemma blur_pass_uniform (hz : bool) (w h radius : Z) (kern : list R) (px : list Z) :
  length px = 4%nat -> Forall (fun v => 0 <= v <= 255)%Z px ->
  length kern = Z.to_nat (2 * radius + 1) -> fold_left Rplus kern 0 = 1 ->
  let U := concat (repeat px (Z.to_nat (w * h))) in
  blur_pass hz w h radius kern U U = U.
Proof.
  intros Hpx Hb Hk Hs U. unfold blur_pass.
  apply (fold_left_invariant_in (fun d => d = U)); [|reflexivity].
  intros d [x y] Hxy ->. apply in_coords in Hxy as [Hx Hy].
  apply (fold_left_invariant_in (fun d => d = U)); [|reflexivity].
  intros d c Hc ->.
  assert (Hc' : (0 <= c < 4)%Z) by (destruct Hc as [<-|[<-|[<-|[<-|[]]]]]; lia).
  destruct (nth_error px (Z.to_nat c)) as [v|] eqn:Hv.
  2:{ apply nth_error_None in Hv. lia. }
  assert (Hvb : (0 <= v <= 255)%Z).
  { rewrite Forall_forall in Hb. apply Hb. eapply nth_error_In. exact Hv. }
  unfold U. rewrite (blur_sum_uniform hz w h radius kern px x y c v) by assumption.
  rewrite to_uint8_clamp_IZR by exact Hvb.
  apply list_set_same. rewrite nthZ_uniform; [exact Hv|exact Hpx| |exact Hc']. nia.
Qed.

(** [blur] leaves an image of one colour unchanged: when every pixel of
    the [width * height] pixels holds the same four bytes, blurring with
    any radius gives back the same buffer. *)
Theorem blur_uniform (imgd : imagedata) (radius : Z) (px : list Z) :
  length px = 4%nat -> Forall (fun v => 0 <= v <= 255)%Z px ->
  data imgd = concat (repeat px (Z.to_nat (width imgd * height imgd))) ->
  blur imgd radius = imgd.
Proof.
  intros Hpx Hb Hd. unfold blur. destruct (Z.ltb_spec radius 1) as [Hr|Hr]; [reflexivity|].
  destruct (blur_kernel_sum radius) as [Hk Hs]. specialize (Hs Hr). cbv zeta.
  rewrite Hd. rewrite !blur_pass_uniform by assumption.
  destruct imgd as [w h d]. cbn [width height data] in *. rewrite Hd. reflexivity.
Qed.

Lemma blur_uniform_witness :
  (length [10; 20; 30; 255]%Z = 4%nat /\ Forall (fun v => 0 <= v <= 255)%Z [10; 20; 30; 255]%Z
   /\ data (mkImageData 2 1 [10; 20; 30; 255; 10; 20; 30; 255]%Z)
      = concat (repeat [10; 20; 30; 255]%Z
          (Z.to_nat (width (mkImageData 2 1 [10; 20; 30; 255; 10; 20; 30; 255]%Z)
                     * height (mkImageData 2 1 [10; 20; 30; 255; 10; 20; 30; 255]%Z)))))
  /\ blur (mkImageData 2 1 [10; 20; 30; 255; 10; 20; 30; 255]%Z) 1
     = mkImageData 2 1 [10; 20; 30; 255; 10; 20; 30; 255]%Z.
Proof.
  assert (Hb : Forall (fun v => 0 <= v <= 255)%Z [10; 20; 30; 255]%Z)
    by (repeat constructor; lia).
  split; [split; [reflexivity|split; [exact Hb|reflexivity]]|].
  apply (blur_uniform _ 1 [10; 20; 30; 255]%Z); [reflexivity|exact Hb|reflexivity].
Defined.

Close Scope R_scope.

(** ** Layer and colour-mode lemmas *)

Lemma flat_map_filter {A B} (f : A -> bool) (g : A -> B) (l : list A) :
  flat_map (fun x => if f x then [g x] else []) l = map g (filter f l).
Proof.
  induction l as [|x l IH]; [reflexivity|]. simpl. destruct (f x); simpl; congruence.
Qed.

Lemma NoDup_map_on {A B} (f : A -> B) (l : list A) :
  (forall x y, In x l -> In y l -> f x = f y -> x = y) -> NoDup l -> NoDup (map f l).
Proof.
  intros Hinj Hl. induction Hl as [|x l Hx Hl IH]; simpl; constructor.
  - intros Hin. apply in_map_iff in Hin as [y [Ey Hy]].
    assert (y = x) by (apply Hinj; simpl; auto). subst. contradiction.
  - apply IH. intros u v Hu Hv. apply Hinj; simpl; auto.
Qed.

(** The masks of two indices are equal only for equal indices, when the
    first one occurs in the array. *)
Lemma mask_inj (arr : list Z) (j1 j2 : Z) :
  In j1 arr ->
  map (fun v => if v =? j1 then 1 else 0) arr = map (fun v => if v =? j2 then 1 else 0) arr ->
  j1 = j2.
Proof.
  intros Hin E. apply In_nth_error in Hin as [k Hk].
  assert (E2 := f_equal (fun l => nth_error l k) E). cbv beta in E2.
  rewrite !nth_error_map, Hk in E2. simpl in E2. rewrite Z.eqb_refl in E2.
  destruct (Z.eqb_spec j1 j2); [exact e|discriminate].
Qed.

(** [layerSeparation] emits exactly one layer per palette index used by
    the indexed image: as many layers as distinct indices in
    [0 .. palette.length - 1] occur, with pairwise different masks, and
    the layer of index [j] has the mask that is [1] exactly at the pixels
    of index [j] and the colour [palette[j]]. *)
Theorem layerSeparation_one_per_index (ix : indexed_image) (palette : list color) :
  let layers := layerSeparation ix palette in
  let used := nodup Z.eq_dec
                (filter (fun v => (0 <=? v) && (v <? Z.of_nat (length palette))) (ix_array ix)) in
  length layers = length used
  /\ NoDup (map l_array layers)
  /\ (forall L, In L layers <->
        exists j, In j used
          /\ L = mkLayer (map (fun v => if v =? j then 1 else 0) (ix_array ix))
                   (ix_width ix) (ix_height ix) (nth (Z.to_nat j) palette gray_entry)).
Proof.
  intros layers used.
  set (n := Z.of_nat (length palette)).
  set (mk := fun j => mkLayer (map (fun v => if v =? j then 1 else 0) (ix_array ix))
                        (ix_width ix) (ix_height ix) (nth (Z.to_nat j) palette gray_entry)).
  set (J := filter (fun j => existsb (fun v => v =? j) (ix_array ix)) (seqZ 0 n)).
  assert (HL : layers = map mk J).
  { unfold layers, layerSeparation, J. fold n. rewrite <- flat_map_filter.
    reflexivity. }
  assert (HJ : forall j, In j J <-> In j used).
  { intros j. unfold J, used. rewrite filter_In, nodup_In, filter_In, in_seqZ.
    rewrite existsb_exists. split.
    - intros [Hr [v [Hv Ev]]]. apply Z.eqb_eq in Ev. subst v. split; [exact Hv|].
      apply andb_true_intro. split; [apply Z.leb_le|apply Z.ltb_lt]; lia.
    - intros [Hv Hr]. apply andb_prop in Hr as [H1 H2].
      apply Z.leb_le in H1. apply Z.ltb_lt in H2. split; [lia|].
      exists j. split; [exact Hv|apply Z.eqb_refl]. }
  assert (HJnd : NoDup J) by (apply NoDup_filter, seqZ_NoDup).
  assert (HJin : forall j, In j J -> In j (ix_array ix)).
  { intros j Hj. apply HJ in Hj. unfold used in Hj.
    apply nodup_In, filter_In in Hj. tauto. }
  split; [|split].
  - rewrite HL, length_map. apply Nat.le_antisymm.
    + apply NoDup_incl_length; [exact HJnd|]. intros j Hj. apply HJ. exact Hj.
    + apply NoDup_incl_length; [apply NoDup_nodup|]. intros j Hj. apply HJ. exact Hj.
  - rewrite HL, map_map. apply NoDup_map_on; [|exact HJnd].
    intros j1 j2 H1 H2 E. exact (mask_inj _ _ _ (HJin j1 H1) E).
  - intros L. rewrite HL, in_map_iff. split.
    + intros [j [<- Hj]]. exists j. split; [apply HJ; exact Hj|reflexivity].
    + intros [j [Hj ->]]. exists j. split; [reflexivity|apply HJ; exact Hj].
Qed.

Lemma collect_grayscale (d : list Z) :
  forall c, In c (collect_pixels (grayscale_bytes d)) -> is_gray c.
Proof.
  induction d as [| x | x y | x y z | x y z w l IH] using list4_ind; intros c Hc;
    cbn [grayscale_bytes collect_pixels] in Hc; try contradiction.
  apply in_app_or in Hc as [Hc|Hc]; [|exact (IH c Hc)].
  destruct (0 <? w); [|contradiction]. destruct Hc as [<-|[]]. split; reflexivity.
Qed.

Lemma collect_monochrome (t : Q) (d : list Z) :
  forall c, In c (collect_pixels (monochrome_bytes t d)) -> is_gray c.
Proof.
  induction d as [| x | x y | x y z | x y z w l IH] using list4_ind; intros c Hc;
    cbn [monochrome_bytes collect_pixels] in Hc; try contradiction.
  apply in_app_or in Hc as [Hc|Hc]; [|exact (IH c Hc)].
  destruct (0 <? w); [|contradiction]. destruct Hc as [<-|[]]. split; reflexivity.
Qed.

Lemma sum_chan_ext (f f' : color -> Z) (box : list color) :
  (forall p, In p box -> f p = f' p) -> sum_chan f box = sum_chan f' box.
Proof.
  unfold sum_chan. generalize 0. induction box as [|p box IH]; intros acc H; simpl; [reflexivity|].
  rewrite (H p (or_introl eq_refl)). apply IH. intros q Hq. apply H. right. exact Hq.
Qed.

Lemma medianCut_gray (pixels : list color) (N : Z) :
  (forall p, In p pixels -> is_gray p) ->
  forall c, In c (medianCut pixels N) -> is_gray c.
Proof.
  intros H c Hc. unfold medianCut in Hc.
  destruct (Nat.eqb (length pixels) 0 || (N <? 1))%bool.
  { destruct Hc as [<-|[]]. split; reflexivity. }
  apply in_map_iff in Hc as [box [<- Hbox]].
  destruct (medianCut_loop_spec (Z.to_nat N) N (Z.of_nat (length pixels)) [pixels])
    as [_ [_ [Hperm _]]].
  cbn [concat] in Hperm. rewrite app_nil_r in Hperm.
  assert (Hb : forall p, In p box -> is_gray p).
  { intros p Hp. apply H. apply (Permutation_in _ Hperm). apply in_concat. eauto. }
  destruct box as [|p0 ps]; [split; reflexivity|].
  unfold box_average. cbv zeta. unfold is_gray. cbn [r g b].
  rewrite (sum_chan_ext r g) by (intros p Hp; apply Hb, Hp).
  rewrite (sum_chan_ext g b) by (intros p Hp; apply Hb, Hp).
  split; reflexivity.
Qed.

Lemma quantize_gray (imgd : imagedata) (opts : options) :
  (forall p, In p (collect_pixels (data imgd)) -> is_gray p) ->
  forall c, In c (quantize imgd opts) -> is_gray c.
Proof.
  intros H c Hc. unfold quantize in Hc.
  destruct (collect_pixels (data imgd)) as [|p ps] eqn:Ep.
  - destruct Hc as [<-|[]]. split; reflexivity.
  - rewrite <- Ep in Hc, H. exact (medianCut_gray _ _ H c Hc).
Qed.

Lemma layer_color_from (ix : indexed_image) (palette : list color) (L : layer) :
  In L (layerSeparation ix palette) -> l_color L = gray_entry \/ In (l_color L) palette.
Proof.
  unfold layerSeparation. rewrite in_flat_map. intros [j [_ HL]]. unfold layer_for in HL.
  destruct (existsb _ _); [|destruct HL]. destruct HL as [<-|[]]. cbn [l_color].
  destruct (Nat.lt_ge_cases (Z.to_nat j) (length palette)) as [Hj|Hj].
  - right. apply nth_In. exact Hj.
  - left. apply nth_overflow. exact Hj.
Qed.

(** [trace] in the [grayscale] and [monochrome] colour modes: every
    [<path>] element of the document is filled with a gray, its red, green
    and blue components equal. *)
Theorem trace_gray_fills (imgd : imagedata) (opts : options) (doc : svg_doc) :
  (colorMode opts = "grayscale"%string \/ colorMode opts = "monochrome"%string) ->
  fst (trace imgd opts) = Some doc ->
  forall fill d, In (SvgPath fill d) (doc_items doc) -> is_gray fill.
Proof.
  intros Hm. unfold trace.
  destruct (preprocess imgd opts) as [imgd1 opts1] eqn:Ep. cbn [fst].
  assert (Hg : forall p, In p (collect_pixels (data imgd1)) -> is_gray p).
  { unfold preprocess in Ep.
    destruct Hm as [Hm|Hm]; rewrite Hm in Ep; cbn in Ep; injection Ep as <- <-;
      cbn [data toGrayscale toMonochrome].
    - apply collect_grayscale.
    - apply collect_monochrome. }
  set (pal := quantize imgd1 opts1).
  unfold generateSvg. destruct (emit_layers _ opts1) as [items|] eqn:E; [|discriminate].
  cbv zeta. intros Hd. injection Hd as <-. cbn [doc_items].
  intros fill d Hin. apply in_app_or in Hin as [Hin|Hin].
  { destruct (desc opts1); simpl in Hin; [destruct Hin as [Hin|[]]; discriminate|contradiction]. }
  destruct (emit_layers_items _ _ _ E _ Hin) as [L [P [d' [H1 [H2 _]]]]].
  injection H1 as -> _.
  destruct (layer_color_from _ _ _ H2) as [->|Hc]; [split; reflexivity|].
  exact (quantize_gray imgd1 opts1 Hg _ Hc).
Qed.

Lemma trace_gray_fills_witness :
  exists doc,
    (colorMode opts_gray = "grayscale"%string \/ colorMode opts_gray = "monochrome"%string)
    /\ fst (trace img_2x2 opts_gray) = Some doc
    /\ forall fill d, In (SvgPath fill d) (doc_items doc) -> is_gray fill.
Proof.
  assert (Hm : colorMode opts_gray = "grayscale"%string \/
               colorMode opts_gray = "monochrome"%string) by (left; reflexivity).
  eexists. split; [exact Hm|]. split; [vm_compute; reflexivity|].
  apply (trace_gray_fills img_2x2 opts_gray); [exact Hm|vm_compute; reflexivity].
Defined.

(** ** Lemmas on the sibling implementation *)


Lemma scan_box_big (i : Z) (box : list color) (st : Z * Z * channel) :
  scan_box i box st = st
  \/ (mb_of (scan_box i box st) = i /\ (2 <= length box)%nat).
Proof.
  destruct (scan_box_spec i box st) as [[E|[E _]] _]; [now left|].
  unfold scan_box in *.
  destruct (Z.ltb_spec (Z.of_nat (length box)) 2) as [Hl|Hl]; [now left|].
  right. split; [exact E|lia].
Qed.

Lemma scan_boxes_big (boxes : list (list color)) (i : Z) (st : Z * Z * channel) :
  scan_boxes i boxes st = st
  \/ (i <= mb_of (scan_boxes i boxes st)
      /\ exists bx, nth_error boxes (Z.to_nat (mb_of (scan_boxes i boxes st) - i))
                    = Some bx /\ (2 <= length bx)%nat).
Proof.
  revert i st. induction boxes as [|box boxes IH]; intros i st; simpl; [now left|].
  destruct (IH (i + 1) (scan_box i box st)) as [E|[Hle [bx [Hn Hl]]]].
  - rewrite E. destruct (scan_box_big i box st) as [E'|[Hm Hl]]; [now left|].
    right. rewrite Hm. split; [lia|]. exists box.
    replace (i - i) with 0 by lia. split; [reflexivity|exact Hl].
  - right. split; [lia|]. exists bx.
    replace (Z.to_nat (mb_of (scan_boxes (i + 1) boxes (scan_box i box st)) - i))
      with (S (Z.to_nat (mb_of (scan_boxes (i + 1) boxes (scan_box i box st)) - (i + 1))))
      by lia.
    split; assumption.
Qed.

Lemma Forall_firstn_skipn {A} (P : A -> Prop) (l : list A) (k : nat) :
  Forall P l -> Forall P (firstn k l) /\ Forall P (skipn k l).
Proof.
  intros H. rewrite <- (firstn_skipn k l) in H. apply Forall_app in H. exact H.
Qed.

Lemma split_box_nonempty (boxes : list (list color)) (mb : Z) (ch : channel) (bx : list color) :
  Forall (fun bx => bx <> []) boxes -> 0 <= mb ->
  nth_error boxes (Z.to_nat mb) = Some bx -> (2 <= length bx)%nat ->
  Forall (fun bx => bx <> []) (split_box boxes mb ch).
Proof.
  intros Hf Hmb Hn Hl. unfold split_box.
  rewrite (nth_error_nth boxes (Z.to_nat mb) [] Hn).
  pose proof (Permutation_length (sort_by_perm ch bx)) as Hp.
  set (sorted := sort_by ch bx) in *.
  destruct (Forall_firstn_skipn _ boxes (Z.to_nat mb) Hf) as [H1 _].
  destruct (Forall_firstn_skipn _ boxes (S (Z.to_nat mb)) Hf) as [_ H2].
  apply Forall_app. split; [exact H1|].
  apply Forall_app. split; [|exact H2].
  pose proof (Nat.div_mod (length sorted) 2 ltac:(lia)) as Hd.
  pose proof (Nat.mod_upper_bound (length sorted) 2 ltac:(lia)) as Hu.
  assert (Hm1 : (1 <= length sorted / 2)%nat) by lia.
  assert (Hm2 : (length sorted / 2 < length sorted)%nat) by lia.
  constructor; [|constructor; [|constructor]].
  - intros E. apply (f_equal (@length color)) in E.
    rewrite length_firstn in E. cbn [length] in E. lia.
  - intros E. apply (f_equal (@length color)) in E.
    rewrite length_skipn in E. cbn [length] in E. lia.
Qed.

Lemma concat_long_box (boxes : list (list color)) :
  Forall (fun bx => bx <> []) boxes ->
  (length boxes <= length (concat boxes))%nat
  /\ ((exists bx, In bx boxes /\ (2 <= length bx)%nat) ->
      (length boxes < length (concat boxes))%nat).
Proof.
  induction boxes as [|bx boxes IH]; intros Hf; simpl.
  { split; [lia|intros [? [[] _]]]. }
  inversion Hf as [|? ? Hb Hf']; subst.
  destruct (IH Hf') as [H1 H2]. rewrite length_app.
  assert (length bx <> 0%nat) by (destruct bx; [contradiction|discriminate]).
  split; [lia|]. intros [bx' [[<-|Hin] Hl]]; [lia|].
  specialize (H2 (ex_intro _ bx' (conj Hin Hl))). lia.
Qed.

(** Buckets stay non-empty, so the loop of [quantizeColors] runs as the
    loop of [medianCut]: its missing comparison with the number of pixels
    never matters (with as many non-empty buckets as pixels, every bucket
    holds one pixel and the scan finds no range). *)
Lemma quantizeColors_loop_eq (fuel : nat) (N : Z) (boxes : list (list color)) :
  Forall (fun bx => bx <> []) boxes ->
  quantizeColors_loop fuel N boxes
  = medianCut_loop fuel N (Z.of_nat (length (concat boxes))) boxes
  /\ Forall (fun bx => bx <> []) (quantizeColors_loop fuel N boxes).
Proof.
  revert boxes. induction fuel as [|fuel IH]; intros boxes Hf; simpl; [now split|].
  destruct (Z.ltb_spec (Z.of_nat (length boxes)) N) as [HN|HN]; simpl; [|now split].
  destruct (scan_boxes_big boxes 0 (0, 0, Ch_r)) as [E|[Hle [bx [Hn Hl]]]].
  - rewrite E. simpl.
    destruct (Z.of_nat (length boxes) <? Z.of_nat (length (concat boxes))); now split.
  - destruct (Z.ltb_spec (Z.of_nat (length boxes)) (Z.of_nat (length (concat boxes))))
      as [Hp|Hp].
    + destruct (scan_boxes 0 boxes (0, 0, Ch_r)) as [[mr mb] ch] eqn:Es.
      unfold mb_of in Hle, Hn. simpl in Hle, Hn. rewrite Z.sub_0_r in Hn.
      destruct (mr =? 0); [now split|].
      assert (Hmb : 0 <= mb < Z.of_nat (length boxes)).
      { split; [lia|]. assert (Hs : nth_error boxes (Z.to_nat mb) <> None) by congruence.
        apply nth_error_Some in Hs. lia. }
      pose proof (split_box_nonempty boxes mb ch bx Hf Hle Hn Hl) as Hf2.
      destruct (IH _ Hf2) as [E Hf3].
      rewrite (Permutation_length (split_box_perm boxes mb ch Hmb)) in E.
      split; assumption.
    + exfalso.
      destruct (concat_long_box boxes Hf) as [_ H2].
      rewrite Z.sub_0_r in Hn.
      specialize (H2 (ex_intro _ bx (conj (nth_error_In _ _ Hn) Hl))). lia.
Qed.

Lemma qc_average_nonempty (bs : list (list color)) :
  Forall (fun bx => bx <> []) bs ->
  filter (fun c => 0 <? qcount c) (map qc_average bs) = map qc_average bs
  /\ map (fun e => (qr e, qg e, qb e)) (map qc_average bs)
     = map (fun c => (r c, g c, b c)) (map box_average bs)
  /\ Forall (fun e => 0 < qcount e) (map qc_average bs)
  /\ fold_right (fun e s => qcount e + s) 0 (map qc_average bs)
     = Z.of_nat (length (concat bs)).
Proof.
  induction bs as [|bx bs IH]; intros Hf; simpl; [now split|].
  inversion Hf as [|? ? Hb Hf']; subst.
  destruct (IH Hf') as [H1 [H2 [H3 H4]]].
  destruct bx as [|p ps]; [contradiction|].
  cbn [qc_average box_average qcount qr qg qb r g b].
  rewrite length_app, Nat2Z.inj_add, <- H4.
  assert (Hpos : 0 < Z.of_nat (length (p :: ps))) by (simpl; lia).
  destruct (Z.ltb_spec 0 (Z.of_nat (length (p :: ps)))) as [_|Hc]; [|lia].
  rewrite H1, H2. split; [reflexivity|split; [reflexivity|]].
  split; [constructor; assumption|reflexivity].
Qed.

Lemma quantizeColors_spec (pixels : list color) (N : Z) :
  pixels <> [] -> 1 <= N ->
  map (fun e => (qr e, qg e, qb e)) (quantizeColors pixels N)
    = map (fun c => (r c, g c, b c)) (medianCut pixels N)
  /\ Forall (fun e => 0 < qcount e) (quantizeColors pixels N)
  /\ fold_right (fun e s => qcount e + s) 0 (quantizeColors pixels N)
     = Z.of_nat (length pixels)
  /\ 1 <= Z.of_nat (length (quantizeColors pixels N)) <= N.
Proof.
  intros Hp HN. unfold quantizeColors, medianCut.
  destruct (Nat.eqb_spec (length pixels) 0) as [E|_].
  { destruct pixels; [contradiction|discriminate]. }
  destruct (Z.ltb_spec N 1) as [Hc|_]; [lia|]. simpl orb. cbv iota.
  assert (Hf0 : Forall (fun bx => bx <> []) [pixels]) by (constructor; auto).
  destruct (quantizeColors_loop_eq (Z.to_nat N) N [pixels] Hf0) as [E Hf].
  assert (Hc : length (concat [pixels]) = length pixels)
    by (simpl; rewrite app_nil_r; reflexivity).
  rewrite Hc in E. rewrite E in Hf |- *.
  destruct (medianCut_loop_spec (Z.to_nat N) N (Z.of_nat (length pixels)) [pixels])
    as [L1 [L2 [Pm _]]].
  destruct (qc_average_nonempty _ Hf) as [H1 [H2 [H3 H4]]].
  rewrite H1. split; [exact H2|split; [exact H3|split]].
  - rewrite H4, (Permutation_length Pm). exact (f_equal Z.of_nat Hc).
  - rewrite length_map. simpl length in L1, L2. split; [lia|]. apply L2. lia.
Qed.

(** The palette of [quantizeColors] on a non-empty pixel list and a
    colour count [N >= 1]: the same colours, in the same order, as the
    engine's [medianCut] on the same pixels; every count is positive and
    the counts add up to the number of pixels; between [1] and [N]
    entries. *)
Theorem quantizeColors_medianCut (pixels : list color) (N : Z) :
  pixels <> [] -> 1 <= N ->
  map (fun e => (qr e, qg e, qb e)) (quantizeColors pixels N)
    = map (fun c => (r c, g c, b c)) (medianCut pixels N)
  /\ Forall (fun e => 0 < qcount e) (quantizeColors pixels N)
  /\ fold_right (fun e s => qcount e + s) 0 (quantizeColors pixels N)
     = Z.of_nat (length pixels)
  /\ 1 <= Z.of_nat (length (quantizeColors pixels N)) <= N.
Proof. exact (quantizeColors_spec pixels N). Qed.

Lemma quantizeColors_medianCut_witness :
  [mkColor 255 0 0 255; mkColor 0 0 255 255] <> [] /\ 1 <= 2
  /\ map (fun e => (qr e, qg e, qb e))
       (quantizeColors [mkColor 255 0 0 255; mkColor 0 0 255 255] 2)
     = map (fun c => (r c, g c, b c)) (medianCut [mkColor 255 0 0 255; mkColor 0 0 255 255] 2).
Proof.
  split; [discriminate|split; [lia|]].
  apply (quantizeColors_medianCut [mkColor 255 0 0 255; mkColor 0 0 255 255] 2);
    [discriminate|lia].
Defined.

Lemma list_set_nat_app {A} (l1 l2 : list A) (x v : A) :
  list_set_nat (l1 ++ x :: l2) (length l1) v = l1 ++ v :: l2.
Proof. induction l1 as [|y l1 IH]; simpl; [reflexivity|rewrite IH; reflexivity]. Qed.

Lemma list_set_nat_out {A} (l : list A) (n : nat) (v : A) :
  (length l <= n)%nat -> list_set_nat l n v = l.
Proof.
  revert n. induction l as [|y l IH]; intros [|n] H; simpl in *; try lia; auto.
  rewrite IH; [reflexivity|lia].
Qed.

Lemma seqZ_snoc (m : nat) :
  seqZ 0 (Z.of_nat (S m)) = seqZ 0 (Z.of_nat m) ++ [Z.of_nat m].
Proof.
  unfold seqZ. rewrite !Nat2Z.id, seq_S, map_app. reflexivity.
Qed.

Lemma fold_left_map_fn {A B C} (f : A -> B -> A) (g : C -> B) (l : list C) (a0 : A) :
  fold_left f (map g l) a0 = fold_left (fun acc x => f acc (g x)) l a0.
Proof. revert a0. induction l as [|x l IH]; intros a0; simpl; auto. Qed.

(** Writing [f k] at every index [k = 0 .. m - 1] of a zero-filled array
    of length [n <= m] fills it with [f 0 .. f (n - 1)]; the writes past
    the end are ignored. *)
Lemma fold_set_seqZ (F : list Z -> Z -> list Z) (f : Z -> Z) (m n : nat) :
  (forall acc k, 0 <= k -> F acc k = list_set acc k (f k)) ->
  fold_left F (seqZ 0 (Z.of_nat m)) (repeat 0 n)
  = map f (seqZ 0 (Z.of_nat (Nat.min m n))) ++ repeat 0 (n - Nat.min m n).
Proof.
  intros HF. induction m as [|m IH].
  { simpl. rewrite Nat.sub_0_r. reflexivity. }
  rewrite seqZ_snoc, fold_left_app, IH. simpl fold_left.
  rewrite HF by lia. unfold list_set.
  destruct (Z.ltb_spec (Z.of_nat m) 0) as [Hc|_]; [lia|]. rewrite Nat2Z.id.
  destruct (Nat.le_gt_cases n m) as [Hn|Hn].
  - rewrite !Nat.min_r by lia. rewrite Nat.sub_diag. simpl. rewrite app_nil_r.
    apply list_set_nat_out. rewrite length_map, length_seqZ. lia.
  - rewrite !Nat.min_l by lia.
    replace (n - m)%nat with (S (n - S m)) by lia. simpl repeat.
    assert (Hl : length (map f (seqZ 0 (Z.of_nat m))) = m)
      by (rewrite length_map, length_seqZ; lia).
    pose proof (list_set_nat_app (map f (seqZ 0 (Z.of_nat m))) (repeat 0 (n - S m)) 0
                  (f (Z.of_nat m))) as E.
    rewrite Hl in E. rewrite E, seqZ_snoc, map_app, <- app_assoc.
    reflexivity.
Qed.

Lemma mapToPalette_spec (d : list Z) (palette : list qentry) :
  Z.of_nat (length palette) <= 32768 ->
  mapToPalette d palette
  = map (index_pixel d (map qentry_color palette)) (seqZ 0 (Z.of_nat (length d) / 4)).
Proof.
  intros Hp. unfold mapToPalette. rewrite fold_left_map_fn.
  set (len := Z.of_nat (length d)).
  assert (Hm : (len + 3) / 4 = Z.of_nat (Z.to_nat ((len + 3) / 4)))
    by (rewrite Z2Nat.id; [reflexivity|apply Z.div_pos; lia]).
  assert (Hn : len / 4 = Z.of_nat (Z.to_nat (len / 4)))
    by (rewrite Z2Nat.id; [reflexivity|apply Z.div_pos; lia]).
  replace (seqZ 0 ((len + 3) / 4)) with (seqZ 0 (Z.of_nat (Z.to_nat ((len + 3) / 4))))
    by (rewrite <- Hm; reflexivity).
  replace (seqZ 0 (len / 4)) with (seqZ 0 (Z.of_nat (Z.to_nat (len / 4))))
    by (rewrite <- Hn; reflexivity).
  rewrite (fold_set_seqZ _ (index_pixel d (map qentry_color palette))).
  - rewrite Nat.min_r, Nat.sub_diag, app_nil_r; [reflexivity|].
    apply Z2Nat.inj_le; try (apply Z.div_pos; lia).
    apply Z.div_le_mono; lia.
  - intros acc k Hk. cbv beta.
    replace (4 * k / 4) with k by (rewrite Z.mul_comm, Z.div_mul; lia).
    unfold index_pixel. rewrite (Z.mul_comm k 4).
    destruct (match nthZ d (4 * k + 3) with Some a0 => a0 <? 128 | None => false end);
      [reflexivity|].
    f_equal. unfold to_int16.
    set (j := snd (closest 0 (map qentry_color palette) (nthZ d (4 * k))
                    (nthZ d (4 * k + 1)) (nthZ d (4 * k + 2)) (None, 0))).
    assert (Hj : 0 <= j < 32768).
    { destruct (closest_index 0 (map qentry_color palette) (nthZ d (4 * k))
                  (nthZ d (4 * k + 1)) (nthZ d (4 * k + 2)) (None, 0)) as [E|E];
        fold j in E; rewrite ?length_map in E; simpl in E; lia. }
    rewrite Z.mod_small by lia. lia.
Qed.

(** [mapToPalette] indexes every complete pixel as the engine's
    [createIndexedImage] indexes it with the same palette colours, as long
    as the palette indices fit in an [Int16Array]: the array holds one
    entry per complete group of four bytes, [-1] for an alpha below [128],
    otherwise the first palette entry at the smallest squared distance. *)
Theorem mapToPalette_index_pixel (d : list Z) (palette : list qentry) :
  Z.of_nat (length palette) <= 32768 ->
  mapToPalette d palette
  = map (index_pixel d (map qentry_color palette)) (seqZ 0 (Z.of_nat (length d) / 4)).
Proof. exact (mapToPalette_spec d palette). Qed.

Lemma mapToPalette_index_pixel_witness :
  Z.of_nat (length [mkQEntry 250 0 0 1; mkQEntry 0 0 255 3]) <= 32768
  /\ mapToPalette [255; 0; 0; 255; 0; 0; 250; 255; 1; 2; 3; 4; 9; 9]
       [mkQEntry 250 0 0 1; mkQEntry 0 0 255 3]
     = map (index_pixel [255; 0; 0; 255; 0; 0; 250; 255; 1; 2; 3; 4; 9; 9]
              (map qentry_color [mkQEntry 250 0 0 1; mkQEntry 0 0 255 3]))
         (seqZ 0 (Z.of_nat (length [255; 0; 0; 255; 0; 0; 250; 255; 1; 2; 3; 4; 9; 9]) / 4)).
Proof.
  split; [simpl; lia|].
  apply mapToPalette_index_pixel. simpl. lia.
Defined.

Lemma is_color_spec (ix : list Z) (w y c x : Z) :
  is_color ix w y c x = true <-> x < w /\ nthZ ix (y * w + x) = Some c.
Proof.
  unfold is_color. rewrite andb_true_iff, Z.ltb_lt.
  destruct (nthZ ix (y * w + x)) as [v|].
  - rewrite Z.eqb_eq. split; intros [H1 H2]; split; congruence.
  - split; intros [_ H]; discriminate.
Qed.

Lemma seqZ_to_nat (n : Z) : seqZ 0 n = seqZ 0 (Z.of_nat (Z.to_nat n)).
Proof. unfold seqZ. rewrite Nat2Z.id. reflexivity. Qed.

(** The row scan after [x = 0 .. k - 1]: the rectangles it pushed lie in
    row [y], have height [1], and cover the cells of the colour left of
    [k], except those of the run still open at [runStart]. *)
Lemma row_scan_inv (ix : list Z) (w y c : Z) (acc : list rect) (k : nat) :
  exists new rs,
    fold_left (run_step ix w y c) (seqZ 0 (Z.of_nat k)) (acc, -1) = (acc ++ new, rs)
    /\ (rs = -1 \/ (0 <= rs < Z.of_nat k
                    /\ forall x, rs <= x < Z.of_nat k -> is_color ix w y c x = true))
    /\ (forall p, In p new -> ry p = y /\ rh p = 1)
    /\ (forall x, (exists p, In p new /\ rx p <= x < rx p + rw p) <->
                  (0 <= x < Z.of_nat k /\ is_color ix w y c x = true
                   /\ (rs = -1 \/ x < rs))).
Proof.
  induction k as [|k IH].
  { exists [], (-1). rewrite app_nil_r. split; [reflexivity|].
    split; [now left|split; [intros p []|]].
    intros x. split; [intros [p [[] _]]|intros [Hx _]; simpl in Hx; lia]. }
  destruct IH as [new [rs [E [Hrs [Hnew Hcov]]]]].
  rewrite seqZ_snoc, fold_left_app, E. simpl fold_left.
  replace (Z.of_nat (S k)) with (Z.of_nat k + 1) by lia.
  set (K := Z.of_nat k) in *.
  assert (HK : 0 <= K) by lia. clearbody K.
  unfold run_step.
  destruct (is_color ix w y c K) eqn:EC; destruct (Z.eqb_spec rs (-1)) as [Er|Er];
    simpl.
  - (* a run opens at K *)
    exists new, K. split; [reflexivity|].
    split; [right; split; [lia|intros x Hx; replace x with K by lia; exact EC]|].
    split; [exact Hnew|]. intros x. rewrite Hcov. subst rs. split.
    + intros [Hx [Hc _]]. split; [lia|split; [exact Hc|right; lia]].
    + intros [Hx [Hc [Hr|Hr]]]; [lia|]. split; [lia|split; [exact Hc|now left]].
  - (* the open run goes on *)
    exists new, rs. split; [reflexivity|].
    destruct Hrs as [Hrs|[Hrs Hrun]]; [contradiction|].
    split; [right; split; [lia|]|].
    { intros x Hx. destruct (Z.eq_dec x K) as [->|Hne]; [exact EC|apply Hrun; lia]. }
    split; [exact Hnew|]. intros x. rewrite Hcov. split.
    + intros [Hx [Hc Hr]]. split; [lia|split; assumption].
    + intros [Hx [Hc [Hr|Hr]]]; [contradiction|]. split; [lia|split; [exact Hc|now right]].
  - (* no run, no colour *)
    exists new, rs. split; [reflexivity|]. subst rs.
    split; [now left|split; [exact Hnew|]]. intros x. rewrite Hcov. split.
    + intros [Hx [Hc Hr]]. split; [lia|split; assumption].
    + intros [Hx [Hc Hr]]. split; [|split; assumption].
      destruct (Z.eq_dec x K) as [->|Hne]; [congruence|lia].
  - (* the open run ends at K *)
    exists (new ++ [mkRect rs y (K - rs) 1]), (-1).
    rewrite app_assoc. split; [reflexivity|].
    destruct Hrs as [Hrs|[Hrs Hrun]]; [contradiction|].
    split; [now left|split].
    + intros p Hp. apply in_app_or in Hp as [Hp|[<-|[]]]; [exact (Hnew p Hp)|].
      simpl. split; reflexivity.
    + intros x. split.
      * intros [p [Hp Hx]]. apply in_app_or in Hp as [Hp|[<-|[]]].
        -- assert (H : exists p, In p new /\ rx p <= x < rx p + rw p) by eauto.
           apply Hcov in H as [H1 [H2 _]]. split; [lia|split; [exact H2|now left]].
        -- simpl in Hx. split; [lia|split; [apply Hrun; lia|now left]].
      * intros [Hx [Hc _]].
        assert (HxK : x <> K) by (intros ->; congruence).
        destruct (Z.lt_ge_cases x rs) as [Hl|Hl].
        -- destruct (proj2 (Hcov x)) as [p [Hp Hpx]];
             [split; [lia|split; [exact Hc|now right]]|].
           exists p. split; [apply in_or_app; now left|exact Hpx].
        -- exists (mkRect rs y (K - rs) 1). split; [apply in_or_app; right; now left|].
           simpl. lia.
Qed.

(** One row [y]: the pushed rectangles cover exactly the cells of row [y]
    inside the width whose index is [colorIdx]. *)
Lemma row_runs (ix : list Z) (w y c : Z) (acc : list rect) :
  exists new,
    fst (fold_left (run_step ix w y c) (seqZ 0 (w + 1)) (acc, -1)) = acc ++ new
    /\ (forall p, In p new -> ry p = y /\ rh p = 1)
    /\ (forall x, (exists p, In p new /\ rx p <= x < rx p + rw p) <->
                  (0 <= x < w /\ nthZ ix (y * w + x) = Some c)).
Proof.
  rewrite seqZ_to_nat.
  destruct (row_scan_inv ix w y c acc (Z.to_nat (w + 1)))
    as [new [rs [E [Hrs [Hnew Hcov]]]]].
  rewrite E. exists new. split; [reflexivity|split; [exact Hnew|]].
  assert (Hr : rs = -1).
  { destruct Hrs as [Hrs|[Hrs Hrun]]; [exact Hrs|].
    assert (Hw : rs <= w < Z.of_nat (Z.to_nat (w + 1))) by lia.
    specialize (Hrun w Hw). apply is_color_spec in Hrun. lia. }
  intros x. rewrite Hcov, Hr. split.
  - intros [Hx [Hc _]]. apply is_color_spec in Hc as [Hc1 Hc2]. split; [lia|exact Hc2].
  - intros [Hx Hc]. split; [lia|split; [apply is_color_spec; split; [lia|exact Hc]|now left]].
Qed.

(** The row scan of [createColorRects]: rectangles of height [1] covering
    exactly the cells inside the image whose index is [colorIdx]. *)
Lemma color_runs_cover (ix : list Z) (w h c : Z) :
  (forall p, In p (color_runs ix w h c) -> rh p = 1)
  /\ (forall x y, covered (color_runs ix w h c) x y <->
                  0 <= x < w /\ 0 <= y < h /\ nthZ ix (y * w + x) = Some c).
Proof.
  unfold color_runs, covered. rewrite (seqZ_to_nat h).
  assert (Hh : forall y, 0 <= y < h <-> 0 <= y < Z.of_nat (Z.to_nat h)) by lia.
  setoid_rewrite Hh. clear Hh.
  induction (Z.to_nat h) as [|k [IH1 IH2]].
  { simpl. split; [intros p []|]. intros x y. split; [intros [p [[] _]]|lia]. }
  rewrite seqZ_snoc, fold_left_app. simpl fold_left.
  set (R := fold_left _ (seqZ 0 (Z.of_nat k)) []) in *.
  destruct (row_runs ix w (Z.of_nat k) c R) as [new [E [Hnew Hcov]]].
  rewrite E. split.
  - intros p Hp. apply in_app_or in Hp as [Hp|Hp]; [exact (IH1 p Hp)|exact (proj2 (Hnew p Hp))].
  - intros x y. split.
    + intros [p [Hp Hc]]. apply in_app_or in Hp as [Hp|Hp].
      * destruct (proj1 (IH2 x y) (ex_intro _ p (conj Hp Hc))) as [H1 [H2 H3]].
        split; [exact H1|split; [lia|exact H3]].
      * destruct (Hnew p Hp) as [Hy Hh]. unfold covers in Hc. rewrite Hy, Hh in Hc.
        assert (Ey : y = Z.of_nat k) by lia. subst y.
        destruct (proj1 (Hcov x) (ex_intro _ p (conj Hp (proj1 Hc)))) as [H1 H2].
        split; [exact H1|split; [lia|exact H2]].
    + intros [Hx [Hy Hc]].
      destruct (Z.eq_dec y (Z.of_nat k)) as [->|Hne].
      * destruct (proj2 (Hcov x) (conj Hx Hc)) as [p [Hp Hpx]].
        exists p. split; [apply in_or_app; now right|].
        destruct (Hnew p Hp) as [Hy' Hh']. unfold covers. rewrite Hy', Hh'. lia.
      * assert (Hy' : 0 <= y < Z.of_nat k) by lia.
        destruct (proj2 (IH2 x y) (conj Hx (conj Hy' Hc))) as [p [Hp Hpx]].
        exists p. split; [apply in_or_app; now left|exact Hpx].
Qed.

Lemma insert_rect_perm (p : rect) (l : list rect) :
  Permutation (insert_rect p l) (p :: l).
Proof.
  induction l as [|q l IH]; simpl; [reflexivity|].
  destruct (rect_cmp p q <=? 0); [reflexivity|].
  rewrite IH. apply perm_swap.
Qed.

Lemma sort_rects_perm (l : list rect) : Permutation (sort_rects l) l.
Proof.
  induction l as [|p l IH]; simpl; [reflexivity|].
  rewrite insert_rect_perm. apply perm_skip. exact IH.
Qed.

Lemma covered_app (l1 l2 : list rect) (x y : Z) :
  covered (l1 ++ l2) x y <-> covered l1 x y \/ covered l2 x y.
Proof.
  unfold covered. split.
  - intros [p [Hp Hc]]. apply in_app_or in Hp as [Hp|Hp]; [left|right]; eauto.
  - intros [[p [Hp Hc]]|[p [Hp Hc]]]; exists p; split; auto; apply in_or_app; auto.
Qed.

Lemma covered_single (p : rect) (x y : Z) : covered [p] x y <-> covers p x y.
Proof.
  unfold covered. split; [intros [q [[<-|[]] Hc]]; exact Hc|intros Hc; exists p; simpl; auto].
Qed.

Lemma covered_perm (l l' : list rect) (x y : Z) :
  Permutation l l' -> covered l x y <-> covered l' x y.
Proof.
  intros HP. unfold covered. split; intros [p [Hp Hc]]; exists p; split; auto.
  - exact (Permutation_in p HP Hp).
  - exact (Permutation_in p (Permutation_sym HP) Hp).
Qed.

(** The merge loop: [merged] and [current] together cover what they
    covered before plus the remaining rectangles, when no height is
    negative; one rectangle at most per rectangle read. *)
Lemma merge_fold (ps merged : list rect) (cur : rect) :
  0 <= rh cur -> Forall (fun p => 0 <= rh p) ps ->
  let st := fold_left merge_step ps (merged, cur) in
  (forall x y, covered (fst st ++ [snd st]) x y
               <-> covered (merged ++ [cur]) x y \/ covered ps x y)
  /\ (length (fst st ++ [snd st]) <= length (merged ++ [cur]) + length ps)%nat.
Proof.
  revert merged cur. induction ps as [|p ps IH]; intros merged cur Hc Hf; simpl.
  { split; [|lia]. intros x y. unfold covered at 3. split; [now left|].
    intros [H|[q [[] _]]]; exact H. }
  inversion Hf as [|? ? Hp Hf']; subst.
  destruct ((rx p =? rx cur) && (rw p =? rw cur) && (ry p =? ry cur + rh cur))%bool eqn:Em.
  - apply andb_prop in Em as [Em E3]. apply andb_prop in Em as [E1 E2].
    apply Z.eqb_eq in E1, E2, E3.
    destruct (IH merged (mkRect (rx cur) (ry cur) (rw cur) (rh cur + rh p))) as [H1 H2];
      [simpl; lia|exact Hf'|].
    split; [|rewrite !length_app in *; simpl in *; lia].
    intros x y. rewrite H1, !covered_app, !covered_single.
    change (p :: ps) with ([p] ++ ps). rewrite covered_app, covered_single.
    unfold covers. simpl. rewrite E1, E2, E3. split.
    + intros [[H|H]|H]; [tauto| |tauto].
      destruct (Z.lt_ge_cases y (ry cur + rh cur)); [left; right; lia|right; left; lia].
    + intros [[H|H]|[H|H]]; [tauto|left; right; lia|left; right; lia|tauto].
  - destruct (IH (merged ++ [cur]) p) as [H1 H2]; [exact Hp|exact Hf'|].
    split; [|rewrite !length_app in *; simpl in *; lia].
    intros x y. rewrite H1, !covered_app, !covered_single.
    change (p :: ps) with ([p] ++ ps). rewrite covered_app, covered_single. tauto.
Qed.

Lemma mergeRects_cover (rects : list rect) :
  Forall (fun p => 0 <= rh p) rects ->
  (forall x y, covered (mergeRects rects) x y <-> covered rects x y)
  /\ (length (mergeRects rects) <= length rects)%nat.
Proof.
  intros Hf. unfold mergeRects.
  destruct rects as [|p0 ps0]; [split; [reflexivity|lia]|].
  pose proof (sort_rects_perm (p0 :: ps0)) as HP.
  destruct (sort_rects (p0 :: ps0)) as [|p ps] eqn:Es.
  { apply Permutation_nil in HP. discriminate. }
  assert (Hf2 : Forall (fun p => 0 <= rh p) (p :: ps)).
  { rewrite Forall_forall in Hf |- *. intros q Hq.
    apply Hf. exact (Permutation_in q HP Hq). }
  inversion Hf2 as [|? ? Hp Hf']; subst.
  destruct (merge_fold ps [] p Hp Hf') as [H1 H2].
  destruct (fold_left merge_step ps ([], p)) as [m c] eqn:Ef. simpl in H1, H2.
  split.
  - intros x y. rewrite H1, <- (covered_perm _ _ x y HP).
    change (p :: ps) with ([p] ++ ps). rewrite covered_app. reflexivity.
  - rewrite <- (Permutation_length HP). simpl. lia.
Qed.

(** [mergeRects] on rectangles of non-negative height: the merged list
    covers exactly the cells the input covered, with at most as many
    rectangles. *)
Theorem mergeRects_cells (rects : list rect) :
  Forall (fun p => 0 <= rh p) rects ->
  (forall x y, covered (mergeRects rects) x y <-> covered rects x y)
  /\ (length (mergeRects rects) <= length rects)%nat.
Proof. exact (mergeRects_cover rects). Qed.

Lemma mergeRects_cells_witness :
  Forall (fun p => 0 <= rh p) [mkRect 0 0 2 1; mkRect 0 1 2 1]
  /\ (length (mergeRects [mkRect 0 0 2 1; mkRect 0 1 2 1])
      <= length [mkRect 0 0 2 1; mkRect 0 1 2 1])%nat.
Proof.
  split; [repeat constructor; simpl; lia|].
  apply mergeRects_cells. repeat constructor; simpl; lia.
Defined.

Lemma createColorRects_cover (ix : list Z) (w h c : Z) (x y : Z) :
  covered (createColorRects ix w h c) x y
  <-> 0 <= x < w /\ 0 <= y < h /\ nthZ ix (y * w + x) = Some c.
Proof.
  destruct (color_runs_cover ix w h c) as [H1 H2].
  assert (Hf : Forall (fun p => 0 <= rh p) (color_runs ix w h c)).
  { rewrite Forall_forall. intros p Hp. rewrite (H1 p Hp). lia. }
  unfold createColorRects. rewrite (proj1 (mergeRects_cover _ Hf)). apply H2.
Qed.

(** [createColorRects(indexed, width, height, colorIdx)] covers exactly
    the cells [(x, y)] of the [width × height] grid whose index
    [indexed[y * width + x]] is [colorIdx], and nothing outside the
    grid. *)
Theorem createColorRects_cells (ix : list Z) (w h c : Z) (x y : Z) :
  covered (createColorRects ix w h c) x y
  <-> 0 <= x < w /\ 0 <= y < h /\ nthZ ix (y * w + x) = Some c.
Proof. exact (createColorRects_cover ix w h c x y). Qed.

Lemma list_set_nat_shift {A} (l1 l2 : list A) (j : nat) (v : A) :
  list_set_nat (l1 ++ l2) (length l1 + j) v = l1 ++ list_set_nat l2 j v.
Proof. induction l1 as [|x l1 IH]; simpl; [reflexivity|rewrite IH; reflexivity]. Qed.

Lemma list_set4 (l1 l2 : list Z) (a0 b0 c0 d0 i : Z) :
  i = Z.of_nat (length l1) ->
  list_set (list_set (list_set (list_set (l1 ++ 0 :: 0 :: 0 :: 0 :: l2) i a0)
    (i + 1) b0) (i + 2) c0) (i + 3) d0
  = l1 ++ a0 :: b0 :: c0 :: d0 :: l2.
Proof.
  intros ->. unfold list_set.
  repeat match goal with |- context [?x <? 0] =>
    destruct (Z.ltb_spec x 0); [lia|] end.
  replace (Z.to_nat (Z.of_nat (length l1))) with (length l1 + 0)%nat by lia.
  replace (Z.to_nat (Z.of_nat (length l1) + 1)) with (length l1 + 1)%nat by lia.
  replace (Z.to_nat (Z.of_nat (length l1) + 2)) with (length l1 + 2)%nat by lia.
  replace (Z.to_nat (Z.of_nat (length l1) + 3)) with (length l1 + 3)%nat by lia.
  rewrite !list_set_nat_shift. reflexivity.
Qed.

Lemma length_quads (f0 f1 f2 f3 : Z -> Z) (l : list Z) :
  length (flat_map (fun k => [f0 (4 * k); f1 (4 * k); f2 (4 * k); f3 (4 * k)]) l)
  = (4 * length l)%nat.
Proof.
  induction l as [|k l IH]; [reflexivity|].
  cbn [flat_map]. rewrite length_app, IH. simpl length. lia.
Qed.

Lemma length_flat_map4 (f : Z -> list Z) (l : list Z) :
  (forall k, length (f k) = 4%nat) -> length (flat_map f l) = (4 * length l)%nat.
Proof.
  intros Hf. induction l as [|k l IH]; [reflexivity|].
  cbn [flat_map]. rewrite length_app, IH, Hf. simpl length. lia.
Qed.

(** A loop writing four bytes at [i = 0, 4, ...] into a zero-filled array
    of [4 * M] bytes fills it group by group. *)
Lemma fold_quads (body : list Z -> Z -> list Z) (f0 f1 f2 f3 : Z -> Z) (m M : nat) :
  (forall res i, body res i =
     list_set (list_set (list_set (list_set res i (f0 i)) (i + 1) (f1 i))
       (i + 2) (f2 i)) (i + 3) (f3 i)) ->
  (m <= M)%nat ->
  fold_left body (map (fun k => 4 * k) (seqZ 0 (Z.of_nat m))) (repeat 0 (4 * M))
  = flat_map (fun k => [f0 (4 * k); f1 (4 * k); f2 (4 * k); f3 (4 * k)])
      (seqZ 0 (Z.of_nat m)) ++ repeat 0 (4 * (M - m)).
Proof.
  intros Hb. induction m as [|m IH]; intros Hm.
  { simpl. rewrite Nat.sub_0_r. reflexivity. }
  rewrite seqZ_snoc, map_app, fold_left_app, IH by lia. cbn [map fold_left].
  rewrite Hb.
  replace (4 * (M - m))%nat with (S (S (S (S (4 * (M - S m))))))%nat by lia.
  cbn [repeat].
  rewrite list_set4 by (rewrite length_quads, length_seqZ; lia).
  rewrite flat_map_app, <- app_assoc. simpl. reflexivity.
Qed.

Lemma nth_flat_map4 (f : Z -> list Z) (M : nat) (k : Z) :
  (forall k, length (f k) = 4%nat) -> 0 <= k < Z.of_nat M ->
  nthZ (flat_map f (seqZ 0 (Z.of_nat M))) (4 * k + 3) = nth_error (f k) 3.
Proof.
  intros Hf Hk. unfold nthZ. destruct (Z.ltb_spec (4 * k + 3) 0); [lia|].
  induction M as [|M IH]; [lia|].
  rewrite seqZ_snoc, flat_map_app.
  destruct (Z.eq_dec k (Z.of_nat M)) as [->|Hne].
  - rewrite nth_error_app2 by (rewrite length_flat_map4, length_seqZ; auto; lia).
    rewrite length_flat_map4, length_seqZ by auto.
    replace (Z.to_nat (4 * Z.of_nat M + 3) - 4 * Z.to_nat (Z.of_nat M))%nat with 3%nat
      by lia.
    simpl. rewrite app_nil_r. reflexivity.
  - rewrite nth_error_app1 by (rewrite length_flat_map4, length_seqZ; auto; lia).
    apply IH. lia.
Qed.

(** [processedData] keeps the length of the buffer and, on a buffer of
    bytes made of whole pixels, the alpha byte of every pixel. *)
Lemma usage_processed_alpha (d : list Z) (o : usage_options) (M : nat) :
  length d = (4 * M)%nat -> Forall (fun v => 0 <= v <= 255) d ->
  length (usage_processed d o) = length d
  /\ forall k, 0 <= k < Z.of_nat M ->
     nthZ (usage_processed d o) (4 * k + 3) = nthZ d (4 * k + 3).
Proof.
  intros Hl Hf.
  assert (Hc : forall i, nthZ d i <> None -> u8_store (nthZ d i) = match nthZ d i with Some v => v | None => 0 end
                          /\ clamp_byte (match nthZ d i with Some v => v | None => 0 end)
                             = match nthZ d i with Some v => v | None => 0 end).
  { intros i Hi. destruct (nthZ d i) as [v|] eqn:E; [|contradiction].
    unfold nthZ in E. destruct (i <? 0); [discriminate|].
    apply nth_error_In in E. rewrite Forall_forall in Hf. specialize (Hf v E).
    unfold u8_store, clamp_byte. split; lia. }
  assert (Hd : forall k, 0 <= k < Z.of_nat M -> exists v, nthZ d (4 * k + 3) = Some v).
  { intros k Hk. unfold nthZ. destruct (Z.ltb_spec (4 * k + 3) 0); [lia|].
    destruct (nth_error d (Z.to_nat (4 * k + 3))) as [v|] eqn:E; [now exists v|].
    apply nth_error_None in E. lia. }
  assert (Hq : (Z.of_nat (length d) + 3) / 4 = Z.of_nat M).
  { rewrite Hl. rewrite Nat2Z.inj_mul. change (Z.of_nat 4) with 4.
    rewrite Z.mul_comm, Z.div_add_l by lia. change (3 / 4) with 0. lia. }
  unfold usage_processed.
  destruct (String.eqb (traceMode o) "grayscale").
  2: destruct (String.eqb (traceMode o) "monochrome").
  3:{ rewrite length_map. split; [reflexivity|]. intros k Hk.
      destruct (Hd k Hk) as [v Ev].
      assert (Hv : nthZ (map clamp_byte d) (4 * k + 3)
                   = option_map clamp_byte (nthZ d (4 * k + 3))).
      { unfold nthZ. destruct (4 * k + 3 <? 0); [reflexivity|]. apply nth_error_map. }
      rewrite Hv, Ev. simpl. f_equal.
      destruct (Hc (4 * k + 3)) as [_ H]; [rewrite Ev; discriminate|].
      rewrite Ev in H. exact H. }
  all: unfold usage_toGrayscale, usage_toMonochrome; rewrite Hq, Hl.
  all: erewrite fold_quads; [|intros res i; reflexivity|lia].
  all: rewrite Nat.sub_diag, app_nil_r.
  all: split; [rewrite length_flat_map4, length_seqZ; [lia|intros; reflexivity]|].
  all: intros k Hk; rewrite nth_flat_map4; [|intros; reflexivity|exact Hk]; cbv beta; cbn [nth_error].
  all: destruct (Hd k Hk) as [v Ev]; rewrite Ev.
  all: assert (Hn : nthZ d (4 * k + 3) <> None) by (rewrite Ev; discriminate).
  all: destruct (Hc _ Hn) as [H _]; rewrite Ev in H; rewrite H; reflexivity.
Qed.

Lemma quantizeColors_length (pixels : list color) (N : Z) :
  (1 <= length (quantizeColors pixels N))%nat
  /\ Z.of_nat (length (quantizeColors pixels N)) <= Z.max 1 N.
Proof.
  destruct pixels as [|p ps] eqn:Ep.
  { unfold quantizeColors. simpl. lia. }
  destruct (Z.ltb_spec N 1) as [HN|HN].
  { unfold quantizeColors. rewrite (proj2 (Z.ltb_lt N 1) HN), orb_true_r. simpl. lia. }
  rewrite <- Ep. destruct (quantizeColors_spec pixels N) as [_ [_ [_ H]]];
    [rewrite Ep; discriminate|exact HN|]. lia.
Qed.

Lemma nthZ_map_seqZ {A} (f : Z -> A) (n k : Z) :
  0 <= k < n -> nthZ (map f (seqZ 0 n)) k = Some (f k).
Proof.
  intros Hk. unfold nthZ. destruct (Z.ltb_spec k 0); [lia|].
  rewrite nth_error_map. unfold seqZ. rewrite nth_error_map, nth_error_seq.
  destruct (Nat.ltb_spec (Z.to_nat k) (Z.to_nat n)) as [_|Hc]; [|lia].
  simpl. f_equal. f_equal. lia.
Qed.

Lemma usage_group_in (pal : list qentry) (ix : list Z) (w h i : Z) (grp : svg_group) :
  In grp (usage_group pal ix w h i) ->
  group_rects grp = createColorRects ix w h i
  /\ grp_fill grp = (qr (nth (Z.to_nat i) pal (mkQEntry 0 0 0 0)),
                     qg (nth (Z.to_nat i) pal (mkQEntry 0 0 0 0)),
                     qb (nth (Z.to_nat i) pal (mkQEntry 0 0 0 0))).
Proof.
  unfold usage_group. destruct (0 <? _); [|intros []].
  intros [<-|[]]. unfold group_rects. simpl.
  destruct (100 <? _); split; reflexivity.
Qed.

Lemma usage_group_exists (pal : list qentry) (ix : list Z) (w h i x y : Z) :
  covered (createColorRects ix w h i) x y ->
  exists grp, In grp (usage_group pal ix w h i) /\ covered (group_rects grp) x y.
Proof.
  intros Hc. unfold usage_group.
  destruct (Z.ltb_spec 0 (Z.of_nat (length (createColorRects ix w h i)))) as [Hl|Hl].
  - eexists. split; [left; reflexivity|]. unfold group_rects. simpl.
    destruct (100 <? _); exact Hc.
  - destruct Hc as [p [Hp _]]. destruct (createColorRects ix w h i); [contradiction|].
    simpl in Hl. lia.
Qed.

(** The sibling's [trace] on a buffer of [width * height] pixels of bytes,
    with at most [32768] colours: its groups of rectangles paint exactly
    the pixels whose alpha is at least [128], each in the colour of the
    palette entry [mapToPalette] gave it. *)
Theorem usage_trace_cells (d : list Z) (w h : Z) (o : usage_options) (x y : Z) :
  0 <= w -> 0 <= h -> Z.of_nat (length d) = 4 * (w * h) ->
  Forall (fun v => 0 <= v <= 255) d -> usage_numColors o <= 32768 ->
  ((exists grp, In grp (us_groups (usage_trace d w h o)) /\ covered (group_rects grp) x y)
   <-> 0 <= x < w /\ 0 <= y < h
       /\ exists a0, nthZ d (4 * (y * w + x) + 3) = Some a0 /\ 128 <= a0)
  /\ (forall grp, In grp (us_groups (usage_trace d w h o)) ->
      covered (group_rects grp) x y ->
      let P := usage_processed d o in
      let pal := getPalette P w h (usage_numColors o) in
      let e := nth (Z.to_nat (index_pixel P (map qentry_color pal) (y * w + x))) pal
                 (mkQEntry 0 0 0 0) in
      grp_fill grp = (qr e, qg e, qb e)).
Proof.
  intros Hw Hh Hl Hb HN.
  set (M := Z.to_nat (w * h)).
  assert (HlM : length d = (4 * M)%nat) by lia.
  destruct (usage_processed_alpha d o M HlM Hb) as [HPl HPa].
  set (P := usage_processed d o) in *.
  set (N := usage_numColors o) in *.
  set (pal := getPalette P w h N).
  set (palc := map qentry_color pal).
  assert (Hlc : length palc = length pal) by apply length_map.
  destruct (quantizeColors_length (usage_getPalette_pixels P) N) as [Hp1 Hp2].
  fold (getPalette P w h N) in Hp1, Hp2. fold pal in Hp1, Hp2.
  assert (Hix : mapToPalette P pal = map (index_pixel P palc) (seqZ 0 (w * h))).
  { rewrite mapToPalette_spec by lia. rewrite HPl, Hl.
    rewrite Z.mul_comm, Z.div_mul by lia. reflexivity. }
  set (ix := mapToPalette P pal) in *.
  (* the index of an in-range pixel *)
  assert (Hj : forall k, 0 <= k < w * h ->
    nthZ ix k = Some (index_pixel P palc k)
    /\ exists a0, nthZ d (4 * k + 3) = Some a0
       /\ ((a0 < 128 /\ index_pixel P palc k = -1)
           \/ (128 <= a0 /\ 0 <= index_pixel P palc k < Z.of_nat (length pal)))).
  { intros k Hk. rewrite Hix. split; [apply nthZ_map_seqZ; exact Hk|].
    assert (Hk' : 0 <= k < Z.of_nat M) by lia.
    destruct (nthZ d (4 * k + 3)) as [a0|] eqn:Ea.
    2:{ exfalso. unfold nthZ in Ea. destruct (Z.ltb_spec (4 * k + 3) 0); [lia|].
        apply nth_error_None in Ea. lia. }
    exists a0. split; [reflexivity|].
    unfold index_pixel. rewrite (Z.mul_comm k 4), HPa, Ea by exact Hk'.
    destruct (Z.ltb_spec a0 128) as [Ha|Ha]; [left; split; [exact Ha|reflexivity]|].
    right. split; [exact Ha|].
    destruct (closest_index 0 palc (nthZ P (4 * k)) (nthZ P (4 * k + 1))
                (nthZ P (4 * k + 2)) (None, 0)) as [E|E];
      try rewrite Hlc in E; cbn [snd] in E; lia. }
  assert (Hgroups : forall grp, In grp (us_groups (usage_trace d w h o)) <->
            exists i, 0 <= i < Z.of_nat (length pal)
                      /\ In grp (usage_group pal ix w h i)).
  { intros grp. unfold usage_trace. fold P N pal ix. simpl us_groups.
    rewrite in_flat_map. setoid_rewrite in_seqZ. split;
      intros [i [Hi Hg]]; exists i; split; (lia || exact Hg). }
  split; [split|].
  - intros [grp [Hg Hc]]. apply Hgroups in Hg as [i [Hi Hg]].
    destruct (usage_group_in pal ix w h i grp Hg) as [Hr _]. rewrite Hr in Hc.
    apply createColorRects_cover in Hc as [Hx [Hy Hn]].
    assert (Hk : 0 <= y * w + x < w * h) by nia.
    destruct (Hj _ Hk) as [Hn' [a0 [Ea [[Ha Hi']|[Ha Hi']]]]].
    + rewrite Hn in Hn'. injection Hn' as Hn'. lia.
    + split; [exact Hx|split; [exact Hy|exists a0; split; [exact Ea|exact Ha]]].
  - intros [Hx [Hy [a0 [Ea Ha]]]].
    assert (Hk : 0 <= y * w + x < w * h) by nia.
    destruct (Hj _ Hk) as [Hn [a1 [Ea1 [[Ha1 _]|[_ Hi]]]]];
      rewrite Ea in Ea1; injection Ea1 as <-; [lia|].
    destruct (usage_group_exists pal ix w h (index_pixel P palc (y * w + x)) x y)
      as [grp [Hg Hc]].
    { apply createColorRects_cover. split; [exact Hx|split; [exact Hy|exact Hn]]. }
    exists grp. split; [|exact Hc].
    apply Hgroups. exists (index_pixel P palc (y * w + x)). split; [exact Hi|exact Hg].
  - intros grp Hg Hc. cbv zeta. apply Hgroups in Hg as [i [Hi Hg]].
    destruct (usage_group_in pal ix w h i grp Hg) as [Hr Hf]. rewrite Hr in Hc.
    apply createColorRects_cover in Hc as [Hx [Hy Hn]].
    assert (Hk : 0 <= y * w + x < w * h) by nia.
    destruct (Hj _ Hk) as [Hn' _]. rewrite Hn in Hn'. injection Hn' as Ei.
    fold pal palc. rewrite <- Ei. exact Hf.
Qed.

Lemma usage_trace_cells_witness :
  0 <= 2 /\ 0 <= 1
  /\ Z.of_nat (length [255; 0; 0; 255; 0; 0; 255; 100]) = 4 * (2 * 1)
  /\ Forall (fun v => 0 <= v <= 255) [255; 0; 0; 255; 0; 0; 255; 100]
  /\ usage_numColors (mkUsageOptions 16 128 "color") <= 32768
  /\ ((exists grp, In grp (us_groups (usage_trace [255; 0; 0; 255; 0; 0; 255; 100] 2 1
                                       (mkUsageOptions 16 128 "color")))
                   /\ covered (group_rects grp) 1 0)
      <-> 0 <= 1 < 2 /\ 0 <= 0 < 1
          /\ exists a0, nthZ [255; 0; 0; 255; 0; 0; 255; 100] (4 * (0 * 2 + 1) + 3) = Some a0
                        /\ 128 <= a0).
Proof.
  split; [lia|split; [lia|split; [reflexivity|split; [repeat constructor; lia|]]]].
  split; [vm_compute; discriminate|].
  apply (usage_trace_cells [255; 0; 0; 255; 0; 0; 255; 100] 2 1
           (mkUsageOptions 16 128 "color") 1 0);
    [lia|lia|reflexivity|repeat constructor; lia|vm_compute; discriminate].
Defined.


Lemma LocallySorted_join {A} (R : A -> A -> Prop) (l1 l2 : list A) (x : A) :
  LocallySorted R (l1 ++ [x]) -> LocallySorted R (x :: l2) ->
  LocallySorted R (l1 ++ x :: l2).
Proof.
  induction l1 as [|a l1 IH]; intros H1 H2; [exact H2|].
  destruct l1 as [|b l1].
  - simpl in *. inversion H1 as [| |? ? ? _ Hr]; subst. constructor; assumption.
  - simpl in *. inversion H1 as [| |? ? ? Hs Hr]; subst.
    constructor; [apply IH; assumption|exact Hr].
Qed.

(** The scan of [simplifyDPStep]: [maxSqDist] never drops below
    [sqTolerance], bounds the distance of every point strictly between
    [first] and [last], and once above [sqTolerance] comes with an index
    strictly between them. *)
Lemma dp_scan_spec (points : list point) (first last : Z) (sqTol : Q) :
  (sqTol <= fst (dp_scan points first last sqTol))%Q
  /\ (forall k, first < k < last ->
      (getSqSegDist (nth (Z.to_nat k) points (0%Z, 0%Z)) (nth (Z.to_nat first) points (0%Z, 0%Z))
         (nth (Z.to_nat last) points (0%Z, 0%Z)) <= fst (dp_scan points first last sqTol))%Q)
  /\ ((sqTol < fst (dp_scan points first last sqTol))%Q ->
      first < snd (dp_scan points first last sqTol) < last).
Proof.
  unfold dp_scan.
  set (dist := fun i => getSqSegDist (nth (Z.to_nat i) points (0%Z, 0%Z))
                          (nth (Z.to_nat first) points (0%Z, 0%Z))
                          (nth (Z.to_nat last) points (0%Z, 0%Z))).
  assert (Hgen : forall l (st : Q * Z),
    (forall i, In i l -> first < i < last) ->
    (sqTol <= fst st)%Q -> ((sqTol < fst st)%Q -> first < snd st < last) ->
    let st' := fold_left (fun st i => if Qltb (fst st) (dist i) then (dist i, i) else st) l st in
    (sqTol <= fst st')%Q /\ (fst st <= fst st')%Q
    /\ (forall i, In i l -> (dist i <= fst st')%Q)
    /\ ((sqTol < fst st')%Q -> first < snd st' < last)).
  { induction l as [|i l IH]; intros st Hl H1 H2; simpl.
    { split; [exact H1|split; [apply Qle_refl|split; [intros _ []|exact H2]]]. }
    assert (Hi : first < i < last) by (apply Hl; left; reflexivity).
    destruct (Qltb (fst st) (dist i)) eqn:E.
    - apply Qltb_true in E.
      destruct (IH (dist i, i)) as [K1 [K2 [K3 K4]]];
        [intros j Hj; apply Hl; right; exact Hj
        |simpl; apply Qlt_le_weak; apply Qle_lt_trans with (fst st); assumption
        |intros _; exact Hi|].
      simpl in K2. split; [exact K1|split; [|split; [|exact K4]]].
      + apply Qle_trans with (dist i); [apply Qlt_le_weak; exact E|exact K2].
      + intros j [<-|Hj]; [exact K2|exact (K3 j Hj)].
    - destruct (IH st) as [K1 [K2 [K3 K4]]];
        [intros j Hj; apply Hl; right; exact Hj|exact H1|exact H2|].
      split; [exact K1|split; [exact K2|split; [|exact K4]]].
      intros j [<-|Hj]; [|exact (K3 j Hj)].
      apply Qle_trans with (fst st); [|exact K2].
      apply Qnot_lt_le. intros Hc. apply Qltb_true in Hc. congruence. }
  destruct (Hgen (seqZ (first + 1) (last - first - 1)) (sqTol, 0%Z)) as [K1 [_ [K3 K4]]].
  - intros i Hi. apply in_seqZ in Hi. lia.
  - apply Qle_refl.
  - simpl. intros Hc. exfalso. apply (Qlt_irrefl _ Hc).
  - split; [exact K1|split; [|exact K4]].
    intros k Hk. apply K3. apply in_seqZ. lia.
Qed.

(** [simplifyDPStep] between [first < last], given enough nesting: it
    pushes the points at indices [mids], strictly between [first] and
    [last] and increasing, and every point left out between two
    consecutive kept indices [i < j] lies within [sqTolerance] of the
    segment from point [i] to point [j]. *)
Lemma simplifyDPStep_spec (fuel : nat) (points : list point) (first last : Z)
  (sqTol : Q) (acc : list point) :
  0 <= first < last -> (Z.to_nat (last - first) <= fuel)%nat ->
  exists mids,
    simplifyDPStep fuel points first last sqTol acc
    = Some (acc ++ map (fun i => nth (Z.to_nat i) points (0, 0)) mids)
    /\ LocallySorted
         (fun i j => i < j /\ forall k, i < k < j ->
            (getSqSegDist (nth (Z.to_nat k) points (0%Z, 0%Z))
               (nth (Z.to_nat i) points (0%Z, 0%Z))
               (nth (Z.to_nat j) points (0%Z, 0%Z)) <= sqTol)%Q)
         (first :: mids ++ [last]).
Proof.
  revert first last acc. induction fuel as [|fuel IH]; intros first last acc Hfl Hf; [lia|].
  simpl.
  destruct (dp_scan_spec points first last sqTol) as [S1 [S2 S3]].
  destruct (dp_scan points first last sqTol) as [m idx] eqn:Es. simpl in S1, S2, S3.
  destruct (Qltb sqTol m) eqn:Em.
  - apply Qltb_true in Em. specialize (S3 Em).
    assert (HL : exists midsL,
      (if 1 <? idx - first then simplifyDPStep fuel points first idx sqTol acc
       else Some acc) = Some (acc ++ map (fun i => nth (Z.to_nat i) points (0, 0)) midsL)
      /\ LocallySorted
           (fun i j => i < j /\ forall k, i < k < j ->
              (getSqSegDist (nth (Z.to_nat k) points (0%Z, 0%Z))
                 (nth (Z.to_nat i) points (0%Z, 0%Z))
                 (nth (Z.to_nat j) points (0%Z, 0%Z)) <= sqTol)%Q)
           (first :: midsL ++ [idx])).
    { destruct (Z.ltb_spec 1 (idx - first)).
      - apply IH; lia.
      - exists []. rewrite app_nil_r. split; [reflexivity|].
        simpl. constructor; [constructor|]. split; [lia|intros k Hk; lia]. }
    destruct HL as [midsL [EL HsL]]. rewrite EL.
    assert (HR : exists midsR,
      (if 1 <? last - idx
       then simplifyDPStep fuel points idx last sqTol
              ((acc ++ map (fun i => nth (Z.to_nat i) points (0, 0)) midsL)
               ++ [nth (Z.to_nat idx) points (0, 0)])
       else Some ((acc ++ map (fun i => nth (Z.to_nat i) points (0, 0)) midsL)
                  ++ [nth (Z.to_nat idx) points (0, 0)]))
      = Some (((acc ++ map (fun i => nth (Z.to_nat i) points (0, 0)) midsL)
               ++ [nth (Z.to_nat idx) points (0, 0)])
              ++ map (fun i => nth (Z.to_nat i) points (0, 0)) midsR)
      /\ LocallySorted
           (fun i j => i < j /\ forall k, i < k < j ->
              (getSqSegDist (nth (Z.to_nat k) points (0%Z, 0%Z))
                 (nth (Z.to_nat i) points (0%Z, 0%Z))
                 (nth (Z.to_nat j) points (0%Z, 0%Z)) <= sqTol)%Q)
           (idx :: midsR ++ [last])).
    { destruct (Z.ltb_spec 1 (last - idx)).
      - apply IH; lia.
      - exists []. rewrite app_nil_r. split; [reflexivity|].
        simpl. constructor; [constructor|]. split; [lia|intros k Hk; lia]. }
    destruct HR as [midsR [ER HsR]]. cbv zeta. rewrite ER.
    exists (midsL ++ idx :: midsR). split.
    + rewrite map_app. simpl. rewrite <- !app_assoc. reflexivity.
    + replace (first :: (midsL ++ idx :: midsR) ++ [last])
        with ((first :: midsL) ++ idx :: (midsR ++ [last]))
        by (simpl; rewrite <- app_assoc; reflexivity).
      apply LocallySorted_join; assumption.
  - exists []. rewrite app_nil_r. split; [reflexivity|].
    simpl. constructor; [constructor|]. split; [lia|].
    intros k Hk. apply Qle_trans with m; [exact (S2 k Hk)|].
    apply Qnot_lt_le. intros Hc. apply Qltb_true in Hc. congruence.
Qed.

(** The sibling's [simplifyPath] on a path of at least three points
    always returns (its recursion ends), keeps the first and the last
    point and a subsequence of the others, and every point it leaves out
    lies within [tolerance] of the segment joining the two kept points
    around it ([getSqSegDist <= tolerance * tolerance]). *)
Theorem usage_simplifyPath_tolerance (path : list point) (tolerance : Q) :
  (3 <= length path)%nat ->
  exists mids,
    usage_simplifyPath path tolerance
    = Some (map (fun i => nth (Z.to_nat i) path (0, 0))
              (0 :: mids ++ [Z.of_nat (length path) - 1]))
    /\ LocallySorted
         (fun i j => i < j /\ forall k, i < k < j ->
            (getSqSegDist (nth (Z.to_nat k) path (0%Z, 0%Z))
               (nth (Z.to_nat i) path (0%Z, 0%Z))
               (nth (Z.to_nat j) path (0%Z, 0%Z)) <= tolerance * tolerance)%Q)
         (0 :: mids ++ [Z.of_nat (length path) - 1]).
Proof.
  intros Hl. unfold usage_simplifyPath.
  destruct (Nat.leb_spec (length path) 2) as [Hc|_]; [lia|]. cbv zeta.
  destruct (simplifyDPStep_spec (length path) path 0 (Z.of_nat (length path) - 1)
              (tolerance * tolerance) [nth 0 path (0, 0)]) as [mids [E Hs]]; [lia|lia|].
  rewrite E. exists mids. split; [|exact Hs].
  f_equal. cbn [map app]. rewrite map_app. reflexivity.
Qed.

Lemma usage_simplifyPath_tolerance_witness :
  (3 <= length [(0, 0); (1, 1); (2, 0); (3, 0); (4, 5); (5, 0)])%nat
  /\ usage_simplifyPath [(0, 0); (1, 1); (2, 0); (3, 0); (4, 5); (5, 0)] 1 <> None.
Proof.
  split; [simpl; lia|].
  destruct (usage_simplifyPath_tolerance [(0, 0); (1, 1); (2, 0); (3, 0); (4, 5); (5, 0)] 1)
    as [mids [E _]]; [simpl; lia|].
  rewrite E. discriminate.
Defined.
